(** * The HTEX interchange event loop

    A shallow embedding of [parsl/executors/high_throughput/interchange.py]:
    the priority queue of pending tasks, the registry of managers, the six
    steps of one loop iteration, and the properties of the specification that
    concern them.

    Conventions of the embedding.
    - Python [bytes] and [str] are both [string] (a [str] is the string of its
      UTF-8 encoding); [bytes.decode('utf-8')] is the identity where the bytes
      are valid UTF-8 and raises otherwise.
    - [time.time()] is an input of each step ([now]); the reads of the clock
      inside one step are identified.  Instants are integers.
    - A priority is a Python number: an integer or one of the two float
      infinities ([float('inf')] is the default priority).
    - Sockets are modelled by the list of what was sent on them, oldest first;
      what is received is an input of the step.
    - A Python exception that leaves a step is [Raise e st], where [st] is the
      state at the point of the raise (mutations made before it persist). *)

From Stdlib Require Import ZArith Lia Bool Ascii String List.
From stdpp Require Import base list sorting gmap strings.

Open Scope Z_scope.

(** ** Python numbers used as priorities *)

Inductive number :=
| NegInf
| Num (z : Z)
| PosInf.

(** unary minus *)
Definition neg (x : number) : number :=
  match x with
  | NegInf => PosInf
  | Num z => Num (- z)
  | PosInf => NegInf
  end.

Definition number_ltb (x y : number) : bool :=
  match x, y with
  | NegInf, NegInf => false
  | NegInf, _ => true
  | Num _, NegInf => false
  | Num a, Num b => a <? b
  | Num _, PosInf => true
  | PosInf, _ => false
  end.

Definition number_eqb (x y : number) : bool :=
  match x, y with
  | NegInf, NegInf => true
  | Num a, Num b => a =? b
  | PosInf, PosInf => true
  | _, _ => false
  end.

Definition number_lt (x y : number) : Prop := number_ltb x y = true.

(** ** Tasks and the pending task queue *)

Record resource_spec_t := { rs_priority : option number }.

(** The task message received on [task_incoming]: a dict with [task_id],
    [buffer] and an optional [resource_spec]. *)
Record task := {
  task_id : Z;
  buffer : string;
  resource_spec : option resource_spec_t;
}.

(** [msg.get('resource_spec', {}).get('priority', float('inf'))] *)
Definition priority_of (msg : task) : number :=
  match resource_spec msg with
  | None => PosInf
  | Some rs =>
      match rs_priority rs with
      | None => PosInf
      | Some p => p
      end
  end.

(** [(-priority, -self.task_counter, msg)] *)
Definition queue_entry : Type := number * Z * task.

Definition entry_task (tup : queue_entry) : task := tup.2.

(** [key=lambda tup: (tup[0], tup[1])] *)
Definition key (tup : queue_entry) : number * Z := (tup.1.1, tup.1.2).

(** Python's order on the key tuples: lexicographic. *)
Definition key_ltb (k1 k2 : number * Z) : bool :=
  if number_eqb k1.1 k2.1 then k1.2 <? k2.2 else number_ltb k1.1 k2.1.

Definition key_lt (k1 k2 : number * Z) : Prop := key_ltb k1 k2 = true.

(** [SortedList.add]: the list is kept ascending by key; the new value goes to
    the right of the values with an equal key (bisect_right). *)
Fixpoint sl_add (e : queue_entry) (l : list queue_entry) : list queue_entry :=
  match l with
  | [] => [e]
  | x :: r => if key_ltb (key e) (key x) then e :: x :: r else x :: sl_add e r
  end.

(** [SortedList.pop()]: removes and returns the last (greatest) value;
    [None] is IndexError on an empty list. *)
Fixpoint sl_pop (l : list queue_entry) : option (queue_entry * list queue_entry) :=
  match l with
  | [] => None
  | x :: r =>
      match sl_pop r with
      | None => Some (x, [])
      | Some (y, r') => Some (y, x :: r')
      end
  end.

(** The body of [get_tasks]: [for _ in range(count)] pops and appends; the
    IndexError of an empty queue ends the loop. *)
Fixpoint get_tasks_loop (n : nat) (q : list queue_entry) (tasks : list task)
  : list task * list queue_entry :=
  match n with
  | O => (tasks, q)
  | S n' =>
      match sl_pop q with
      | None => (tasks, q)
      | Some (tup, q') => get_tasks_loop n' q' (tasks ++ [entry_task tup])
      end
  end.

(** [get_tasks(count)]: the tasks obtained and the queue left.
    [range(count)] is empty for [count <= 0]. *)
Definition get_tasks (count : Z) (q : list queue_entry) : list task * list queue_entry :=
  get_tasks_loop (Z.to_nat count) q [].

(** The entries of a queue in the order successive [pop()]s return them. *)
Fixpoint pop_order_fuel (n : nat) (q : list queue_entry) : list queue_entry :=
  match n with
  | O => []
  | S n' =>
      match sl_pop q with
      | None => []
      | Some (tup, q') => tup :: pop_order_fuel n' q'
      end
  end.

Definition pop_order (q : list queue_entry) : list queue_entry :=
  pop_order_fuel (length q) q.

(** ** Strings *)

(** Python [bytes]; also the UTF-8 encoding of a [str]. *)
Definition bytes : Type := string.

(** [s.rsplit('.', 1)[0]]: what precedes the last dot; the whole string when
    it has no dot.  [rsplit_dot s] is [None] when [s] has no dot. *)
Fixpoint rsplit_dot (s : string) : option string :=
  match s with
  | EmptyString => None
  | String c r =>
      match rsplit_dot r with
      | Some p => Some (String c p)
      | None => if Ascii.eqb c "." then Some EmptyString else None
      end
  end.

Definition rsplit1_head (s : string) : string :=
  match rsplit_dot s with
  | Some p => p
  | None => s
  end.

(** [s.split(';')] *)
Fixpoint split_semicolon (s : string) : list string :=
  match s with
  | EmptyString => [EmptyString]
  | String c r =>
      if Ascii.eqb c ";" then EmptyString :: split_semicolon r
      else match split_semicolon r with
           | [] => [String c EmptyString]
           | w :: ws => String c w :: ws
           end
  end.

(** [s.startswith(p)] *)
Definition startswith (p s : string) : bool := String.prefix p s.

Definition is_cont (b : N) : bool := ((128 <=? b) && (b <=? 191))%N.

(** Well-formed UTF-8 (no overlong forms, no surrogates, at most U+10FFFF):
    the byte strings the strict decoder accepts. *)
Fixpoint utf8_valid (l : list N) : bool :=
  match l with
  | [] => true
  | b0 :: r0 =>
      if (b0 <=? 127)%N then utf8_valid r0
      else
        match r0 with
        | [] => false
        | b1 :: r1 =>
            if ((194 <=? b0) && (b0 <=? 223))%N then is_cont b1 && utf8_valid r1
            else
              match r1 with
              | [] => false
              | b2 :: r2 =>
                  if ((224 <=? b0) && (b0 <=? 239))%N then
                    (if (b0 =? 224)%N then ((160 <=? b1) && (b1 <=? 191))%N
                     else if (b0 =? 237)%N then ((128 <=? b1) && (b1 <=? 159))%N
                     else is_cont b1)
                    && is_cont b2 && utf8_valid r2
                  else
                    match r2 with
                    | [] => false
                    | b3 :: r3 =>
                        if ((240 <=? b0) && (b0 <=? 244))%N then
                          (if (b0 =? 240)%N then ((144 <=? b1) && (b1 <=? 191))%N
                           else if (b0 =? 244)%N then ((128 <=? b1) && (b1 <=? 143))%N
                           else is_cont b1)
                          && is_cont b2 && is_cont b3 && utf8_valid r3
                        else false
                    end
              end
        end
  end.

(** [b.decode('utf-8')]; [None] is UnicodeDecodeError. *)
Definition decode_utf8 (b : bytes) : option string :=
  if utf8_valid (map N_of_ascii (list_ascii_of_string b)) then Some b else None.

(** [s.encode('utf-8')] *)
Definition encode_utf8 (s : string) : bytes := s.

(** ** Python dicts, in insertion order *)

Section Dict.
Context {V : Type}.

Definition dict : Type := list (bytes * V).

(** [d.get(k)] *)
Fixpoint dict_get (k : bytes) (d : dict) : option V :=
  match d with
  | [] => None
  | (k', v) :: r => if String.eqb k k' then Some v else dict_get k r
  end.

(** [d[k] = v]: a present key keeps its place, a new key goes last. *)
Fixpoint dict_set (k : bytes) (v : V) (d : dict) : dict :=
  match d with
  | [] => [(k, v)]
  | (k', v') :: r =>
      if String.eqb k k' then (k, v) :: r else (k', v') :: dict_set k v r
  end.

(** [d.pop(k, default)]: the dict without the key. *)
Fixpoint dict_pop (k : bytes) (d : dict) : dict :=
  match d with
  | [] => []
  | (k', v') :: r =>
      if String.eqb k k' then dict_pop k r else (k', v') :: dict_pop k r
  end.

Definition dict_keys (d : dict) : list bytes := map fst d.
Definition dict_values (d : dict) : list V := map snd d.
End Dict.

Arguments dict V : clear implicits.

(** ** Manager records and messages *)

Record ManagerRecord := {
  block_id : option string;
  start_time : Z;
  tasks : list Z;
  worker_count : Z;
  max_capacity : Z;
  active : bool;
  draining : bool;
  last_heartbeat : Z;
  idle_since : option Z;
  parsl_version : string;
  python_version : string;
  hostname : string;
  packages : list (string * string);
}.

Definition with_tasks (ts : list Z) (m : ManagerRecord) : ManagerRecord :=
  {| block_id := block_id m; start_time := start_time m; tasks := ts;
     worker_count := worker_count m; max_capacity := max_capacity m;
     active := active m; draining := draining m;
     last_heartbeat := last_heartbeat m; idle_since := idle_since m;
     parsl_version := parsl_version m; python_version := python_version m;
     hostname := hostname m; packages := packages m |}.

Definition with_active (a : bool) (m : ManagerRecord) : ManagerRecord :=
  {| block_id := block_id m; start_time := start_time m; tasks := tasks m;
     worker_count := worker_count m; max_capacity := max_capacity m;
     active := a; draining := draining m;
     last_heartbeat := last_heartbeat m; idle_since := idle_since m;
     parsl_version := parsl_version m; python_version := python_version m;
     hostname := hostname m; packages := packages m |}.

Definition with_draining (d : bool) (m : ManagerRecord) : ManagerRecord :=
  {| block_id := block_id m; start_time := start_time m; tasks := tasks m;
     worker_count := worker_count m; max_capacity := max_capacity m;
     active := active m; draining := d;
     last_heartbeat := last_heartbeat m; idle_since := idle_since m;
     parsl_version := parsl_version m; python_version := python_version m;
     hostname := hostname m; packages := packages m |}.

Definition with_last_heartbeat (t : Z) (m : ManagerRecord) : ManagerRecord :=
  {| block_id := block_id m; start_time := start_time m; tasks := tasks m;
     worker_count := worker_count m; max_capacity := max_capacity m;
     active := active m; draining := draining m;
     last_heartbeat := t; idle_since := idle_since m;
     parsl_version := parsl_version m; python_version := python_version m;
     hostname := hostname m; packages := packages m |}.

Definition with_idle_since (t : option Z) (m : ManagerRecord) : ManagerRecord :=
  {| block_id := block_id m; start_time := start_time m; tasks := tasks m;
     worker_count := worker_count m; max_capacity := max_capacity m;
     active := active m; draining := draining m;
     last_heartbeat := last_heartbeat m; idle_since := t;
     parsl_version := parsl_version m; python_version := python_version m;
     hostname := hostname m; packages := packages m |}.

(** The keys of [ManagerRecord] that [ManagerRecord(...)] sets itself at a
    registration.  The dict of the message is not validated: when it carries
    one of these keys, [new_rec.update(meta)] overwrites the field with the
    value of the message.  [None] is a key the message does not have; the
    value of ['idle_since'] may itself be null. *)
Record record_keys := {
  meta_tasks : option (list Z);
  meta_active : option bool;
  meta_draining : option bool;
  meta_last_heartbeat : option Z;
  meta_idle_since : option (option Z);
  meta_parsl_version : option string;
  meta_python_version : option string;
}.

(** A message that carries none of them. *)
Definition no_record_keys : record_keys :=
  {| meta_tasks := None; meta_active := None; meta_draining := None;
     meta_last_heartbeat := None; meta_idle_since := None;
     meta_parsl_version := None; meta_python_version := None |}.

(** The keys of a registration message that the loop reads or that overwrite
    a field of the new record in [new_rec.update(meta)]. *)
Record registration_meta := {
  meta_python_v : string;
  meta_parsl_v : string;
  meta_start_time : Z;
  meta_block_id : option string;
  meta_worker_count : Z;
  meta_max_capacity : Z;
  meta_hostname : string;
  meta_packages : list (string * string);
  meta_record : record_keys;
}.

(** [meta = pickle.loads(meta_b)]: its ['type'] and, when the dict has them,
    the registration keys. *)
Record meta_t := {
  mtype : string;
  registration : option registration_meta;
}.

(** [r = pickle.loads(p_message)], by [r['type']]. *)
Inductive result_message :=
| r_result (tid : Z)
| r_monitoring (payload : string)
| r_other (r_type : string).

(** What [recv_multipart] on the manager socket gives: parts that do not
    unpack, unpickle or have no ['type'], or [manager_id, meta_b, *msgs];
    a sub-message is its frame and what the frame unpickles to ([None]: it
    does not unpickle to a dict with a ['type'], and a result to one with a
    ['task_id']). *)
Inductive manager_message :=
| malformed (msg_parts : list bytes)
| parts (manager_id : bytes) (meta : meta_t) (msgs : list (bytes * option result_message)).

(** ** What the interchange sends *)

Inductive exception_t :=
| VersionMismatch (interchange_version manager_version : string)
| ManagerLost (manager_id : bytes) (hostname : string).

(** [{'type': 'result', 'task_id': ..., 'exception': serialize_object(...)}] *)
Record result_package := {
  rp_task_id : Z;
  rp_exception : exception_t;
}.

(** A send on [results_outgoing]. *)
Inductive client_send :=
| send (pkl_package : result_package)
| send_multipart (b_messages : list bytes).

Inductive pyobj :=
| py_int (n : Z)
| py_tasks (ts : list task).

(** [pickle.dumps], kept symbolic. *)
Inductive pickled := pickle_dumps (o : pyobj).

Definition PKL_HEARTBEAT_CODE : pickled := pickle_dumps (py_int (2 ^ 32 - 1)).
Definition PKL_DRAINED_CODE : pickled := pickle_dumps (py_int (2 ^ 32 - 2)).

(** A send on the monitoring radio: [(MessageType.NODE_INFO, d)], where [d]
    is the copy of the record with its [timestamp] and [run_id], or the
    payload of a monitoring sub-message passed on. *)
Inductive monitoring_message :=
| NODE_INFO (d : ManagerRecord) (timestamp : Z) (run_id : string)
| passed_on (payload : string).

(** One element of the reply to MANAGERS. *)
Record manager_resp := {
  resp_manager : string;
  resp_block_id : option string;
  resp_worker_count : Z;
  resp_tasks : Z;
  resp_idle_duration : Z;
  resp_active : bool;
  resp_parsl_version : string;
  resp_python_version : string;
  resp_draining : bool;
}.

Inductive reply_t :=
| reply_blocks (l : list string)
| reply_int (n : Z)
| reply_managers (l : list manager_resp)
| reply_packages (d : dict (list (string * string)))
| reply_None.

Inductive exn :=
| KeyError
| ValueError
| AssertionError
| UnpicklingError
| UnicodeDecodeError.

(** ** The state of the interchange

    The fields of [Interchange] that the loop uses, the locals of [start]
    that the steps share ([interesting_managers], [kill_event] and whether
    there is a [monitoring_radio]), and what was sent on each socket.
    [platform_python_v] and [platform_parsl_v] are
    [current_platform['python_v']] and [current_platform['parsl_v']]. *)

Record Interchange := {
  pending_task_queue : list queue_entry;
  task_counter : Z;
  count : Z;
  worker_port : Z;
  _ready_managers : dict ManagerRecord;
  connected_block_history : list string;
  heartbeat_threshold : Z;
  manager_selector : dict ManagerRecord -> gset bytes -> list bytes;
  platform_python_v : string;
  platform_parsl_v : string;
  run_id : string;
  interesting_managers : gset bytes;
  kill_event : bool;
  monitoring_radio : bool;
  results_outgoing : list client_send;
  manager_sock : list (bytes * pickled);
  command_channel : list reply_t;
  monitoring_sent : list monitoring_message;
}.

Definition set_pending_task_queue (x : list queue_entry) (st : Interchange) : Interchange :=
  {| pending_task_queue := x; task_counter := task_counter st;
     count := count st; worker_port := worker_port st;
     _ready_managers := _ready_managers st;
     connected_block_history := connected_block_history st;
     heartbeat_threshold := heartbeat_threshold st;
     manager_selector := manager_selector st;
     platform_python_v := platform_python_v st;
     platform_parsl_v := platform_parsl_v st; run_id := run_id st;
     interesting_managers := interesting_managers st;
     kill_event := kill_event st; monitoring_radio := monitoring_radio st;
     results_outgoing := results_outgoing st;
     manager_sock := manager_sock st; command_channel := command_channel st;
     monitoring_sent := monitoring_sent st |}.

Definition set_task_counter (x : Z) (st : Interchange) : Interchange :=
  {| pending_task_queue := pending_task_queue st; task_counter := x;
     count := count st; worker_port := worker_port st;
     _ready_managers := _ready_managers st;
     connected_block_history := connected_block_history st;
     heartbeat_threshold := heartbeat_threshold st;
     manager_selector := manager_selector st;
     platform_python_v := platform_python_v st;
     platform_parsl_v := platform_parsl_v st; run_id := run_id st;
     interesting_managers := interesting_managers st;
     kill_event := kill_event st; monitoring_radio := monitoring_radio st;
     results_outgoing := results_outgoing st;
     manager_sock := manager_sock st; command_channel := command_channel st;
     monitoring_sent := monitoring_sent st |}.

Definition set_count (x : Z) (st : Interchange) : Interchange :=
  {| pending_task_queue := pending_task_queue st;
     task_counter := task_counter st; count := x;
     worker_port := worker_port st; _ready_managers := _ready_managers st;
     connected_block_history := connected_block_history st;
     heartbeat_threshold := heartbeat_threshold st;
     manager_selector := manager_selector st;
     platform_python_v := platform_python_v st;
     platform_parsl_v := platform_parsl_v st; run_id := run_id st;
     interesting_managers := interesting_managers st;
     kill_event := kill_event st; monitoring_radio := monitoring_radio st;
     results_outgoing := results_outgoing st;
     manager_sock := manager_sock st; command_channel := command_channel st;
     monitoring_sent := monitoring_sent st |}.

Definition set_ready_managers (x : dict ManagerRecord) (st : Interchange) : Interchange :=
  {| pending_task_queue := pending_task_queue st;
     task_counter := task_counter st; count := count st;
     worker_port := worker_port st; _ready_managers := x;
     connected_block_history := connected_block_history st;
     heartbeat_threshold := heartbeat_threshold st;
     manager_selector := manager_selector st;
     platform_python_v := platform_python_v st;
     platform_parsl_v := platform_parsl_v st; run_id := run_id st;
     interesting_managers := interesting_managers st;
     kill_event := kill_event st; monitoring_radio := monitoring_radio st;
     results_outgoing := results_outgoing st;
     manager_sock := manager_sock st; command_channel := command_channel st;
     monitoring_sent := monitoring_sent st |}.

Definition set_connected_block_history (x : list string) (st : Interchange) : Interchange :=
  {| pending_task_queue := pending_task_queue st;
     task_counter := task_counter st; count := count st;
     worker_port := worker_port st; _ready_managers := _ready_managers st;
     connected_block_history := x;
     heartbeat_threshold := heartbeat_threshold st;
     manager_selector := manager_selector st;
     platform_python_v := platform_python_v st;
     platform_parsl_v := platform_parsl_v st; run_id := run_id st;
     interesting_managers := interesting_managers st;
     kill_event := kill_event st; monitoring_radio := monitoring_radio st;
     results_outgoing := results_outgoing st;
     manager_sock := manager_sock st; command_channel := command_channel st;
     monitoring_sent := monitoring_sent st |}.

Definition set_interesting_managers (x : gset bytes) (st : Interchange) : Interchange :=
  {| pending_task_queue := pending_task_queue st;
     task_counter := task_counter st; count := count st;
     worker_port := worker_port st; _ready_managers := _ready_managers st;
     connected_block_history := connected_block_history st;
     heartbeat_threshold := heartbeat_threshold st;
     manager_selector := manager_selector st;
     platform_python_v := platform_python_v st;
     platform_parsl_v := platform_parsl_v st; run_id := run_id st;
     interesting_managers := x; kill_event := kill_event st;
     monitoring_radio := monitoring_radio st;
     results_outgoing := results_outgoing st;
     manager_sock := manager_sock st; command_channel := command_channel st;
     monitoring_sent := monitoring_sent st |}.

Definition set_kill_event (x : bool) (st : Interchange) : Interchange :=
  {| pending_task_queue := pending_task_queue st;
     task_counter := task_counter st; count := count st;
     worker_port := worker_port st; _ready_managers := _ready_managers st;
     connected_block_history := connected_block_history st;
     heartbeat_threshold := heartbeat_threshold st;
     manager_selector := manager_selector st;
     platform_python_v := platform_python_v st;
     platform_parsl_v := platform_parsl_v st; run_id := run_id st;
     interesting_managers := interesting_managers st; kill_event := x;
     monitoring_radio := monitoring_radio st;
     results_outgoing := results_outgoing st;
     manager_sock := manager_sock st; command_channel := command_channel st;
     monitoring_sent := monitoring_sent st |}.

Definition set_results_outgoing (x : list client_send) (st : Interchange) : Interchange :=
  {| pending_task_queue := pending_task_queue st;
     task_counter := task_counter st; count := count st;
     worker_port := worker_port st; _ready_managers := _ready_managers st;
     connected_block_history := connected_block_history st;
     heartbeat_threshold := heartbeat_threshold st;
     manager_selector := manager_selector st;
     platform_python_v := platform_python_v st;
     platform_parsl_v := platform_parsl_v st; run_id := run_id st;
     interesting_managers := interesting_managers st;
     kill_event := kill_event st; monitoring_radio := monitoring_radio st;
     results_outgoing := x; manager_sock := manager_sock st;
     command_channel := command_channel st;
     monitoring_sent := monitoring_sent st |}.

Definition set_manager_sock (x : list (bytes * pickled)) (st : Interchange) : Interchange :=
  {| pending_task_queue := pending_task_queue st;
     task_counter := task_counter st; count := count st;
     worker_port := worker_port st; _ready_managers := _ready_managers st;
     connected_block_history := connected_block_history st;
     heartbeat_threshold := heartbeat_threshold st;
     manager_selector := manager_selector st;
     platform_python_v := platform_python_v st;
     platform_parsl_v := platform_parsl_v st; run_id := run_id st;
     interesting_managers := interesting_managers st;
     kill_event := kill_event st; monitoring_radio := monitoring_radio st;
     results_outgoing := results_outgoing st; manager_sock := x;
     command_channel := command_channel st;
     monitoring_sent := monitoring_sent st |}.

Definition set_command_channel (x : list reply_t) (st : Interchange) : Interchange :=
  {| pending_task_queue := pending_task_queue st;
     task_counter := task_counter st; count := count st;
     worker_port := worker_port st; _ready_managers := _ready_managers st;
     connected_block_history := connected_block_history st;
     heartbeat_threshold := heartbeat_threshold st;
     manager_selector := manager_selector st;
     platform_python_v := platform_python_v st;
     platform_parsl_v := platform_parsl_v st; run_id := run_id st;
     interesting_managers := interesting_managers st;
     kill_event := kill_event st; monitoring_radio := monitoring_radio st;
     results_outgoing := results_outgoing st;
     manager_sock := manager_sock st; command_channel := x;
     monitoring_sent := monitoring_sent st |}.

Definition set_monitoring_sent (x : list monitoring_message) (st : Interchange) : Interchange :=
  {| pending_task_queue := pending_task_queue st;
     task_counter := task_counter st; count := count st;
     worker_port := worker_port st; _ready_managers := _ready_managers st;
     connected_block_history := connected_block_history st;
     heartbeat_threshold := heartbeat_threshold st;
     manager_selector := manager_selector st;
     platform_python_v := platform_python_v st;
     platform_parsl_v := platform_parsl_v st; run_id := run_id st;
     interesting_managers := interesting_managers st;
     kill_event := kill_event st; monitoring_radio := monitoring_radio st;
     results_outgoing := results_outgoing st;
     manager_sock := manager_sock st; command_channel := command_channel st;
     monitoring_sent := x |}.

(** [Interchange.__init__] and the first lines of [start]. *)
Definition initial (port threshold : Z)
    (selector : dict ManagerRecord -> gset bytes -> list bytes)
    (python_v parsl_v rid : string) (radio : bool) : Interchange :=
  {| pending_task_queue := []; task_counter := 0; count := 0;
     worker_port := port; _ready_managers := [];
     connected_block_history := []; heartbeat_threshold := threshold;
     manager_selector := selector;
     platform_python_v := python_v; platform_parsl_v := parsl_v;
     run_id := rid; interesting_managers := ∅; kill_event := false;
     monitoring_radio := radio; results_outgoing := []; manager_sock := [];
     command_channel := []; monitoring_sent := [] |}.

(** ** Steps that can raise *)

Inductive outcome :=
| Ok (st : Interchange)
| Raise (e : exn) (st : Interchange).

Definition bind (o : outcome) (k : Interchange -> outcome) : outcome :=
  match o with
  | Ok st => k st
  | Raise e st => Raise e st
  end.

Notation "'do' x <- o ; k" := (bind o (fun x => k))
  (at level 10, x name, o at level 100, k at level 200).

(** The state a step ends in, normally or by an exception. *)
Definition outcome_state (o : outcome) : Interchange :=
  match o with
  | Ok st => st
  | Raise _ st => st
  end.

(** [m['tasks'].remove(tid)]: without the first occurrence; [None] is the
    ValueError for an absent value. *)
Fixpoint list_remove (tid : Z) (l : list Z) : option (list Z) :=
  match l with
  | [] => None
  | x :: r =>
      if x =? tid then Some r
      else match list_remove tid r with
           | Some r' => Some (x :: r')
           | None => None
           end
  end.

Definition _send_monitoring_info (now : Z) (manager : ManagerRecord)
    (st : Interchange) : Interchange :=
  if monitoring_radio st then
    set_monitoring_sent (monitoring_sent st ++ [NODE_INFO manager now (run_id st)]) st
  else st.

(** ** The command step *)

Definition manager_resp_of (now : Z) (manager_id : string) (m : ManagerRecord)
  : manager_resp :=
  {| resp_manager := manager_id;
     resp_block_id := block_id m;
     resp_worker_count := worker_count m;
     resp_tasks := Z.of_nat (length (tasks m));
     resp_idle_duration :=
       match idle_since m with
       | Some t => now - t
       | None => 0
       end;
     resp_active := active m;
     resp_parsl_version := parsl_version m;
     resp_python_version := python_version m;
     resp_draining := draining m |}.

(** The loop of MANAGERS; [None] is the UnicodeDecodeError of a manager id. *)
Fixpoint managers_reply (now : Z) (d : dict ManagerRecord) (reply : list manager_resp)
  : option (list manager_resp) :=
  match d with
  | [] => Some reply
  | (manager_id, m) :: r =>
      match decode_utf8 manager_id with
      | None => None
      | Some s => managers_reply now r (reply ++ [manager_resp_of now s m])
      end
  end.

(** The loop of MANAGERS_PACKAGES. *)
Fixpoint packages_reply (d : dict ManagerRecord) (reply : dict (list (string * string)))
  : option (dict (list (string * string))) :=
  match d with
  | [] => Some reply
  | (manager_id, m) :: r =>
      match decode_utf8 manager_id with
      | None => None
      | Some s => packages_reply r (dict_set s (packages m) reply)
      end
  end.

(** The loop of WORKERS. *)
Fixpoint num_workers (d : dict ManagerRecord) (acc : Z) : Z :=
  match d with
  | [] => acc
  | (_, manager) :: r => num_workers r (acc + worker_count manager)
  end.

(** The reply computed for a request and the state after it; the reply is
    not yet sent. *)
Definition command_reply (now : Z) (command_req : string) (st : Interchange)
  : exn * Interchange + reply_t * Interchange :=
  if String.eqb command_req "CONNECTED_BLOCKS" then
    inr (reply_blocks (connected_block_history st), st)
  else if String.eqb command_req "WORKERS" then
    inr (reply_int (num_workers (_ready_managers st) 0), st)
  else if String.eqb command_req "MANAGERS" then
    match managers_reply now (_ready_managers st) [] with
    | Some l => inr (reply_managers l, st)
    | None => inl (UnicodeDecodeError, st)
    end
  else if String.eqb command_req "MANAGERS_PACKAGES" then
    match packages_reply (_ready_managers st) [] with
    | Some d => inr (reply_packages d, st)
    | None => inl (UnicodeDecodeError, st)
    end
  else if startswith "HOLD_WORKER" command_req then
    match split_semicolon command_req with
    | [cmd; s_manager] =>
        let manager_id := encode_utf8 s_manager in
        match dict_get manager_id (_ready_managers st) with
        | Some m =>
            let m' := with_active false m in
            let st1 := set_ready_managers (dict_set manager_id m' (_ready_managers st)) st in
            inr (reply_None, _send_monitoring_info now m' st1)
        | None => inr (reply_None, st)
        end
    | _ => inl (ValueError, st)
    end
  else if String.eqb command_req "WORKER_BINDS" then
    inr (reply_int (worker_port st), st)
  else
    inr (reply_None, st).

(** [process_command]: [command_req] is [None] when the command channel has
    nothing to read. *)
Definition process_command (now : Z) (command_req : option string)
    (st : Interchange) : outcome :=
  match command_req with
  | None => Ok st
  | Some req =>
      match command_reply now req st with
      | inl (e, st') => Raise e st'
      | inr (reply, st') =>
          Ok (set_command_channel (command_channel st' ++ [reply]) st')
      end
  end.

(** ** Task intake *)

Definition process_task_incoming (msg : option task) (st : Interchange)
  : Interchange :=
  match msg with
  | None => st
  | Some msg =>
      let priority := priority_of msg in
      let queue_entry := (neg priority, - task_counter st, msg) in
      set_task_counter (task_counter st + 1)
        (set_pending_task_queue (sl_add queue_entry (pending_task_queue st)) st)
  end.

(** ** Messages of managers *)

(** The loop over the sub-messages of a result message.  [m] is the record
    of the sending manager, mutated in place in the registry; the loop gives
    the exception that ended it, if any, the frames to forward and the
    state. *)
Fixpoint result_loop (manager_id : bytes) (m : ManagerRecord)
    (msgs : list (bytes * option result_message))
    (b_messages_to_send : list bytes) (st : Interchange)
  : option exn * ManagerRecord * list bytes * Interchange :=
  match msgs with
  | [] => (None, m, b_messages_to_send, st)
  | (p_message, r) :: rest =>
      match r with
      | None => (Some UnpicklingError, m, b_messages_to_send, st)
      | Some (r_result tid) =>
          match list_remove tid (tasks m) with
          | Some ts =>
              let m' := with_tasks ts m in
              result_loop manager_id m' rest (b_messages_to_send ++ [p_message])
                (set_ready_managers (dict_set manager_id m' (_ready_managers st)) st)
          | None => result_loop manager_id m rest b_messages_to_send st
          end
      | Some (r_monitoring payload) =>
          if monitoring_radio st then
            result_loop manager_id m rest b_messages_to_send
              (set_monitoring_sent (monitoring_sent st ++ [passed_on payload]) st)
          else (Some AssertionError, m, b_messages_to_send, st)
      | Some (r_other _) => result_loop manager_id m rest b_messages_to_send st
      end
  end.

(** The record built for a registration: [ManagerRecord(...)] and then
    [new_rec.update(meta)], which gives every key of the message the value
    of the message: a field keeps what [ManagerRecord(...)] gave it only
    when the message does not carry its key. *)
Definition new_record (now : Z) (meta : registration_meta) : ManagerRecord :=
  {| block_id := meta_block_id meta;
     start_time := meta_start_time meta;
     tasks := default [] (meta_tasks (meta_record meta));
     worker_count := meta_worker_count meta;
     max_capacity := meta_max_capacity meta;
     active := default true (meta_active (meta_record meta));
     draining := default false (meta_draining (meta_record meta));
     last_heartbeat := default now (meta_last_heartbeat (meta_record meta));
     idle_since := default (Some now) (meta_idle_since (meta_record meta));
     parsl_version :=
       default (meta_parsl_v meta) (meta_parsl_version (meta_record meta));
     python_version :=
       default (meta_python_v meta) (meta_python_version (meta_record meta));
     hostname := meta_hostname meta;
     packages := meta_packages meta |}.

(** [(mgr_minor_py, mgr_parsl_v) != (ix_minor_py, ix_parsl_v)] *)
Definition version_mismatch (meta : registration_meta) (st : Interchange) : bool :=
  negb (String.eqb (rsplit1_head (meta_python_v meta)) (rsplit1_head (platform_python_v st))
        && String.eqb (meta_parsl_v meta) (platform_parsl_v st)).

Definition vm_exc (meta : registration_meta) (st : Interchange) : exception_t :=
  VersionMismatch
    ("py.v=" ++ rsplit1_head (platform_python_v st) ++ " parsl.v=" ++ platform_parsl_v st)
    ("py.v=" ++ rsplit1_head (meta_python_v meta) ++ " parsl.v=" ++ meta_parsl_v meta).

Definition register (now : Z) (manager_id : bytes) (meta : meta_t)
    (st : Interchange) : outcome :=
  match registration meta with
  | None => Raise KeyError st
  | Some r =>
      let new_rec := new_record now r in
      let st1 := _send_monitoring_info now new_rec st in
      if version_mismatch r st then
        let result_package := {| rp_task_id := -1; rp_exception := vm_exc r st |} in
        Ok (set_results_outgoing (results_outgoing st1 ++ [send result_package])
              (set_kill_event true st1))
      else
        match block_id new_rec with
        | None => Raise AssertionError st1
        | Some b =>
            Ok (set_interesting_managers ({[manager_id]} ∪ interesting_managers st1)
                  (set_connected_block_history (connected_block_history st1 ++ [b])
                     (set_ready_managers
                        (dict_set manager_id new_rec (_ready_managers st1)) st1)))
        end
  end.

(** [if len(m['tasks']) == 0 and m['idle_since'] is None:
       m['idle_since'] = time.time()] *)
Definition mark_idle (now : Z) (m : ManagerRecord) : ManagerRecord :=
  match tasks m, idle_since m with
  | [], None => with_idle_since (Some now) m
  | _, _ => m
  end.

(** The branch [mtype == 'result'], for the record [m] of the sender. *)
Definition handle_result (now : Z) (manager_id : bytes) (m : ManagerRecord)
    (msgs : list (bytes * option result_message)) (st : Interchange) : outcome :=
  match result_loop manager_id m msgs [] st with
  | (Some e, _, _, st1) => Raise e st1
  | (None, m1, b_messages_to_send, st1) =>
      match b_messages_to_send with
      | [] => Ok st1
      | _ :: _ =>
          let st2 := set_results_outgoing
                       (results_outgoing st1 ++ [send_multipart b_messages_to_send]) st1 in
          let st3 := set_interesting_managers ({[manager_id]} ∪ interesting_managers st2) st2 in
          let m2 := mark_idle now m1 in
          let st4 := set_ready_managers (dict_set manager_id m2 (_ready_managers st3)) st3 in
          Ok (_send_monitoring_info now m2 st4)
      end
  end.

(** [process_manager_socket_message]: [msg] is [None] when the manager socket
    has nothing to read. *)
Definition process_manager_socket_message (now : Z) (msg : option manager_message)
    (st : Interchange) : outcome :=
  match msg with
  | None => Ok st
  | Some (malformed _) => Ok st
  | Some (parts manager_id meta msgs) =>
      if String.eqb (mtype meta) "registration" then register now manager_id meta st
      else
        match dict_get manager_id (_ready_managers st) with
        | None => Ok st
        | Some m =>
            if String.eqb (mtype meta) "result" then
              handle_result now manager_id m msgs st
            else if String.eqb (mtype meta) "heartbeat" then
              let m' := with_last_heartbeat now m in
              Ok (set_manager_sock (manager_sock st ++ [(manager_id, PKL_HEARTBEAT_CODE)])
                    (set_ready_managers (dict_set manager_id m' (_ready_managers st)) st))
            else if String.eqb (mtype meta) "drain" then
              Ok (set_ready_managers
                    (dict_set manager_id (with_draining true m) (_ready_managers st)) st)
            else Ok st
        end
  end.

(** ** Expiry of managers *)

(** [time.time() - m['last_heartbeat'] > self.heartbeat_threshold] *)
Definition is_bad (now : Z) (st : Interchange) (m : ManagerRecord) : bool :=
  heartbeat_threshold st <? now - last_heartbeat m.

Definition bad_managers (now : Z) (st : Interchange) : list (bytes * ManagerRecord) :=
  List.filter (fun p => is_bad now st p.2) (_ready_managers st).

(** The failure reports of one lost manager, one per outstanding task. *)
Definition lost_reports (manager_id : bytes) (m : ManagerRecord) : list client_send :=
  map (fun tid => send {| rp_task_id := tid;
                          rp_exception := ManagerLost manager_id (hostname m) |})
      (tasks m).

(** The body of the loop over [bad_managers]. *)
Definition expire_bad_manager (now : Z) (manager_id : bytes) (m : ManagerRecord)
    (st : Interchange) : Interchange :=
  let st1 :=
    if active m then
      let m' := with_active false m in
      _send_monitoring_info now m'
        (set_ready_managers (dict_set manager_id m' (_ready_managers st)) st)
    else st in
  let st2 := set_results_outgoing (results_outgoing st1 ++ lost_reports manager_id m) st1 in
  let st3 := set_ready_managers (dict_pop manager_id (_ready_managers st2)) st2 in
  if decide (manager_id ∈ interesting_managers st3) then
    set_interesting_managers (interesting_managers st3 ∖ {[manager_id]}) st3
  else st3.

Fixpoint expire_bad_loop (now : Z) (bad : list (bytes * ManagerRecord))
    (st : Interchange) : Interchange :=
  match bad with
  | [] => st
  | (manager_id, m) :: rest =>
      expire_bad_loop now rest (expire_bad_manager now manager_id m st)
  end.

Definition expire_bad_managers (now : Z) (st : Interchange) : Interchange :=
  expire_bad_loop now (bad_managers now st) st.

(** The loop of [expire_drained_managers] over [list(interesting_managers)]. *)
Fixpoint expire_drained_loop (now : Z) (ids : list bytes) (st : Interchange)
  : outcome :=
  match ids with
  | [] => Ok st
  | manager_id :: rest =>
      match dict_get manager_id (_ready_managers st) with
      | None => Raise KeyError st
      | Some m =>
          if draining m && (length (tasks m) =? 0)%nat then
            let st1 := set_manager_sock
                         (manager_sock st ++ [(manager_id, PKL_DRAINED_CODE)]) st in
            let st2 := set_interesting_managers
                         (interesting_managers st1 ∖ {[manager_id]}) st1 in
            let st3 := set_ready_managers (dict_pop manager_id (_ready_managers st2)) st2 in
            expire_drained_loop now rest
              (_send_monitoring_info now (with_active false m) st3)
          else expire_drained_loop now rest st
      end
  end.

Definition expire_drained_managers (now : Z) (st : Interchange) : outcome :=
  expire_drained_loop now (elements (interesting_managers st)) st.

(** ** Dispatch *)

(** The body of the [while] loop of [process_tasks_to_send] for the manager
    popped from [shuffled_managers]. *)
Definition dispatch_to (now : Z) (manager_id : bytes) (st : Interchange) : outcome :=
  match dict_get manager_id (_ready_managers st) with
  | None => Raise KeyError st
  | Some m =>
      let tasks_inflight := Z.of_nat (length (tasks m)) in
      let real_capacity := max_capacity m - tasks_inflight in
      if negb (real_capacity =? 0) && active m && negb (draining m) then
        let '(batch, q) := get_tasks real_capacity (pending_task_queue st) in
        let st1 := set_pending_task_queue q st in
        match batch with
        | [] => Ok (_send_monitoring_info now m st1)
        | _ :: _ =>
            let st2 := set_manager_sock
                         (manager_sock st1 ++ [(manager_id, pickle_dumps (py_tasks batch))])
                         st1 in
            let task_count := Z.of_nat (length batch) in
            let st3 := set_count (count st2 + task_count) st2 in
            let tids := map task_id batch in
            let m' := with_idle_since None (with_tasks (tasks m ++ tids) m) in
            let st4 := set_ready_managers
                         (dict_set manager_id m' (_ready_managers st3)) st3 in
            let real_capacity' := real_capacity - task_count in
            if 0 <? real_capacity' then Ok (_send_monitoring_info now m' st4)
            else if decide (manager_id ∈ interesting_managers st4) then
              Ok (_send_monitoring_info now m'
                    (set_interesting_managers
                       (interesting_managers st4 ∖ {[manager_id]}) st4))
            else Raise KeyError st4
        end
      else if decide (manager_id ∈ interesting_managers st) then
        Ok (set_interesting_managers (interesting_managers st ∖ {[manager_id]}) st)
      else Raise KeyError st
  end.

(** [while shuffled_managers and self.pending_task_queue]; [stack] is
    [shuffled_managers] with the next manager to pop first. *)
Fixpoint dispatch_loop (now : Z) (stack : list bytes) (st : Interchange) : outcome :=
  match stack with
  | [] => Ok st
  | manager_id :: rest =>
      match pending_task_queue st with
      | [] => Ok st
      | _ :: _ => do st' <- dispatch_to now manager_id st; dispatch_loop now rest st'
      end
  end.

Definition process_tasks_to_send (now : Z) (st : Interchange) : outcome :=
  if negb (bool_decide (interesting_managers st = ∅))
     && negb (bool_decide (pending_task_queue st = []))
  then
    let shuffled_managers :=
      manager_selector st (_ready_managers st) (interesting_managers st) in
    dispatch_loop now (rev shuffled_managers) st
  else Ok st.

(** ** The loop *)

(** What one [poll] makes readable, and the clock. *)
Record poll_result := {
  now : Z;
  command_req : option string;
  task_msg : option task;
  manager_msg : option manager_message;
}.

(** The six steps, as what the loop can do next. *)
Inductive loop_step :=
| do_command (now : Z) (command_req : option string)
| do_task_incoming (msg : option task)
| do_manager_message (now : Z) (msg : option manager_message)
| do_expire_bad (now : Z)
| do_expire_drained (now : Z)
| do_tasks_to_send (now : Z).

Definition run_step (s : loop_step) (st : Interchange) : outcome :=
  match s with
  | do_command now req => process_command now req st
  | do_task_incoming msg => Ok (process_task_incoming msg st)
  | do_manager_message now msg => process_manager_socket_message now msg st
  | do_expire_bad now => Ok (expire_bad_managers now st)
  | do_expire_drained now => expire_drained_managers now st
  | do_tasks_to_send now => process_tasks_to_send now st
  end.

Fixpoint run_steps (l : list loop_step) (st : Interchange) : outcome :=
  match l with
  | [] => Ok st
  | s :: r => do st' <- run_step s st; run_steps r st'
  end.

(** The body of [while not kill_event.is_set()]. *)
Definition iteration (socks : poll_result) (st : Interchange) : outcome :=
  do st1 <- process_command (now socks) (command_req socks) st;
  let st2 := process_task_incoming (task_msg socks) st1 in
  do st3 <- process_manager_socket_message (now socks) (manager_msg socks) st2;
  let st4 := expire_bad_managers (now socks) st3 in
  do st5 <- expire_drained_managers (now socks) st4;
  process_tasks_to_send (now socks) st5.

Definition steps_of (socks : poll_result) : list loop_step :=
  [do_command (now socks) (command_req socks);
   do_task_incoming (task_msg socks);
   do_manager_message (now socks) (manager_msg socks);
   do_expire_bad (now socks);
   do_expire_drained (now socks);
   do_tasks_to_send (now socks)].

(** [start]: the loop over what successive polls give, until the kill event
    is set or the polls given are used up. *)
Fixpoint start (polls : list poll_result) (st : Interchange) : outcome :=
  match polls with
  | [] => Ok st
  | socks :: rest =>
      if kill_event st then Ok st
      else do st' <- iteration socks st; start rest st'
  end.

(** [process_task_incoming] for each of [msgs] in turn. *)
Definition enqueue_all (msgs : list task) (st : Interchange) : Interchange :=
  foldl (λ st msg, process_task_incoming (Some msg) st) st msgs.

(** The queue entries of tasks that arrive in turn from counter [c] on. *)
Fixpoint entries_from (c : Z) (msgs : list task) : list queue_entry :=
  match msgs with
  | [] => []
  | msg :: r => (neg (priority_of msg), - c, msg) :: entries_from (c + 1) r
  end.

(** ** Probing the addresses of the interchange ([probe.py])

    [probe_addresses(addresses, port, timeout)].  The sockets are not
    modelled: [addr_map] keeps its keys, and what the clock and the monitor
    sockets give is an input, one element per test of the [while] loop: the
    time the test reads and, for the pass over [addr_map] that follows when
    the test holds, whether [recv_monitor_message] finds a connection event
    for an address. *)

(** [addr_map]: one entry per address, at the place of its first
    occurrence. *)
Definition addr_map (addresses : list string) : dict unit :=
  foldl (λ d addr, dict_set addr () d) [] addresses.

(** Python's truth value of [first_connected]: None and the empty string are
    false. *)
Definition truthy (first_connected : option string) : bool :=
  match first_connected with
  | Some (String _ _) => true
  | _ => false
  end.

(** One pass [for addr in addr_map]: the first address with an event is
    taken and ends the pass. *)
Definition probe_pass (keys : list string) (ready : string → bool)
    (first_connected : option string) : option string :=
  match List.find ready keys with
  | Some addr => Some addr
  | None => first_connected
  end.

(** [while time.time() < start_t + timeout and not first_connected]; the
    result is [None] when the tests given are used up before the loop
    ends. *)
Fixpoint probe_loop (deadline : Z) (keys : list string)
    (polls : list (Z * (string → bool))) (first_connected : option string)
  : option (option string) :=
  match polls with
  | [] => None
  | (t, ready) :: rest =>
      if (t <? deadline) && negb (truthy first_connected) then
        probe_loop deadline keys rest (probe_pass keys ready first_connected)
      else Some first_connected
  end.

Definition probe_addresses (addresses : list string) (timeout start_t : Z)
    (polls : list (Z * (string → bool))) : option (option string) :=
  probe_loop (start_t + timeout) (dict_keys (addr_map addresses)) polls None.

(** ** What the specification says, in its words *)

(** [a] is popped from the queue [q] before [b]. *)
Definition dispatched_before (q : list queue_entry) (a b : queue_entry) : Prop :=
  ∃ i j : nat, (i < j)%nat ∧ pop_order q !! i = Some a ∧ pop_order q !! j = Some b.

(** The priority and the arrival counter a queue entry was made from. *)
Definition entry_priority (a : queue_entry) : number := priority_of (entry_task a).
Definition entry_arrival (a : queue_entry) : Z := - a.1.2.

(** The ordering contract as the specification has it: the greater priority
    first, the earlier arrival first among equal priorities. *)
Definition spec_ordering_contract (q : list queue_entry) : Prop :=
  ∀ a b, a ∈ q → b ∈ q → a ≠ b →
    (dispatched_before q a b ↔
     number_lt (entry_priority b) (entry_priority a)
     ∨ (entry_priority a = entry_priority b ∧ entry_arrival a < entry_arrival b)).

(** The ordering of the code: the smaller priority number first. *)
Definition code_ordering_contract (q : list queue_entry) : Prop :=
  ∀ a b, a ∈ q → b ∈ q → a ≠ b →
    (dispatched_before q a b ↔
     number_lt (entry_priority a) (entry_priority b)
     ∨ (entry_priority a = entry_priority b ∧ entry_arrival a < entry_arrival b)).


(** The invariants of the registry. *)
Definition capacity_safe (st : Interchange) : Prop :=
  ∀ manager_id m, dict_get manager_id (_ready_managers st) = Some m →
    Z.of_nat (length (tasks m)) ≤ max_capacity m.

Definition idle_bookkeeping (st : Interchange) : Prop :=
  ∀ manager_id m, dict_get manager_id (_ready_managers st) = Some m →
    (idle_since m = None ↔ tasks m ≠ []).

Definition interesting_registered (st : Interchange) : Prop :=
  ∀ manager_id, manager_id ∈ interesting_managers st →
    is_Some (dict_get manager_id (_ready_managers st)).

(** Every record of the registry satisfies [P], and every interesting manager
    is registered. *)
Definition registry_inv (P : ManagerRecord → Prop)
    (reg : dict ManagerRecord) (ids : gset bytes) : Prop :=
  (∀ k m, dict_get k reg = Some m → P m)
  ∧ (∀ k, k ∈ ids → is_Some (dict_get k reg)).

Definition state_inv (P : ManagerRecord → Prop) (st : Interchange) : Prop :=
  registry_inv P (_ready_managers st) (interesting_managers st).

(** The registration a step receives, if it receives one, satisfies [ok]. *)
Definition registrations_satisfy (ok : registration_meta → Prop) (s : loop_step)
  : Prop :=
  match s with
  | do_manager_message _ (Some (parts _ meta _)) =>
      ∀ r, registration meta = Some r → ok r
  | _ => True
  end.

(** The task ids a registration carries: those of its ['tasks'] key, none
    when it has no such key. *)
Definition registered_tasks (r : registration_meta) : list Z :=
  default [] (meta_tasks (meta_record r)).

(** A registration declares a capacity that is not less than the number of
    task ids it carries: for a message without a ['tasks'] key, a capacity
    that is not negative. *)
Definition capacity_declared (s : loop_step) : Prop :=
  registrations_satisfy
    (λ r, Z.of_nat (length (registered_tasks r)) ≤ meta_max_capacity r) s.

(** A registration carries a null ['idle_since'] exactly when it carries
    task ids: a message with neither key does. *)
Definition idle_declared (s : loop_step) : Prop :=
  registrations_satisfy
    (λ r, meta_idle_since (meta_record r) = Some None ↔ registered_tasks r ≠ []) s.

(** Capacity safety as the specification has it, whatever the loop
    receives. *)
Definition spec_capacity_safety : Prop :=
  ∀ port threshold selector python_v parsl_v rid radio steps st,
    run_steps steps (initial port threshold selector python_v parsl_v rid radio)
    = Ok st →
    capacity_safe st
    ∧ (∀ now st', process_tasks_to_send now st = Ok st' → capacity_safe st').

(** Idle bookkeeping as the specification has it, whatever the loop
    receives. *)
Definition spec_idle_bookkeeping : Prop :=
  ∀ port threshold selector python_v parsl_v rid radio steps st,
    run_steps steps (initial port threshold selector python_v parsl_v rid radio)
    = Ok st →
    idle_bookkeeping st.

(** The selector gives the interesting managers, each once, in some order. *)
Definition selector_permutes (st : Interchange) : Prop :=
  ∀ reg ids, manager_selector st reg ids ≡ₚ elements ids.

(** ** Predicates used in the proofs *)

Definition entry_lt (a b : queue_entry) : Prop := key_lt (key a) (key b).

(** The queue of a state: ascending by key, every entry made by
    [process_task_incoming] from a task and an arrival counter already
    used. *)
Definition queue_wf (q : list queue_entry) (counter : Z) : Prop :=
  StronglySorted entry_lt q
  ∧ Forall (λ e, e.1.1 = neg (priority_of e.2) ∧ - counter < e.1.2) q.

(** The queue and the arrival counter are the same in both states. *)
Definition same_queue (st st' : Interchange) : Prop :=
  pending_task_queue st' = pending_task_queue st
  ∧ task_counter st' = task_counter st.

(** The kill event is the same in both states. *)
Definition same_kill (st st' : Interchange) : Prop :=
  kill_event st' = kill_event st.

Definition within_capacity (m : ManagerRecord) : Prop :=
  Z.of_nat (length (tasks m)) ≤ max_capacity m.

Definition idle_iff_no_tasks (m : ManagerRecord) : Prop :=
  idle_since m = None ↔ tasks m ≠ [].

(** ** Examples *)

(** The selector that gives the interesting managers in the order of
    [elements]. *)
Definition example_selector : dict ManagerRecord → gset bytes → list bytes :=
  λ _ ids, elements ids.

Definition example_state : Interchange :=
  initial 54000 120 example_selector "3.12.1" "2024.11.25" "run-0" true.

Definition example_task (tid : Z) (priority : option Z) : task :=
  {| task_id := tid; buffer := "";
     resource_spec :=
       match priority with
       | Some p => Some {| rs_priority := Some (Num p) |}
       | None => None
       end |}.

Definition example_registration (capacity : Z) : meta_t :=
  {| mtype := "registration";
     registration :=
       Some {| meta_python_v := "3.12.7"; meta_parsl_v := "2024.11.25";
               meta_start_time := 0; meta_block_id := Some "block-0"%string;
               meta_worker_count := 2; meta_max_capacity := capacity;
               meta_hostname := "node-1"; meta_packages := [];
               meta_record := no_record_keys |} |}.

(** The example state after the manager ["M"] registered at time 0 with
    capacity 3. *)
Definition example_registered : Interchange :=
  outcome_state
    (run_steps [do_manager_message 0 (Some (parts "M" (example_registration 3) []))]
       example_state).


(** A registration that declares the capacity 1 and carries three task ids. *)
Definition example_overfull : meta_t :=
  {| mtype := "registration";
     registration :=
       Some {| meta_python_v := "3.12.7"; meta_parsl_v := "2024.11.25";
               meta_start_time := 0; meta_block_id := Some "block-0"%string;
               meta_worker_count := 2; meta_max_capacity := 1;
               meta_hostname := "node-1"; meta_packages := [];
               meta_record :=
                 {| meta_tasks := Some [7; 8; 9]; meta_active := None;
                    meta_draining := None; meta_last_heartbeat := None;
                    meta_idle_since := None; meta_parsl_version := None;
                    meta_python_version := None |} |} |}.

(** A registration that carries a null ['idle_since'] and no task id. *)
Definition example_never_idle : meta_t :=
  {| mtype := "registration";
     registration :=
       Some {| meta_python_v := "3.12.7"; meta_parsl_v := "2024.11.25";
               meta_start_time := 0; meta_block_id := Some "block-0"%string;
               meta_worker_count := 2; meta_max_capacity := 3;
               meta_hostname := "node-1"; meta_packages := [];
               meta_record :=
                 {| meta_tasks := None; meta_active := None;
                    meta_draining := None; meta_last_heartbeat := None;
                    meta_idle_since := Some None; meta_parsl_version := None;
                    meta_python_version := None |} |} |}.

Definition example_heartbeat : meta_t :=
  {| mtype := "heartbeat"; registration := None |}.

(** A manager of capacity 1 registers, two tasks arrive and the loop
    dispatches. *)
Definition example_steps : list loop_step :=
  [do_manager_message 0 (Some (parts "M" (example_registration 1) []));
   do_task_incoming (Some (example_task 1 (Some 0)));
   do_task_incoming (Some (example_task 2 (Some 0)));
   do_tasks_to_send 1].

Definition example_dispatched : Interchange :=
  outcome_state (run_steps example_steps example_state).


(** ** What a step can and cannot change *)

(** What [__init__] fixes: the port bound for the workers, the heartbeat
    threshold, the selector, the versions of the platform, the run id and
    whether there is a monitoring radio. *)
Definition config_of (st : Interchange) :=
  (worker_port st, heartbeat_threshold st, manager_selector st,
   platform_python_v st, platform_parsl_v st, run_id st, monitoring_radio st).

(** The queue, the count of tasks received and the count of tasks sent. *)
Definition accounting_of (st : Interchange) :=
  (pending_task_queue st, task_counter st, count st).


(** The block id the step appends to the history: that of the registration
    it accepts, if it accepts one. *)
Definition accepted_block (s : loop_step) (st : Interchange) : list string :=
  match s with
  | do_manager_message _ (Some (parts _ meta _)) =>
      if String.eqb (mtype meta) "registration" then
        match registration meta with
        | Some r =>
            if version_mismatch r st then []
            else match meta_block_id r with
                 | Some b => [b]
                 | None => []
                 end
        | None => []
        end
      else []
  | _ => []
  end.

(** The requests [process_command] knows by name. *)
Definition named_commands : list string :=
  ["CONNECTED_BLOCKS"; "WORKERS"; "MANAGERS"; "MANAGERS_PACKAGES"; "WORKER_BINDS"]%string.

(** A manager whose identity is the single byte 0xFF, which is not UTF-8. *)
Definition example_raw_id : bytes := String (ascii_of_nat 255) EmptyString.

Definition example_raw_registered : Interchange :=
  outcome_state
    (run_steps
       [do_manager_message 0 (Some (parts example_raw_id (example_registration 3) []))]
       example_state).

(** The tasks of the batches in a list of sends on the manager socket, in
    the order sent. *)
Definition sent_tasks (sends : list (bytes * pickled)) : list task :=
  flat_map (λ p, match p.2 with
                 | pickle_dumps (py_tasks ts) => ts
                 | pickle_dumps (py_int _) => []
                 end) sends.

(** The record [m'] is [m] after dispatches: the same flags and capacity, and
    no fewer outstanding tasks. *)
Definition grown (m m' : ManagerRecord) : Prop :=
  active m' = active m ∧ draining m' = draining m
  ∧ max_capacity m' = max_capacity m
  ∧ (length (tasks m) ≤ length (tasks m'))%nat.

(** A send of the dispatch step from the state [st]: a batch that is not
    empty and fits the free capacity of a manager that is registered, active
    and not draining in [st]. *)
Definition batch_for_ready_manager (st : Interchange) (p : bytes * pickled) : Prop :=
  ∃ m batch,
    dict_get p.1 (_ready_managers st) = Some m
    ∧ active m = true ∧ draining m = false
    ∧ p.2 = pickle_dumps (py_tasks batch)
    ∧ batch ≠ []
    ∧ Z.of_nat (length batch) ≤ max_capacity m - Z.of_nat (length (tasks m)).

(** [m['draining'] and len(m['tasks']) == 0], for the manager [k] of the
    registry [reg]. *)
Definition is_drained (reg : dict ManagerRecord) (k : bytes) : bool :=
  match dict_get k reg with
  | Some m => draining m && (length (tasks m) =? 0)%nat
  | None => false
  end.

(** The interesting managers that are draining and have no task left, in the
    order [list(interesting_managers)] gives them. *)
Definition drained_managers (st : Interchange) : list bytes :=
  List.filter (is_drained (_ready_managers st)) (elements (interesting_managers st)).

(** The NODE_INFO sent for a manager that is retired, if there is a radio. *)
Definition retired_info (now : Z) (st : Interchange) (k : bytes)
  : list monitoring_message :=
  match dict_get k (_ready_managers st) with
  | Some m =>
      if monitoring_radio st then [NODE_INFO (with_active false m) now (run_id st)]
      else []
  | None => []
  end.

(** The registry holds each manager id once. *)
Definition keys_unique (st : Interchange) : Prop :=
  NoDup (dict_keys (_ready_managers st)).

(** The record of the manager ["M"] in [example_registered]. *)
Definition example_record : ManagerRecord :=
  new_record 0
    {| meta_python_v := "3.12.7"; meta_parsl_v := "2024.11.25";
       meta_start_time := 0; meta_block_id := Some "block-0"%string;
       meta_worker_count := 2; meta_max_capacity := 3;
       meta_hostname := "node-1"; meta_packages := [];
       meta_record := no_record_keys |}.

(** [example_registered] with two tasks pending. *)
Definition example_pending : Interchange :=
  outcome_state
    (run_steps [do_task_incoming (Some (example_task 1 (Some 0)));
                do_task_incoming (Some (example_task 2 (Some 0)))]
       example_registered).

(** [example_registered] after the manager asked to be drained. *)
Definition example_draining : Interchange :=
  outcome_state
    (run_steps [do_manager_message 1
                  (Some (parts "M" {| mtype := "drain"; registration := None |} []))]
       example_registered).

(** An interchange without monitoring, whose manager ["M"] holds the tasks 1
    and 2. *)
Definition example_quiet : Interchange :=
  outcome_state
    (run_steps [do_manager_message 0 (Some (parts "M" (example_registration 3) []));
                do_task_incoming (Some (example_task 1 (Some 0)));
                do_task_incoming (Some (example_task 2 (Some 0)));
                do_tasks_to_send 1]
       (initial 54000 120 example_selector "3.12.1" "2024.11.25" "run-0" false)).

Definition example_result : meta_t := {| mtype := "result"; registration := None |}.

(** * Properties *)

(** ** The order on keys *)

Lemma number_eqb_eq x y : number_eqb x y = true ↔ x = y.
Proof.
  destruct x, y; simpl; split; try congruence; try done.
  - intros H. apply Z.eqb_eq in H. by subst.
  - intros [= ->]. apply Z.eqb_refl.
Qed.

Lemma number_ltb_neg x y : number_ltb (neg x) (neg y) = number_ltb y x.
Proof.
  destruct x, y; simpl; try done.
  destruct (Z.ltb_spec (- z) (- z0)), (Z.ltb_spec z0 z); try done; lia.
Qed.

Lemma neg_inj x y : neg x = neg y → x = y.
Proof. destruct x, y; simpl; try done. intros [= H]. f_equal. lia. Qed.

Lemma number_ltb_irrefl x : number_ltb x x = false.
Proof. destruct x; simpl; try done. apply Z.ltb_irrefl. Qed.

Lemma number_ltb_trans x y z :
  number_ltb x y = true → number_ltb y z = true → number_ltb x z = true.
Proof.
  destruct x, y, z; simpl; try done.
  rewrite !Z.ltb_lt. lia.
Qed.

Lemma number_ltb_total x y : number_ltb x y = true ∨ x = y ∨ number_ltb y x = true.
Proof.
  destruct x, y; simpl; auto.
  destruct (Z.lt_trichotomy z z0) as [H|[H|H]].
  - left. by apply Z.ltb_lt.
  - right; left. by subst.
  - right; right. by apply Z.ltb_lt.
Qed.

(** The key order, unfolded. *)
Lemma key_ltb_spec k1 k2 :
  key_ltb k1 k2 = true ↔
  number_ltb k1.1 k2.1 = true ∨ (k1.1 = k2.1 ∧ k1.2 < k2.2).
Proof.
  unfold key_ltb. destruct (number_eqb k1.1 k2.1) eqn:E.
  - apply number_eqb_eq in E. rewrite E, number_ltb_irrefl, Z.ltb_lt.
    split; [auto | intros [?|[_ ?]]; done].
  - split; [auto | intros [?|[H _]]; [done|]].
    apply number_eqb_eq in H. congruence.
Qed.

Lemma key_ltb_irrefl k : key_ltb k k = false.
Proof.
  destruct (key_ltb k k) eqn:E; [|done].
  apply key_ltb_spec in E as [E|[_ E]]; [|lia].
  by rewrite number_ltb_irrefl in E.
Qed.

Lemma key_ltb_trans k1 k2 k3 :
  key_ltb k1 k2 = true → key_ltb k2 k3 = true → key_ltb k1 k3 = true.
Proof.
  rewrite !key_ltb_spec. intros [H1|[H1 H1']] [H2|[H2 H2']].
  - left. eauto using number_ltb_trans.
  - left. by rewrite <- H2.
  - left. by rewrite H1.
  - right. split; [congruence | lia].
Qed.

Lemma key_ltb_asym k1 k2 : key_ltb k1 k2 = true → key_ltb k2 k1 = false.
Proof.
  intros H. destruct (key_ltb k2 k1) eqn:E; [|done].
  pose proof (key_ltb_trans _ _ _ H E) as H'. by rewrite key_ltb_irrefl in H'.
Qed.

(** ** The sorted list *)

Lemma sl_pop_snoc l x : sl_pop (l ++ [x]) = Some (x, l).
Proof.
  induction l as [|y l IH]; simpl; [done|]. by rewrite IH.
Qed.

Lemma sl_pop_rev l :
  sl_pop l = match rev l with [] => None | x :: r => Some (x, rev r) end.
Proof.
  destruct (rev l) as [|x r] eqn:E.
  - apply (f_equal (@rev _)) in E. rewrite rev_involutive in E. by subst.
  - apply (f_equal (@rev _)) in E. rewrite rev_involutive in E. simpl in E.
    subst. apply sl_pop_snoc.
Qed.

Lemma pop_order_fuel_rev n q :
  (length q ≤ n)%nat → pop_order_fuel n q = rev q.
Proof.
  revert q. induction n as [|n IH]; intros q Hn.
  - destruct q; simpl in *; [done | lia].
  - simpl. rewrite sl_pop_rev. destruct (rev q) as [|x r] eqn:E; [done|].
    rewrite IH, rev_involutive; [done|].
    apply (f_equal (@length _)) in E. rewrite length_rev in E. simpl in E.
    rewrite length_rev. lia.
Qed.

(** Successive pops return the queue from its greatest end. *)
Lemma pop_order_rev q : pop_order q = rev q.
Proof. by apply pop_order_fuel_rev. Qed.

Lemma get_tasks_loop_spec n q acc :
  get_tasks_loop n q acc =
  (acc ++ map entry_task (take n (rev q)), rev (drop n (rev q))).
Proof.
  revert q acc. induction n as [|n IH]; intros q acc; simpl.
  - by rewrite app_nil_r, drop_0, rev_involutive.
  - rewrite sl_pop_rev. destruct (rev q) as [|x r] eqn:E; simpl.
    + apply (f_equal (@rev _)) in E. rewrite rev_involutive in E. subst.
      by rewrite app_nil_r.
    + rewrite IH, rev_involutive, <- app_assoc. done.
Qed.

(** [get_tasks] returns the first [count] tasks of the pop order and leaves
    the rest in the queue. *)
Lemma get_tasks_spec count q :
  get_tasks count q =
  (map entry_task (take (Z.to_nat count) (pop_order q)),
   rev (drop (Z.to_nat count) (pop_order q))).
Proof. unfold get_tasks. by rewrite get_tasks_loop_spec, pop_order_rev. Qed.

Lemma get_tasks_length count q :
  (length (get_tasks count q).1 ≤ Z.to_nat count)%nat.
Proof.
  rewrite get_tasks_spec. simpl. rewrite length_map, length_take. lia.
Qed.

(** ** The pending task queue is sorted, with one key per task *)

Lemma sl_add_elem_of e q x : x ∈ sl_add e q ↔ x = e ∨ x ∈ q.
Proof.
  induction q as [|y q IH]; simpl.
  - rewrite elem_of_cons. done.
  - destruct (key_ltb (key e) (key y)).
    + by rewrite elem_of_cons.
    + rewrite !elem_of_cons, IH. tauto.
Qed.

Lemma sl_add_front e x r :
  key_ltb (key e) (key x) = true → sl_add e (x :: r) = e :: x :: r.
Proof. intros H. simpl. by rewrite H. Qed.

Lemma entry_total a b : key a ≠ key b → entry_lt a b ∨ entry_lt b a.
Proof.
  intros Hne. unfold entry_lt, key_lt. rewrite !key_ltb_spec.
  destruct (key a) as [pa ia], (key b) as [pb ib]; simpl.
  destruct (number_ltb_total pa pb) as [H|[H|H]]; auto.
  subst. destruct (Z.lt_trichotomy ia ib) as [H|[H|H]]; auto.
  by subst.
Qed.

Lemma sl_add_sorted e q :
  StronglySorted entry_lt q → Forall (λ x, key x ≠ key e) q →
  StronglySorted entry_lt (sl_add e q).
Proof.
  induction 1 as [|y q Hq IH Hy]; intros Hne; simpl.
  - repeat constructor.
  - apply Forall_cons in Hne as [Hye Hne].
    destruct (key_ltb (key e) (key y)) eqn:E.
    + constructor; [by constructor|]. constructor; [done|].
      eapply Forall_impl; [exact Hy|]. intros z Hz. unfold entry_lt, key_lt in *.
      eauto using key_ltb_trans.
    + constructor; [auto|]. apply Forall_forall. intros z Hz.
      apply sl_add_elem_of in Hz as [->|Hz].
      * destruct (entry_total y e) as [?|H]; [done..|].
        unfold entry_lt, key_lt in H. congruence.
      * by eapply Forall_forall in Hy.
Qed.

Lemma queue_wf_add q counter msg :
  queue_wf q counter →
  queue_wf (sl_add (neg (priority_of msg), - counter, msg) q) (counter + 1).
Proof.
  intros [Hs Hf]. split.
  - apply sl_add_sorted; [done|]. eapply Forall_impl; [exact Hf|].
    intros [[p i] t] [_ Hi]. unfold key. simpl in *. intros [= _ ?]. lia.
  - apply Forall_forall. intros x Hx. apply sl_add_elem_of in Hx as [->|Hx].
    + simpl. split; [done | lia].
    + eapply Forall_forall in Hf as [? ?]; [|done]. split; [done | lia].
Qed.

Lemma pop_rest_prefix n (q : list queue_entry) :
  rev (drop n (pop_order q)) = take (length q - n) q.
Proof. by rewrite pop_order_rev, skipn_rev, rev_involutive. Qed.

Lemma queue_wf_get_tasks count q counter :
  queue_wf q counter → queue_wf (get_tasks count q).2 counter.
Proof.
  intros [Hs Hf]. rewrite get_tasks_spec. simpl. rewrite pop_rest_prefix.
  rewrite <- (take_drop (length q - Z.to_nat count) q) in Hs, Hf.
  split.
  - by apply StronglySorted_app_1_l in Hs.
  - by apply Forall_app in Hf as [? _].
Qed.

Lemma dispatched_before_split q a b :
  dispatched_before q a b ↔ ∃ l1 l2 l3, q = l1 ++ b :: l2 ++ a :: l3.
Proof.
  unfold dispatched_before. rewrite pop_order_rev. split.
  - intros (i & j & Hij & Hi & Hj).
    apply list_elem_of_split_length in Hj as (k1 & k2 & Hq & Hlen).
    rewrite Hq in Hi. rewrite lookup_app_l in Hi by lia.
    apply list_elem_of_split_length in Hi as (k3 & k4 & -> & _).
    exists (rev k2), (rev k4), (rev k3).
    apply (f_equal (@rev _)) in Hq. rewrite rev_involutive in Hq.
    rewrite Hq. repeat (rewrite ?rev_app_distr; simpl; rewrite <- ?app_assoc).
    done.
  - intros (l1 & l2 & l3 & ->).
    exists (length (rev l3)), (length (rev l3) + S (length (rev l2)))%nat.
    split; [lia|].
    repeat (rewrite ?rev_app_distr; simpl; rewrite <- ?app_assoc). split.
    + by apply list_lookup_middle.
    + rewrite lookup_app_r by lia.
      replace (length (rev l3) + S (length (rev l2)) - length (rev l3))%nat
        with (S (length (rev l2))) by lia.
      simpl. by apply list_lookup_middle.
Qed.

(** In a sorted queue the entry with the greater key is popped first. *)
Lemma dispatched_before_key q a b :
  StronglySorted entry_lt q → a ∈ q → b ∈ q → a ≠ b →
  (dispatched_before q a b ↔ entry_lt b a).
Proof.
  intros Hs Ha Hb Hne. rewrite dispatched_before_split. split.
  - intros (l1 & l2 & l3 & ->).
    apply StronglySorted_app_1_r in Hs. apply StronglySorted_cons in Hs as [Hf _].
    eapply Forall_forall in Hf; [done|].
    apply elem_of_app. right. by apply list_elem_of_here.
  - intros Hlt. apply list_elem_of_split in Ha as (l1 & l2 & ->).
    apply elem_of_app in Hb as [Hb|Hb].
    + apply list_elem_of_split in Hb as (l3 & l4 & ->).
      exists l3, l4, l2. by rewrite <- app_assoc.
    + apply elem_of_cons in Hb as [->|Hb]; [done|].
      apply StronglySorted_app_1_r in Hs. apply StronglySorted_cons in Hs as [Hf _].
      eapply Forall_forall in Hf; [|done].
      unfold entry_lt, key_lt in *. apply key_ltb_asym in Hlt. congruence.
Qed.

Lemma queue_wf_ordering q counter : queue_wf q counter → code_ordering_contract q.
Proof.
  intros [Hs Hf] a b Ha Hb Hne. rewrite dispatched_before_key by done.
  pose proof (proj1 (Forall_forall _ _) Hf a Ha) as [Hpa _].
  pose proof (proj1 (Forall_forall _ _) Hf b Hb) as [Hpb _].
  unfold entry_lt, key_lt, entry_priority, entry_arrival, entry_task, number_lt.
  rewrite key_ltb_spec. unfold key. simpl. rewrite Hpa, Hpb, number_ltb_neg.
  split.
  - intros [?|[H ?]]; [by left|]. right. apply neg_inj in H. split; [done | lia].
  - intros [?|[H ?]]; [by left|]. right. split; [by rewrite H | lia].
Qed.

(** ** What each step leaves alone *)

Lemma send_monitoring_info_fields now m st :
  let st' := _send_monitoring_info now m st in
  pending_task_queue st' = pending_task_queue st
  ∧ task_counter st' = task_counter st
  ∧ kill_event st' = kill_event st
  ∧ _ready_managers st' = _ready_managers st
  ∧ interesting_managers st' = interesting_managers st
  ∧ results_outgoing st' = results_outgoing st
  ∧ manager_sock st' = manager_sock st
  ∧ connected_block_history st' = connected_block_history st
  ∧ monitoring_radio st' = monitoring_radio st
  ∧ heartbeat_threshold st' = heartbeat_threshold st.
Proof.
  unfold _send_monitoring_info. destruct (monitoring_radio st) eqn:E; simpl; [|done].
  by rewrite E.
Qed.

Ltac monitoring_fields :=
  repeat match goal with
  | |- context [_send_monitoring_info ?now ?m ?st] =>
      let H := fresh "Hmon" in
      let x := fresh "st" in
      pose proof (send_monitoring_info_fields now m st) as H;
      cbv zeta in H;
      set (x := _send_monitoring_info now m st) in *;
      destruct H as (? & ? & ? & ? & ? & ? & ? & ? & ? & ?);
      clearbody x
  end.

Lemma result_loop_frame manager_id m msgs b st oe m1 b1 st1 :
  result_loop manager_id m msgs b st = (oe, m1, b1, st1) →
  same_queue st st1 ∧ same_kill st st1
  ∧ interesting_managers st1 = interesting_managers st
  ∧ results_outgoing st1 = results_outgoing st
  ∧ monitoring_radio st1 = monitoring_radio st.
Proof.
  unfold same_queue, same_kill.
  revert m b st. induction msgs as [|[p r] msgs IH]; intros m b st; simpl.
  - by intros [= <- <- <- <-].
  - destruct r as [[tid|payload|r_type]|].
    + destruct (list_remove tid (tasks m)); intros H; by apply IH in H.
    + destruct (monitoring_radio st) eqn:E.
      * intros H. apply IH in H. simpl in H. rewrite E in H. exact H.
      * by intros [= <- <- <- <-].
    + apply IH.
    + by intros [= <- <- <- <-].
Qed.

Lemma process_command_frame now req st :
  let st' := outcome_state (process_command now req st) in
  same_queue st st' ∧ same_kill st st'
  ∧ interesting_managers st' = interesting_managers st.
Proof.
  unfold same_queue, same_kill, process_command. destruct req as [req|]; [|done].
  unfold command_reply.
  repeat (case_match; simplify_eq; simpl; monitoring_fields; try done).
  all: simpl in *; split_and!; congruence.
Qed.

Lemma process_task_incoming_frame msg st :
  let st' := process_task_incoming msg st in
  same_kill st st'
  ∧ _ready_managers st' = _ready_managers st
  ∧ interesting_managers st' = interesting_managers st.
Proof. by destruct msg. Qed.

Lemma process_manager_socket_message_frame now msg st :
  same_queue st (outcome_state (process_manager_socket_message now msg st)).
Proof.
  unfold same_queue, process_manager_socket_message, register, handle_result.
  repeat (case_match; simplify_eq; simpl; monitoring_fields; try done).
  all: match goal with
       | H : result_loop _ _ _ _ _ = _ |- _ =>
           apply result_loop_frame in H as ([? ?] & _)
       | _ => idtac
       end; simpl in *; split; congruence.
Qed.

Lemma expire_bad_manager_frame now manager_id m st :
  let st' := expire_bad_manager now manager_id m st in
  same_queue st st' ∧ same_kill st st'
  ∧ heartbeat_threshold st' = heartbeat_threshold st.
Proof.
  unfold same_queue, same_kill, expire_bad_manager.
  repeat (case_match; simplify_eq; simpl; monitoring_fields; try done).
  all: simpl in *; split_and!; congruence.
Qed.

Lemma expire_bad_loop_frame now bad st :
  let st' := expire_bad_loop now bad st in
  same_queue st st' ∧ same_kill st st'.
Proof.
  revert st. induction bad as [|[manager_id m] bad IH]; intros st; simpl; [done|].
  destruct (IH (expire_bad_manager now manager_id m st)) as ([? ?] & ?).
  destruct (expire_bad_manager_frame now manager_id m st) as ([? ?] & ? & _).
  unfold same_queue, same_kill in *. split_and!; congruence.
Qed.

Lemma expire_drained_loop_frame now ids st :
  let st' := outcome_state (expire_drained_loop now ids st) in
  same_queue st st' ∧ same_kill st st'.
Proof.
  revert st. induction ids as [|manager_id ids IH]; intros st; simpl; [done|].
  destruct (dict_get manager_id (_ready_managers st)) as [m|]; [|done].
  destruct (draining m && (length (tasks m) =? 0)%nat); [|apply IH].
  match goal with |- context [expire_drained_loop now ids ?s] =>
    destruct (IH s) as ([? ?] & ?); revert H H0 H1 end.
  monitoring_fields. unfold same_queue, same_kill in *. simpl in *.
  intros. split_and!; congruence.
Qed.

Lemma dispatch_to_frame now manager_id st :
  let st' := outcome_state (dispatch_to now manager_id st) in
  task_counter st' = task_counter st ∧ same_kill st st'
  ∧ ∀ counter, queue_wf (pending_task_queue st) counter →
               queue_wf (pending_task_queue st') counter.
Proof.
  unfold same_kill, dispatch_to.
  destruct (dict_get manager_id (_ready_managers st)) as [m|]; [|done].
  set (cap := max_capacity m - Z.of_nat (length (tasks m))).
  pose proof (queue_wf_get_tasks cap (pending_task_queue st)) as Hq.
  destruct (get_tasks cap (pending_task_queue st)) as [batch q]. simpl in Hq.
  repeat (case_match; simplify_eq; simpl; monitoring_fields; try done).
  all: simpl in *; split_and!; try congruence; intros c Hc;
    repeat match goal with H : pending_task_queue _ = _ |- _ => rewrite H end;
    auto.
Qed.

Lemma dispatch_loop_frame now stack st :
  let st' := outcome_state (dispatch_loop now stack st) in
  task_counter st' = task_counter st ∧ same_kill st st'
  ∧ ∀ counter, queue_wf (pending_task_queue st) counter →
               queue_wf (pending_task_queue st') counter.
Proof.
  revert st. induction stack as [|manager_id stack IH]; intros st; simpl; [done|].
  destruct (pending_task_queue st) eqn:E; simpl; [by rewrite ?E|].
  pose proof (dispatch_to_frame now manager_id st) as (H1 & H2 & H3).
  destruct (dispatch_to now manager_id st) as [st1|e st1]; simpl in *.
  - destruct (IH st1) as (H4 & H5 & H6). unfold same_kill in *.
    split_and!; try congruence. intros c Hc. apply H6, H3. by rewrite E.
  - split_and!; try done. intros c Hc. apply H3. by rewrite E.
Qed.

(** Every step keeps the queue sorted, with the keys of the tasks in it. *)
Lemma run_step_queue_wf s st :
  queue_wf (pending_task_queue st) (task_counter st) →
  let st' := outcome_state (run_step s st) in
  queue_wf (pending_task_queue st') (task_counter st').
Proof.
  intros Hwf. destruct s as [now req|msg|now msg|now|now|now]; simpl.
  - destruct (process_command_frame now req st) as ([-> ->] & _). done.
  - destruct msg as [msg|]; simpl; [|done]. by apply queue_wf_add.
  - destruct (process_manager_socket_message_frame now msg st) as [-> ->]. done.
  - destruct (expire_bad_loop_frame now (bad_managers now st) st) as ([H1 H2] & _).
    unfold expire_bad_managers. by rewrite H1, H2.
  - destruct (expire_drained_loop_frame now (elements (interesting_managers st)) st)
      as ([H1 H2] & _).
    unfold expire_drained_managers. by rewrite H1, H2.
  - unfold process_tasks_to_send. case_match; [|done].
    match goal with |- context [dispatch_loop now ?l st] =>
      destruct (dispatch_loop_frame now l st) as (H1 & _ & H3) end.
    rewrite H1. by apply H3.
Qed.

Lemma run_steps_queue_wf l st st' :
  queue_wf (pending_task_queue st) (task_counter st) →
  run_steps l st = Ok st' →
  queue_wf (pending_task_queue st') (task_counter st').
Proof.
  revert st. induction l as [|s l IH]; intros st Hwf; simpl.
  - by intros [= <-].
  - pose proof (run_step_queue_wf s st Hwf) as H.
    destruct (run_step s st) as [st1|e st1]; simpl in *; [|done].
    by apply IH.
Qed.

Lemma run_steps_outcome_queue_wf l st :
  queue_wf (pending_task_queue st) (task_counter st) →
  let st' := outcome_state (run_steps l st) in
  queue_wf (pending_task_queue st') (task_counter st').
Proof.
  revert st. induction l as [|s l IH]; intros st Hwf; simpl; [done|].
  pose proof (run_step_queue_wf s st Hwf) as H.
  destruct (run_step s st) as [st1|e st1]; simpl in *; [|done].
  by apply IH.
Qed.

Lemma initial_queue_wf port threshold selector python_v parsl_v rid radio :
  let st := initial port threshold selector python_v parsl_v rid radio in
  queue_wf (pending_task_queue st) (task_counter st).
Proof. split; constructor. Qed.

(** C1 (as the code has it): in every state the loop reaches, whatever the
    steps taken, of two tasks in the pending queue the one with the smaller
    priority number is popped first, and among equal priorities the one that
    arrived first; [get_tasks] returns the tasks in that pop order. *)
Theorem lower_priority_number_dispatched_first
    port threshold selector python_v parsl_v rid radio steps :
  let st := outcome_state
              (run_steps steps
                 (initial port threshold selector python_v parsl_v rid radio)) in
  code_ordering_contract (pending_task_queue st)
  ∧ ∀ count,
      (get_tasks count (pending_task_queue st)).1
      = map entry_task (take (Z.to_nat count) (pop_order (pending_task_queue st))).
Proof.
  intros st. split.
  - eapply queue_wf_ordering, run_steps_outcome_queue_wf, initial_queue_wf.
  - intros count. by rewrite get_tasks_spec.
Qed.

(** C1, counterexample: a task of priority 5 is enqueued, then a task of
    priority 1; the specification's contract would have the first one popped
    first, and [get_tasks(1)] returns the second. *)
Lemma spec_ordering_contract_fails :
  let q := pending_task_queue
             (outcome_state
                (run_steps [do_task_incoming (Some (example_task 1 (Some 5)));
                            do_task_incoming (Some (example_task 2 (Some 1)))]
                   example_state)) in
  (get_tasks 1 q).1 = [example_task 2 (Some 1)] ∧ ¬ spec_ordering_contract q.
Proof.
  split; [reflexivity|]. intros Hspec.
  set (a := (Num (-5), 0, example_task 1 (Some 5)) : queue_entry).
  set (b := (Num (-1), -1, example_task 2 (Some 1)) : queue_entry).
  assert (Hq : pending_task_queue
             (outcome_state
                (run_steps [do_task_incoming (Some (example_task 1 (Some 5)));
                            do_task_incoming (Some (example_task 2 (Some 1)))]
                   example_state)) = [a; b]) by reflexivity.
  rewrite Hq in Hspec.
  destruct (Hspec a b) as [_ Hback].
  - apply list_elem_of_here.
  - apply list_elem_of_further, list_elem_of_here.
  - discriminate.
  - destruct Hback as (i & j & Hij & Hi & Hj); [by left|].
    destruct i as [|[|i]], j as [|[|j]]; simpl in *; try lia; discriminate.
Qed.

(** ** Tasks of one priority *)

Lemma entries_from_tasks c msgs : map entry_task (entries_from c msgs) = msgs.
Proof.
  revert c. induction msgs as [|msg msgs IH]; intros c; simpl; [done|].
  by rewrite IH.
Qed.

Lemma enqueue_all_cons msg msgs st :
  enqueue_all (msg :: msgs) st
  = enqueue_all msgs (process_task_incoming (Some msg) st).
Proof. done. Qed.

Lemma enqueue_all_fields msgs st :
  let st' := enqueue_all msgs st in
  _ready_managers st' = _ready_managers st
  ∧ interesting_managers st' = interesting_managers st
  ∧ manager_selector st' = manager_selector st
  ∧ manager_sock st' = manager_sock st
  ∧ task_counter st' = task_counter st + Z.of_nat (length msgs).
Proof.
  cbv zeta. revert st. induction msgs as [|msg msgs IH]; intros st.
  - simpl. split_and!; try done. lia.
  - rewrite enqueue_all_cons.
    destruct (IH (process_task_incoming (Some msg) st)) as (-> & -> & -> & -> & ->).
    simpl. split_and!; try done. lia.
Qed.

(** A task that arrives with the priority of all the tasks in the queue goes
    to the front of the list, that is, will be popped last. *)
Lemma enqueue_all_same_priority p msgs st es :
  (∀ msg, msg ∈ msgs → priority_of msg = p) →
  pending_task_queue st = rev es →
  Forall (λ e : queue_entry, e.1.1 = neg p ∧ - task_counter st < e.1.2) es →
  pending_task_queue (enqueue_all msgs st)
  = rev (es ++ entries_from (task_counter st) msgs).
Proof.
  revert st es. induction msgs as [|msg msgs IH]; intros st es Hp Hq Hes.
  - simpl. by rewrite app_nil_r.
  - assert (Hmsg : priority_of msg = p) by apply Hp, list_elem_of_here.
    rewrite enqueue_all_cons.
    rewrite (IH _ (es ++ [(neg p, - task_counter st, msg)])).
    + simpl. rewrite <- app_assoc. simpl. by rewrite Hmsg.
    + intros m Hm. by apply Hp, list_elem_of_further.
    + change (pending_task_queue (process_task_incoming (Some msg) st))
        with (sl_add (neg (priority_of msg), - task_counter st, msg)
                (pending_task_queue st)).
      rewrite Hq, Hmsg, rev_app_distr.
      change (rev [(neg p, - task_counter st, msg)] ++ rev es)
        with ((neg p, - task_counter st, msg) :: rev es).
      destruct (rev es) as [|x r] eqn:E; [done|].
      assert (Hx : x ∈ es).
      { apply list_elem_of_In, in_rev. rewrite E. by left. }
      eapply Forall_forall in Hes as [Hx1 Hx2]; [|exact Hx].
      apply sl_add_front, key_ltb_spec. right. unfold key. simpl.
      split; [done | lia].
    + simpl. apply Forall_app. split.
      * eapply Forall_impl; [exact Hes|]. simpl. intros e [? ?]. split; [done | lia].
      * constructor; [|constructor]. simpl. split; [done | lia].
Qed.

Lemma get_tasks_all count (q : list queue_entry) :
  Z.of_nat (length q) ≤ count →
  get_tasks count q = (map entry_task (rev q), []).
Proof.
  intros Hc. rewrite get_tasks_spec, pop_order_rev.
  rewrite take_ge, drop_ge by (rewrite length_rev; lia). done.
Qed.

(** C6: tasks that all have one priority are enqueued on an empty queue; a
    single interesting manager, active and not draining, has room for all of
    them.  Then [get_tasks] gives them in the order they arrived, and the
    dispatch step sends that manager one batch with the tasks in that
    order. *)
Theorem equal_priority_dispatch_is_fifo now st0 msgs manager_id m p :
  pending_task_queue st0 = [] →
  (∀ msg, msg ∈ msgs → priority_of msg = p) →
  msgs ≠ [] →
  interesting_managers st0 = {[manager_id]} →
  dict_get manager_id (_ready_managers st0) = Some m →
  selector_permutes st0 →
  active m = true →
  draining m = false →
  Z.of_nat (length msgs) ≤ max_capacity m - Z.of_nat (length (tasks m)) →
  let st := enqueue_all msgs st0 in
  (∀ count, Z.of_nat (length msgs) ≤ count →
            (get_tasks count (pending_task_queue st)).1 = msgs)
  ∧ ∃ st', process_tasks_to_send now st = Ok st'
           ∧ manager_sock st'
             = manager_sock st0 ++ [(manager_id, pickle_dumps (py_tasks msgs))]
           ∧ pending_task_queue st' = [].
Proof.
  intros Hq0 Hp Hne Hint Hm Hsel Hact Hdr Hcap st.
  assert (Hq : pending_task_queue st = rev (entries_from (task_counter st0) msgs)).
  { unfold st. by rewrite (enqueue_all_same_priority p msgs st0 []). }
  assert (Hlen : length (pending_task_queue st) = length msgs).
  { rewrite Hq, length_rev.
    rewrite <- (entries_from_tasks (task_counter st0) msgs) at 2.
    by rewrite length_map. }
  assert (Hall : ∀ count, Z.of_nat (length msgs) ≤ count →
                 get_tasks count (pending_task_queue st) = (msgs, [])).
  { intros count Hc. rewrite get_tasks_all by lia.
    by rewrite Hq, rev_involutive, entries_from_tasks. }
  split; [intros count Hc; by rewrite Hall|].
  destruct (enqueue_all_fields msgs st0) as (Hreg & Hi & Hs & Hsock & _).
  fold st in Hreg, Hi, Hs, Hsock.
  unfold process_tasks_to_send. rewrite Hi, Hint, Hs, Hreg.
  assert (manager_selector st0 (_ready_managers st0) {[manager_id]} = [manager_id])
    as ->.
  { apply Permutation_singleton_r. rewrite (Hsel _ _). by rewrite elements_singleton. }
  destruct (pending_task_queue st) as [|e q] eqn:Eq.
  { destruct msgs; [done | simpl in Hlen; lia]. }
  rewrite !bool_decide_eq_false_2; [|done|].
  2:{ intros H. apply (f_equal elements) in H.
      by rewrite elements_singleton, elements_empty in H. }
  simpl. rewrite Eq. unfold dispatch_to. rewrite Hreg, Hm, Hact, Hdr, Eq.
  assert (((max_capacity m - Z.of_nat (length (tasks m))) =? 0) = false) as ->.
  { apply Z.eqb_neq. destruct msgs; [done | simpl in Hcap; lia]. }
  rewrite (Hall _ Hcap). simpl.
  destruct msgs as [|msg msgs]; [done|].
  destruct (0 <? _); simpl.
  - eexists. split; [done|]. monitoring_fields. simpl in *. split; congruence.
  - rewrite Hi, Hint. rewrite decide_True by (by apply elem_of_singleton).
    simpl. eexists. split; [done|]. monitoring_fields. simpl in *.
    split; congruence.
Qed.

(** ** Dicts *)

Section DictFacts.
Context {V : Type}.
Implicit Types (d : dict V) (k : bytes) (v : V).

Lemma dict_get_set_eq k v d : dict_get k (dict_set k v d) = Some v.
Proof.
  induction d as [|[k' v'] d IH]; simpl.
  - by rewrite String.eqb_refl.
  - destruct (String.eqb k k') eqn:E; simpl; [by rewrite String.eqb_refl|].
    by rewrite E.
Qed.

Lemma dict_get_set_ne k k' v d :
  k' ≠ k → dict_get k' (dict_set k v d) = dict_get k' d.
Proof.
  intros Hne. induction d as [|[k0 v0] d IH]; simpl.
  - by apply String.eqb_neq in Hne as ->.
  - destruct (String.eqb k k0) eqn:E; simpl.
    + apply String.eqb_eq in E as <-. by apply String.eqb_neq in Hne as ->.
    + by rewrite IH.
Qed.

Lemma dict_get_set k k' v d :
  dict_get k' (dict_set k v d) = if decide (k' = k) then Some v else dict_get k' d.
Proof.
  case_decide as H; [subst; apply dict_get_set_eq | by apply dict_get_set_ne].
Qed.

Lemma dict_get_pop_eq k d : dict_get k (dict_pop k d) = None.
Proof.
  induction d as [|[k' v'] d IH]; simpl; [done|].
  destruct (String.eqb k k') eqn:E; simpl; [done|]. by rewrite E.
Qed.

Lemma dict_get_pop_ne k k' d :
  k' ≠ k → dict_get k' (dict_pop k d) = dict_get k' d.
Proof.
  intros Hne. induction d as [|[k0 v0] d IH]; simpl; [done|].
  destruct (String.eqb k k0) eqn:E; simpl.
  - apply String.eqb_eq in E as <-. by apply String.eqb_neq in Hne as ->.
  - by rewrite IH.
Qed.

Lemma dict_get_pop k k' d :
  dict_get k' (dict_pop k d) = if decide (k' = k) then None else dict_get k' d.
Proof.
  case_decide as H; [subst; apply dict_get_pop_eq | by apply dict_get_pop_ne].
Qed.

(** Assigning to a present key changes no key and no position. *)
Lemma dict_keys_set_present k v d :
  is_Some (dict_get k d) → dict_keys (dict_set k v d) = dict_keys d.
Proof.
  induction d as [|[k' v'] d IH]; simpl; [by intros [? ?]|].
  destruct (String.eqb k k') eqn:E; simpl.
  - apply String.eqb_eq in E as ->. done.
  - intros H. by rewrite IH.
Qed.

Lemma dict_get_elem_of k v d : dict_get k d = Some v → (k, v) ∈ d.
Proof.
  induction d as [|[k' v'] d IH]; simpl; [done|].
  destruct (String.eqb k k') eqn:E.
  - apply String.eqb_eq in E as ->. intros [= ->]. apply list_elem_of_here.
  - intros H. by apply list_elem_of_further, IH.
Qed.

Lemma dict_elem_of_get k v d : (k, v) ∈ d → is_Some (dict_get k d).
Proof.
  induction d as [|[k' v'] d IH]; simpl.
  - by intros ?%elem_of_nil.
  - intros [[= <- <-]|H]%elem_of_cons; [by rewrite String.eqb_refl|].
    destruct (String.eqb k k'); [done | auto].
Qed.
End DictFacts.

(** ** Version strings *)

Lemma rsplit_dot_no_dot a b :
  rsplit_dot b = None → rsplit_dot (a ++ String "." b) = Some a.
Proof.
  intros Hb. induction a as [|c a IH]; simpl.
  - by rewrite Hb.
  - by rewrite IH.
Qed.

(** [rsplit1_head] drops the component after the last dot. *)
Lemma rsplit1_head_last_component a b :
  rsplit_dot b = None → rsplit1_head (a ++ String "." b) = a.
Proof. intros Hb. unfold rsplit1_head. by rewrite rsplit_dot_no_dot. Qed.

(** ** The loop stops once the kill event is set *)



(** ** Registration and heartbeats *)


(** C8: a heartbeat of a registered manager sets the [last_heartbeat] of its
    record to the current time and sends that manager the one frame
    [PKL_HEARTBEAT_CODE], the pickle of [2^32 - 1]; the other fields of the
    record, the other records, the keys of the registry and the rest of the
    state are as before. *)
Theorem heartbeat_updates_and_replies now manager_id meta msgs st m :
  mtype meta = "heartbeat"%string →
  dict_get manager_id (_ready_managers st) = Some m →
  let m' := with_last_heartbeat now m in
  let registry := dict_set manager_id m' (_ready_managers st) in
  process_manager_socket_message now (Some (parts manager_id meta msgs)) st
  = Ok (set_manager_sock (manager_sock st ++ [(manager_id, PKL_HEARTBEAT_CODE)])
          (set_ready_managers registry st))
  ∧ PKL_HEARTBEAT_CODE = pickle_dumps (py_int 4294967295)
  ∧ last_heartbeat m' = now
  ∧ m' = {| block_id := block_id m; start_time := start_time m; tasks := tasks m;
            worker_count := worker_count m; max_capacity := max_capacity m;
            active := active m; draining := draining m; last_heartbeat := now;
            idle_since := idle_since m; parsl_version := parsl_version m;
            python_version := python_version m; hostname := hostname m;
            packages := packages m |}
  ∧ dict_get manager_id registry = Some m'
  ∧ (∀ other, other ≠ manager_id →
              dict_get other registry = dict_get other (_ready_managers st))
  ∧ dict_keys registry = dict_keys (_ready_managers st).
Proof.
  intros Hty Hm m' registry. unfold process_manager_socket_message.
  rewrite Hty, Hm. simpl. split_and!; try done.
  - apply dict_get_set_eq.
  - intros other Hne. by apply dict_get_set_ne.
  - apply dict_keys_set_present. by rewrite Hm.
Qed.


(** ** Managers that missed their heartbeats *)

Lemma expire_bad_manager_spec now manager_id m st :
  let st' := expire_bad_manager now manager_id m st in
  results_outgoing st' = results_outgoing st ++ lost_reports manager_id m
  ∧ (∀ k, dict_get k (_ready_managers st')
          = if decide (k = manager_id) then None
            else dict_get k (_ready_managers st))
  ∧ (∀ k, k ∈ interesting_managers st'
          ↔ k ∈ interesting_managers st ∧ k ≠ manager_id).
Proof.
  unfold expire_bad_manager.
  destruct (active m); monitoring_fields; simpl in *.
  all: case_decide as Hin; simpl.
  all: split_and!; try congruence.
  all: try (intros k; repeat match goal with H : _ = _ |- _ => rewrite H end;
            simpl; rewrite dict_get_pop; case_decide; [done|];
            by rewrite ?dict_get_set_ne).
  all: intros k; repeat match goal with H : _ = _ |- _ => rewrite H in * end;
    simpl in *; rewrite ?elem_of_difference, ?elem_of_singleton; try tauto.
  all: split; [intros Hk; split; [done | by intros ->] | tauto].
Qed.

Lemma expire_bad_loop_spec now bad st :
  let st' := expire_bad_loop now bad st in
  results_outgoing st'
  = results_outgoing st ++ flat_map (λ p, lost_reports p.1 p.2) bad
  ∧ (∀ k, k ∈ map fst bad → dict_get k (_ready_managers st') = None)
  ∧ (∀ k, k ∉ map fst bad →
          dict_get k (_ready_managers st') = dict_get k (_ready_managers st))
  ∧ (∀ k, k ∈ interesting_managers st'
          ↔ k ∈ interesting_managers st ∧ k ∉ map fst bad).
Proof.
  cbv zeta. revert st. induction bad as [|[manager_id m] bad IH]; intros st; simpl.
  - rewrite app_nil_r. split_and!; [done| | |].
    + by intros k ?%elem_of_nil.
    + done.
    + intros k. split; [intros ?; split; [done | apply not_elem_of_nil] | by intros [? _]].
  - destruct (IH (expire_bad_manager now manager_id m st)) as (H1 & H2 & H2' & H3).
    destruct (expire_bad_manager_spec now manager_id m st) as (G1 & G2 & G3).
    split_and!.
    + by rewrite H1, G1, <- app_assoc.
    + intros k Hk. destruct (decide (k ∈ map fst bad)) as [Hin|Hin]; [by apply H2|].
      rewrite H2', G2 by done. apply elem_of_cons in Hk as [->|Hk]; [|done].
      by rewrite decide_True.
    + intros k Hk. rewrite not_elem_of_cons in Hk. destruct Hk as [Hne Hk].
      rewrite H2', G2 by done. by rewrite decide_False.
    + intros k. rewrite H3, G3, elem_of_cons. tauto.
Qed.

Lemma elem_of_bad_managers now st manager_id m :
  (manager_id, m) ∈ bad_managers now st
  ↔ (manager_id, m) ∈ _ready_managers st
    ∧ heartbeat_threshold st < now - last_heartbeat m.
Proof.
  unfold bad_managers. rewrite !list_elem_of_In, filter_In, <- list_elem_of_In.
  unfold is_bad. simpl. by rewrite Z.ltb_lt.
Qed.

(** C5: at the expiry step, the managers whose last heartbeat is older than
    the threshold are taken in the order of the registry; for each of them the
    client is sent one failure result per task id in its [tasks], in their
    order, with that task id and [ManagerLost(manager_id, hostname)]; in the
    state after the step none of them is in the registry or in the
    interesting set, and the other managers are where they were. *)
Theorem lost_managers_fail_their_tasks now st :
  let st' := expire_bad_managers now st in
  results_outgoing st'
  = results_outgoing st
    ++ flat_map
         (λ p, map (λ tid, send {| rp_task_id := tid;
                                   rp_exception := ManagerLost p.1 (hostname p.2) |})
                   (tasks p.2))
         (bad_managers now st)
  ∧ (∀ manager_id m,
       (manager_id, m) ∈ _ready_managers st →
       heartbeat_threshold st < now - last_heartbeat m →
       (manager_id, m) ∈ bad_managers now st
       ∧ dict_get manager_id (_ready_managers st') = None
       ∧ manager_id ∉ interesting_managers st')
  ∧ (∀ manager_id,
       manager_id ∉ map fst (bad_managers now st) →
       dict_get manager_id (_ready_managers st')
       = dict_get manager_id (_ready_managers st)
       ∧ (manager_id ∈ interesting_managers st'
          ↔ manager_id ∈ interesting_managers st)).
Proof.
  intros st'. unfold st', expire_bad_managers.
  destruct (expire_bad_loop_spec now (bad_managers now st) st)
    as (H1 & H2 & H2' & H3).
  split_and!.
  - exact H1.
  - intros manager_id m Hin Hold.
    assert (Hbad : (manager_id, m) ∈ bad_managers now st)
      by by apply elem_of_bad_managers.
    assert (Hk : manager_id ∈ map fst (bad_managers now st)).
    { apply list_elem_of_In, in_map_iff. exists (manager_id, m).
      split; [done | by apply list_elem_of_In]. }
    split_and!; [done | |].
    + by apply H2.
    + rewrite H3. tauto.
  - intros manager_id Hk. split.
    + by apply H2'.
    + rewrite H3. tauto.
Qed.

(** ** Commands *)




(** ** How the steps change the registry *)

Lemma list_remove_length tid l l' :
  list_remove tid l = Some l' → length l = S (length l').
Proof.
  revert l'. induction l as [|x l IH]; intros l'; simpl; [done|].
  destruct (x =? tid); [by intros [= ->]|].
  destruct (list_remove tid l) as [r|]; [|done].
  intros [= <-]. simpl. by rewrite (IH r).
Qed.

(** The loop over the results of a manager removes as many task ids from its
    record as it collects frames, and touches no other record. *)
Lemma result_loop_registry manager_id m msgs b st oe m1 b1 st1 :
  dict_get manager_id (_ready_managers st) = Some m →
  result_loop manager_id m msgs b st = (oe, m1, b1, st1) →
  ∃ extra,
    b1 = b ++ extra
    ∧ m1 = with_tasks (tasks m1) m
    ∧ (length (tasks m1) + length extra = length (tasks m))%nat
    ∧ (extra = [] → m1 = m)
    ∧ (∀ k, k ≠ manager_id →
            dict_get k (_ready_managers st1) = dict_get k (_ready_managers st))
    ∧ dict_get manager_id (_ready_managers st1) = Some m1.
Proof.
  revert m b st. induction msgs as [|[p r] msgs IH]; intros m b st Hm; simpl.
  - intros [= <- <- <- <-]. exists []. rewrite app_nil_r.
    split_and!; try done; try (by destruct m). all: simpl; lia.
  - assert (Hstop : ∃ extra, b = b ++ extra ∧ m = with_tasks (tasks m) m
        ∧ (length (tasks m) + length extra = length (tasks m))%nat
        ∧ (extra = [] → m = m)
        ∧ (∀ k, k ≠ manager_id →
             dict_get k (_ready_managers st) = dict_get k (_ready_managers st))
        ∧ dict_get manager_id (_ready_managers st) = Some m).
    { exists []. rewrite app_nil_r. split_and!; try done; try (by destruct m).
      all: simpl; lia. }
    destruct r as [[tid|payload|r_type]|].
    + destruct (list_remove tid (tasks m)) as [ts|] eqn:E; [|by apply IH].
      intros H. apply IH in H as (extra & -> & Hm1 & Hlen & _ & Hother & Hsome).
      2:{ simpl. apply dict_get_set_eq. }
      apply list_remove_length in E. simpl in *.
      exists (p :: extra). split_and!.
      * by rewrite <- app_assoc.
      * by rewrite Hm1.
      * simpl. lia.
      * done.
      * intros k Hk. rewrite Hother by done. by apply dict_get_set_ne.
      * done.
    + destruct (monitoring_radio st).
      * intros H. by apply IH in H.
      * by intros [= <- <- <- <-].
    + by apply IH.
    + by intros [= <- <- <- <-].
Qed.

(** ** Invariants of the registry *)

Section RegistryInvariant.
Variable P : ManagerRecord → Prop.
Variable ok_new : registration_meta → Prop.
Hypothesis P_active : ∀ b m, P m → P (with_active b m).
Hypothesis P_draining : ∀ b m, P m → P (with_draining b m).
Hypothesis P_heartbeat : ∀ t m, P m → P (with_last_heartbeat t m).
Hypothesis P_new : ∀ now r, ok_new r → P (new_record now r).
Hypothesis P_result : ∀ now ts m,
  P m → (length ts < length (tasks m))%nat → P (mark_idle now (with_tasks ts m)).
Hypothesis P_dispatch : ∀ tids m,
  P m → tids ≠ [] →
  Z.of_nat (length tids) ≤ max_capacity m - Z.of_nat (length (tasks m)) →
  P (with_idle_since None (with_tasks (tasks m ++ tids) m)).

Implicit Types (reg : dict ManagerRecord) (ids : gset bytes).

Lemma registry_inv_update reg reg' ids manager_id m' :
  registry_inv P reg ids →
  (∀ k, k ≠ manager_id → dict_get k reg' = dict_get k reg) →
  dict_get manager_id reg' = Some m' →
  P m' →
  registry_inv P reg' ({[manager_id]} ∪ ids).
Proof.
  intros [HP Hin] Hother Hid HPm. split.
  - intros k m Hk. destruct (decide (k = manager_id)) as [->|Hne].
    + congruence.
    + rewrite Hother in Hk by done. eauto.
  - intros k Hk. destruct (decide (k = manager_id)) as [->|Hne].
    + by rewrite Hid.
    + rewrite Hother by done. apply Hin.
      apply elem_of_union in Hk as [Hk|Hk]; [|done].
      by apply elem_of_singleton in Hk.
Qed.

Lemma registry_inv_subseteq reg ids ids' :
  registry_inv P reg ids → (∀ k, k ∈ ids' → k ∈ ids) → registry_inv P reg ids'.
Proof. intros [HP Hin] Hsub. split; [done|]. auto. Qed.

Lemma registry_inv_set reg ids manager_id m' :
  registry_inv P reg ids → P m' →
  registry_inv P (dict_set manager_id m' reg) ids.
Proof.
  intros Hinv HPm.
  eapply registry_inv_subseteq.
  - eapply (registry_inv_update reg _ ids manager_id m'); try done.
    + intros k Hk. by apply dict_get_set_ne.
    + apply dict_get_set_eq.
  - intros k Hk. apply elem_of_union. by right.
Qed.

Lemma registry_inv_pop reg ids manager_id :
  registry_inv P reg ids →
  registry_inv P (dict_pop manager_id reg) (ids ∖ {[manager_id]}).
Proof.
  intros [HP Hin]. split.
  - intros k m. rewrite dict_get_pop. case_decide; [done | eauto].
  - intros k [Hk Hne]%elem_of_difference.
    rewrite dict_get_pop_ne; [auto|]. intros ->. by apply Hne, elem_of_singleton.
Qed.

Lemma registry_inv_remove reg ids manager_id :
  registry_inv P reg ids → registry_inv P reg (ids ∖ {[manager_id]}).
Proof.
  intros H. eapply registry_inv_subseteq; [done|].
  by intros k [? _]%elem_of_difference.
Qed.

Lemma send_monitoring_info_inv now m st :
  state_inv P (_send_monitoring_info now m st) ↔ state_inv P st.
Proof.
  unfold state_inv.
  destruct (send_monitoring_info_fields now m st) as (_ & _ & _ & -> & -> & _).
  done.
Qed.

Lemma process_command_inv now req st st' :
  state_inv P st → process_command now req st = Ok st' → state_inv P st'.
Proof.
  intros Hinv. unfold process_command, command_reply.
  repeat (case_match; simplify_eq; try done); intros [= <-]; try done.
  match goal with
  | |- state_inv P (set_command_channel _ (_send_monitoring_info ?n ?m ?s)) =>
      change (state_inv P (_send_monitoring_info n m s))
  end.
  apply send_monitoring_info_inv. unfold state_inv. simpl.
  apply registry_inv_set; [done|]. apply P_active.
  match goal with H : dict_get _ _ = Some _ |- _ => by eapply Hinv in H end.
Qed.

Ltac registry_fields :=
  unfold state_inv; monitoring_fields; simpl in *;
  repeat match goal with
  | H : _ready_managers _ = _ |- _ => rewrite H in *; clear H
  | H : interesting_managers _ = _ |- _ => rewrite H in *; clear H
  end; simpl in *.

Lemma register_inv now manager_id meta st st' :
  state_inv P st →
  (∀ r, registration meta = Some r → ok_new r) →
  register now manager_id meta st = Ok st' →
  state_inv P st'.
Proof.
  intros Hinv Hok. unfold register.
  destruct (registration meta) as [r|]; [|done].
  destruct (version_mismatch r st).
  - intros [= <-]. by registry_fields.
  - simpl. destruct (meta_block_id r) as [b|]; [|done].
    intros [= <-]. registry_fields.
    eapply registry_inv_update; [exact Hinv | | |].
    + intros k Hk. by apply dict_get_set_ne.
    + apply dict_get_set_eq.
    + by apply P_new, Hok.
Qed.

Lemma handle_result_inv now manager_id m msgs st st' :
  state_inv P st →
  dict_get manager_id (_ready_managers st) = Some m →
  handle_result now manager_id m msgs st = Ok st' →
  state_inv P st'.
Proof.
  intros Hinv Hm. unfold handle_result.
  destruct (result_loop manager_id m msgs [] st) as [[[oe m1] b1] st1] eqn:E.
  pose proof (result_loop_frame _ _ _ _ _ _ _ _ _ E) as (_ & _ & Hint & _).
  apply result_loop_registry in E as (extra & -> & Hm1 & Hlen & Hsame & Hother & Hid);
    [|done].
  destruct oe; [done|]. simpl.
  destruct extra as [|x extra].
  - intros [= <-]. unfold state_inv. rewrite Hint.
    eapply registry_inv_subseteq.
    + eapply registry_inv_update; [exact Hinv | exact Hother | exact Hid |].
      rewrite Hsame by done. by eapply Hinv.
    + intros k Hk. apply elem_of_union. by right.
  - intros [= <-]. registry_fields.
    eapply registry_inv_update; [exact Hinv | | |].
    + intros k Hk. rewrite dict_get_set_ne by done. by apply Hother.
    + apply dict_get_set_eq.
    + rewrite Hm1. apply P_result; [by eapply Hinv|]. simpl in *. lia.
Qed.

Lemma process_manager_socket_message_inv now msg st st' :
  state_inv P st →
  registrations_satisfy ok_new (do_manager_message now msg) →
  process_manager_socket_message now msg st = Ok st' →
  state_inv P st'.
Proof.
  intros Hinv Hok. unfold process_manager_socket_message.
  destruct msg as [[msg_parts|manager_id meta msgs]|]; try by intros [= <-].
  destruct (String.eqb (mtype meta) "registration"); [by apply register_inv|].
  destruct (dict_get manager_id (_ready_managers st)) as [m|] eqn:Hm;
    [|by intros [= <-]].
  destruct (String.eqb (mtype meta) "result"); [by apply handle_result_inv|].
  destruct (String.eqb (mtype meta) "heartbeat").
  { intros [= <-]. unfold state_inv. simpl.
    apply registry_inv_set; [done|]. apply P_heartbeat. by eapply Hinv. }
  destruct (String.eqb (mtype meta) "drain"); [|by intros [= <-]].
  intros [= <-]. unfold state_inv. simpl.
  apply registry_inv_set; [done|]. apply P_draining. by eapply Hinv.
Qed.

Lemma expire_bad_managers_inv now st :
  state_inv P st → state_inv P (expire_bad_managers now st).
Proof.
  intros [HP Hin]. unfold expire_bad_managers.
  destruct (expire_bad_loop_spec now (bad_managers now st) st)
    as (_ & Hgone & Hkept & Hint).
  split.
  - intros k m Hk.
    destruct (decide (k ∈ map fst (bad_managers now st))) as [Hb|Hb].
    + rewrite Hgone in Hk by done. done.
    + rewrite Hkept in Hk by done. eauto.
  - intros k [Hk Hb]%Hint. rewrite Hkept by done. auto.
Qed.

Lemma expire_drained_loop_inv now (l : list bytes) st st' :
  state_inv P st → expire_drained_loop now l st = Ok st' → state_inv P st'.
Proof.
  revert st. induction l as [|manager_id l IH]; intros st Hinv; simpl.
  - by intros [= <-].
  - destruct (dict_get manager_id (_ready_managers st)) as [m|]; [|done].
    destruct (draining m && (length (tasks m) =? 0)%nat); [|by apply IH].
    apply IH. apply send_monitoring_info_inv. unfold state_inv. simpl.
    by apply registry_inv_pop.
Qed.

Lemma dispatch_to_inv now manager_id st st' :
  state_inv P st → dispatch_to now manager_id st = Ok st' → state_inv P st'.
Proof.
  intros Hinv. unfold dispatch_to.
  destruct (dict_get manager_id (_ready_managers st)) as [m|] eqn:Hm; [|done].
  set (cap := max_capacity m - Z.of_nat (length (tasks m))).
  pose proof (get_tasks_length cap (pending_task_queue st)) as Hlen.
  destruct (get_tasks cap (pending_task_queue st)) as [batch q]. simpl in Hlen.
  destruct (negb (cap =? 0) && active m && negb (draining m)).
  - destruct batch as [|t batch].
    + intros [= <-]. by registry_fields.
    + assert (HPm : P (with_idle_since None
                         (with_tasks (tasks m ++ map task_id (t :: batch)) m))).
      { apply P_dispatch; [by eapply Hinv | done |].
        rewrite length_map. fold cap. simpl in *. lia. }
      destruct (0 <? cap - Z.of_nat (length (t :: batch))).
      * intros [= <-]. registry_fields. by apply registry_inv_set.
      * case_decide; [|done]. intros [= <-]. registry_fields.
        by apply registry_inv_remove, registry_inv_set.
  - case_decide; [|done]. intros [= <-]. unfold state_inv. simpl.
    by apply registry_inv_remove.
Qed.

Lemma dispatch_loop_inv now stack st st' :
  state_inv P st → dispatch_loop now stack st = Ok st' → state_inv P st'.
Proof.
  revert st. induction stack as [|manager_id stack IH]; intros st Hinv; simpl.
  - by intros [= <-].
  - destruct (pending_task_queue st); [by intros [= <-]|].
    destruct (dispatch_to now manager_id st) as [st1|e st1] eqn:E; simpl; [|done].
    apply IH. by eapply dispatch_to_inv.
Qed.

(** Every step of the loop keeps the invariant. *)
Lemma run_step_inv s st st' :
  state_inv P st → registrations_satisfy ok_new s →
  run_step s st = Ok st' → state_inv P st'.
Proof.
  intros Hinv Hok. destruct s as [now req|msg|now msg|now|now|now]; simpl.
  - by apply process_command_inv.
  - intros [= <-]. unfold state_inv.
    by destruct (process_task_incoming_frame msg st) as (_ & -> & ->).
  - by apply process_manager_socket_message_inv.
  - intros [= <-]. by apply expire_bad_managers_inv.
  - by apply expire_drained_loop_inv.
  - unfold process_tasks_to_send. case_match; [|by intros [= <-]].
    by apply dispatch_loop_inv.
Qed.

Lemma run_steps_inv l st st' :
  state_inv P st → Forall (registrations_satisfy ok_new) l →
  run_steps l st = Ok st' → state_inv P st'.
Proof.
  revert st. induction l as [|s l IH]; intros st Hinv Hok; simpl.
  - by intros [= <-].
  - apply Forall_cons in Hok as [Hs Hl].
    destruct (run_step s st) as [st1|e st1] eqn:E; simpl; [|done].
    apply IH; [|done]. by eapply run_step_inv.
Qed.
End RegistryInvariant.

(** ** The loop as a sequence of steps *)

Lemma run_steps_app l1 l2 st :
  run_steps (l1 ++ l2) st = (do st' <- run_steps l1 st; run_steps l2 st').
Proof.
  revert st. induction l1 as [|s l1 IH]; intros st; simpl; [done|].
  destruct (run_step s st); simpl; [apply IH | done].
Qed.

Lemma iteration_run_steps socks st :
  iteration socks st = run_steps (steps_of socks) st.
Proof.
  unfold iteration, steps_of. simpl.
  destruct (process_command _ _ st); simpl; [|done].
  destruct (process_manager_socket_message _ _ _); simpl; [|done].
  destruct (expire_drained_managers _ _); simpl; [|done].
  by destruct (process_tasks_to_send _ _).
Qed.

(** A run of the loop is a run of the steps of the iterations it made. *)
Lemma start_run_steps polls st st' :
  start polls st = Ok st' →
  ∃ n, run_steps (concat (map steps_of (take n polls))) st = Ok st'.
Proof.
  revert st. induction polls as [|socks polls IH]; intros st; simpl.
  - intros [= <-]. by exists O.
  - destruct (kill_event st); [intros [= <-]; by exists O|].
    rewrite iteration_run_steps.
    destruct (run_steps (steps_of socks) st) as [st1|e st1] eqn:E; simpl; [|done].
    intros [n Hn]%IH. exists (S n).
    change (take (S n) (socks :: polls)) with (socks :: take n polls).
    change (concat (map steps_of (socks :: take n polls)))
      with (steps_of socks ++ concat (map steps_of (take n polls))).
    by rewrite run_steps_app, E.
Qed.

Lemma initial_state_inv P port threshold selector python_v parsl_v rid radio :
  state_inv P (initial port threshold selector python_v parsl_v rid radio).
Proof. split; [done|]. simpl. by intros k ?%elem_of_empty. Qed.

Lemma mark_idle_tasks now m : tasks (mark_idle now m) = tasks m.
Proof.
  unfold mark_idle. destruct (tasks m) eqn:E, (idle_since m); simpl; congruence.
Qed.

Lemma mark_idle_max_capacity now m : max_capacity (mark_idle now m) = max_capacity m.
Proof. unfold mark_idle. by destruct (tasks m), (idle_since m). Qed.

(** ** Capacity *)

Lemma run_steps_capacity_safe steps st st' :
  state_inv within_capacity st →
  Forall capacity_declared steps →
  run_steps steps st = Ok st' →
  state_inv within_capacity st'.
Proof.
  apply (run_steps_inv within_capacity
           (λ r, Z.of_nat (length (registered_tasks r)) ≤ meta_max_capacity r));
    unfold within_capacity.
  - done.
  - done.
  - done.
  - intros now r Hr. exact Hr.
  - intros now ts m Hm Hlen. rewrite mark_idle_tasks, mark_idle_max_capacity.
    simpl. lia.
  - intros tids m Hm _ Hlen. simpl. rewrite length_app. lia.
Qed.

(** C3: from the start of the interchange, whatever steps the loop takes and
    whatever it receives, as long as every registration declares a capacity
    that is not less than the number of task ids it carries (not negative,
    for one that carries none), after every step, so after every dispatch
    step and after every iteration of the loop, every manager of the
    registry has at most [max_capacity] outstanding task ids. *)
Theorem capacity_never_exceeded
    port threshold selector python_v parsl_v rid radio steps st :
  Forall capacity_declared steps →
  run_steps steps (initial port threshold selector python_v parsl_v rid radio) = Ok st →
  capacity_safe st
  ∧ (∀ now st', process_tasks_to_send now st = Ok st' → capacity_safe st')
  ∧ (∀ polls st',
       Forall capacity_declared (concat (map steps_of polls)) →
       start polls st = Ok st' → capacity_safe st').
Proof.
  intros Hok Hrun.
  assert (Hinv : state_inv within_capacity st).
  { eapply run_steps_capacity_safe; [apply initial_state_inv | done..]. }
  split_and!.
  - exact (proj1 Hinv).
  - intros now st' Hstep.
    refine (proj1 (run_steps_capacity_safe [do_tasks_to_send now] st st' Hinv _ _)).
    + by repeat constructor.
    + simpl. by rewrite Hstep.
  - intros polls st' Hpolls [n Hn]%start_run_steps.
    refine (proj1 (run_steps_capacity_safe _ st st' Hinv _ Hn)).
    rewrite <- (take_drop n polls), map_app, concat_app in Hpolls.
    by apply Forall_app in Hpolls as [? _].
Qed.

(** C3, counterexample: a manager registers with the capacity 1 and a
    ['tasks'] key of three task ids.  [new_rec.update(meta)] puts the three
    in its record, which is in the registry, over its capacity, after the
    registration and after the dispatch step that follows. *)
Lemma spec_capacity_safety_fails :
  let st := outcome_state
              (run_steps
                 [do_manager_message 0 (Some (parts "M" example_overfull []))]
                 example_state) in
  process_tasks_to_send 1 st = Ok st
  ∧ option_map (λ m, (tasks m, max_capacity m)) (dict_get "M" (_ready_managers st))
    = Some ([7; 8; 9], 1)
  ∧ ¬ spec_capacity_safety.
Proof.
  intros st.
  assert (Hdispatch : process_tasks_to_send 1 st = Ok st) by (vm_compute; reflexivity).
  split; [exact Hdispatch|]. split; [vm_compute; reflexivity|]. intros Hspec.
  destruct (Hspec 54000 120 example_selector "3.12.1"%string "2024.11.25"%string
              "run-0"%string true
              [do_manager_message 0 (Some (parts "M" example_overfull []))] st)
    as [_ Hafter]; [vm_compute; reflexivity|].
  destruct (dict_get "M" (_ready_managers st)) as [m|] eqn:Hm; [|vm_compute in Hm; discriminate Hm].
  pose proof (Hafter 1 st Hdispatch "M"%string m Hm) as Hcap.
  vm_compute in Hm. injection Hm as <-. vm_compute in Hcap. by apply Hcap.
Qed.

(** ** Idle bookkeeping *)

Lemma run_steps_idle_bookkeeping steps st st' :
  state_inv idle_iff_no_tasks st →
  Forall idle_declared steps →
  run_steps steps st = Ok st' →
  state_inv idle_iff_no_tasks st'.
Proof.
  apply (run_steps_inv idle_iff_no_tasks
           (λ r, meta_idle_since (meta_record r) = Some None
                 ↔ registered_tasks r ≠ []));
    unfold idle_iff_no_tasks.
  - done.
  - done.
  - done.
  - intros now r Hr. simpl. unfold registered_tasks in Hr. rewrite <- Hr.
    destruct (meta_idle_since (meta_record r)) as [[t|]|]; simpl;
      split; intros Heq; (done || discriminate Heq).
  - intros now ts m Hm Hlen. unfold mark_idle. simpl.
    assert (idle_since m = None) as Hidle.
    { apply Hm. destruct (tasks m); [simpl in Hlen; lia | done]. }
    rewrite Hidle. by destruct ts.
  - intros tids m Hm Hne _. simpl. split; [|done]. intros _.
    destruct tids; [done|]. by destruct (tasks m).
Qed.

(** A result message that empties the task list of its manager sets the
    [idle_since] of the record to the current time. *)
Lemma result_batch_marks_idle now manager_id meta msgs st st' m m' :
  idle_bookkeeping st →
  mtype meta = "result"%string →
  dict_get manager_id (_ready_managers st) = Some m →
  tasks m ≠ [] →
  process_manager_socket_message now (Some (parts manager_id meta msgs)) st = Ok st' →
  dict_get manager_id (_ready_managers st') = Some m' →
  tasks m' = [] →
  idle_since m' = Some now.
Proof.
  intros Hinv Hty Hm Hne. unfold process_manager_socket_message.
  rewrite Hty, Hm. simpl. unfold handle_result.
  destruct (result_loop manager_id m msgs [] st) as [[[oe m1] b1] st1] eqn:E.
  apply result_loop_registry in E as (extra & -> & Hm1 & Hlen & Hsame & Hother & Hid);
    [|done].
  destruct oe; [done|]. simpl. destruct extra as [|x extra].
  - intros [= <-]. rewrite Hid, Hsame by done. intros [= <-]. done.
  - intros [= <-]. monitoring_fields. simpl in *.
    match goal with H : _ready_managers _ = _ |- _ => rewrite H end. simpl.
    rewrite dict_get_set_eq. intros [= <-]. rewrite mark_idle_tasks.
    intros Hts. unfold mark_idle. rewrite Hts.
    assert (idle_since m1 = None) as ->; [|done].
    rewrite Hm1. simpl. by apply (Hinv manager_id m).
Qed.

(** A batch sent to a manager leaves its record with no [idle_since]. *)
Lemma dispatch_clears_idle_since now manager_id st st' :
  dispatch_to now manager_id st = Ok st' →
  manager_sock st' ≠ manager_sock st →
  ∃ m', dict_get manager_id (_ready_managers st') = Some m'
        ∧ idle_since m' = None ∧ tasks m' ≠ [].
Proof.
  unfold dispatch_to.
  destruct (dict_get manager_id (_ready_managers st)) as [m|] eqn:Hm; [|done].
  destruct (get_tasks _ (pending_task_queue st)) as [batch q].
  destruct (negb _ && active m && negb (draining m)).
  - destruct batch as [|t batch].
    + intros [= <-]. monitoring_fields. simpl in *. congruence.
    + destruct (0 <? _).
      * intros [= <-] _. monitoring_fields. simpl in *.
        match goal with H : _ready_managers _ = _ |- _ => rewrite H end. simpl.
        rewrite dict_get_set_eq. eexists. split_and!; [done..|].
        simpl. by destruct (tasks m).
      * case_decide; [|done]. intros [= <-] _. monitoring_fields. simpl in *.
        match goal with H : _ready_managers _ = _ |- _ => rewrite H end. simpl.
        rewrite dict_get_set_eq. eexists. split_and!; [done..|].
        simpl. by destruct (tasks m).
  - case_decide; [|done]. by intros [= <-].
Qed.

(** C4: from the start of the interchange, as long as every registration
    carries a null ['idle_since'] exactly when it carries task ids (one with
    neither key does), after every step of the loop that completes, every
    record of the registry has a null [idle_since] exactly when its task
    list is not empty; a result message that empties the task list of its
    manager sets [idle_since] to the current time, and a batch dispatched to
    a manager leaves its [idle_since] null. *)
Theorem idle_since_null_iff_busy
    port threshold selector python_v parsl_v rid radio steps st :
  Forall idle_declared steps →
  run_steps steps (initial port threshold selector python_v parsl_v rid radio) = Ok st →
  idle_bookkeeping st
  ∧ (∀ s st', idle_declared s → run_step s st = Ok st' → idle_bookkeeping st')
  ∧ (∀ now manager_id meta msgs st' m m',
       mtype meta = "result"%string →
       dict_get manager_id (_ready_managers st) = Some m →
       tasks m ≠ [] →
       process_manager_socket_message now (Some (parts manager_id meta msgs)) st
       = Ok st' →
       dict_get manager_id (_ready_managers st') = Some m' →
       tasks m' = [] →
       idle_since m' = Some now)
  ∧ (∀ now manager_id st',
       dispatch_to now manager_id st = Ok st' →
       manager_sock st' ≠ manager_sock st →
       ∃ m', dict_get manager_id (_ready_managers st') = Some m'
             ∧ idle_since m' = None ∧ tasks m' ≠ []).
Proof.
  intros Hok Hrun.
  assert (Hinv : state_inv idle_iff_no_tasks st).
  { eapply run_steps_idle_bookkeeping; [apply initial_state_inv | done..]. }
  split_and!.
  - exact (proj1 Hinv).
  - intros s st' Hs Hstep.
    refine (proj1 (run_steps_idle_bookkeeping [s] st st' Hinv _ _)).
    + by repeat constructor.
    + simpl. by rewrite Hstep.
  - intros now manager_id meta msgs st' m m'.
    apply result_batch_marks_idle. exact (proj1 Hinv).
  - intros now manager_id st'. apply dispatch_clears_idle_since.
Qed.

(** C4, counterexample: a manager registers with a null ['idle_since'] and
    no task.  [new_rec.update(meta)] overwrites the [idle_since] that
    [ManagerRecord(...)] set, and the record is in the registry with no task
    and a null [idle_since]. *)
Lemma spec_idle_bookkeeping_fails :
  let st := outcome_state
              (run_steps
                 [do_manager_message 0 (Some (parts "M" example_never_idle []))]
                 example_state) in
  option_map (λ m, (tasks m, idle_since m)) (dict_get "M" (_ready_managers st))
  = Some ([], None)
  ∧ ¬ spec_idle_bookkeeping.
Proof.
  intros st. split; [vm_compute; reflexivity|]. intros Hspec.
  assert (Hidle : idle_bookkeeping st).
  { apply (Hspec 54000 120 example_selector "3.12.1"%string "2024.11.25"%string
             "run-0"%string true
             [do_manager_message 0 (Some (parts "M" example_never_idle []))] st).
    vm_compute. reflexivity. }
  destruct (dict_get "M" (_ready_managers st)) as [m|] eqn:Hm;
    [|vm_compute in Hm; discriminate Hm].
  pose proof (Hidle "M"%string m Hm) as [Hbusy _].
  vm_compute in Hm. injection Hm as <-. by apply Hbusy.
Qed.

(** ** The interesting set *)

Lemma interesting_registered_state_inv st :
  interesting_registered st ↔ state_inv (λ _, True) st.
Proof. unfold state_inv, registry_inv, interesting_registered. tauto. Qed.

Lemma expire_drained_loop_ok now (l : list bytes) st :
  NoDup l →
  (∀ k, k ∈ l → is_Some (dict_get k (_ready_managers st))) →
  ∃ st', expire_drained_loop now l st = Ok st'.
Proof.
  revert st. induction l as [|manager_id l IH]; intros st Hnd Hl; simpl.
  - by eexists.
  - apply NoDup_cons in Hnd as [Hnotin Hnd].
    destruct (Hl manager_id) as [m Hm]; [apply list_elem_of_here|]. rewrite Hm.
    destruct (draining m && (length (tasks m) =? 0)%nat).
    + apply IH; [done|]. intros k Hk. monitoring_fields. simpl in *.
      match goal with H : _ready_managers _ = _ |- _ => rewrite H end. simpl.
      rewrite dict_get_pop_ne by (by intros ->). by apply Hl, list_elem_of_further.
    + apply IH; [done|]. intros k Hk. by apply Hl, list_elem_of_further.
Qed.

(** C7: a step of the loop that starts with every interesting manager in the
    registry ends with every interesting manager in the registry, and in such
    a state the registry lookups of the drained-expiry step all succeed: the
    step raises no KeyError. *)
Theorem interesting_managers_stay_registered s st :
  interesting_registered st →
  (∀ st', run_step s st = Ok st' → interesting_registered st')
  ∧ (∀ now, ∃ st', expire_drained_managers now st = Ok st').
Proof.
  intros Hinv. split.
  - intros st' Hstep. apply interesting_registered_state_inv.
    apply interesting_registered_state_inv in Hinv.
    refine (run_step_inv (λ _, True) (λ _, True) _ _ _ _ _ _ s st st' Hinv _ Hstep);
      try done.
    by destruct s as [| |? [[]|]| | |].
  - intros now. apply expire_drained_loop_ok; [apply NoDup_elements|].
    intros k Hk. by apply Hinv, elem_of_elements.
Qed.

(** From the start of the interchange, every state the loop reaches has its
    interesting managers in the registry. *)
Corollary reachable_interesting_registered
    port threshold selector python_v parsl_v rid radio steps st :
  run_steps steps (initial port threshold selector python_v parsl_v rid radio) = Ok st →
  interesting_registered st.
Proof.
  intros Hrun. apply interesting_registered_state_inv.
  refine (run_steps_inv (λ _, True) (λ _, True) _ _ _ _ _ _ steps _ st
            (initial_state_inv _ _ _ _ _ _ _ _) _ Hrun); try done.
  apply Forall_forall. intros s _. by destruct s as [| |? [[]|]| | |].
Qed.

(** ** The theorems at work on the examples *)


Lemma capacity_never_exceeded_witness :
  capacity_safe example_dispatched
  ∧ option_map tasks (dict_get "M" (_ready_managers example_dispatched)) = Some [1]
  ∧ length (pending_task_queue example_dispatched) = 1%nat.
Proof.
  split; [|split; vm_compute; reflexivity].
  apply (capacity_never_exceeded 54000 120 example_selector "3.12.1" "2024.11.25"
           "run-0" true example_steps example_dispatched).
  - unfold example_steps. repeat constructor. simpl. intros r [= <-]. simpl. lia.
  - vm_compute. reflexivity.
Defined.

Lemma idle_since_null_iff_busy_witness :
  idle_bookkeeping example_dispatched
  ∧ option_map idle_since (dict_get "M" (_ready_managers example_dispatched))
    = Some None.
Proof.
  split; [|vm_compute; reflexivity].
  apply (idle_since_null_iff_busy 54000 120 example_selector "3.12.1" "2024.11.25"
           "run-0" true example_steps example_dispatched).
  - unfold example_steps.
    repeat (apply List.Forall_cons); try apply List.Forall_nil; try exact I.
    simpl. intros r [= <-]. done.
  - vm_compute. reflexivity.
Defined.

Lemma equal_priority_dispatch_is_fifo_witness :
  let msgs := [example_task 1 (Some 0); example_task 2 (Some 0);
               example_task 3 (Some 0)] in
  ∃ st', process_tasks_to_send 1 (enqueue_all msgs example_registered) = Ok st'
         ∧ manager_sock st' = [("M"%string, pickle_dumps (py_tasks msgs))]
         ∧ pending_task_queue st' = [].
Proof.
  intros msgs.
  destruct (equal_priority_dispatch_is_fifo 1 example_registered msgs "M"
              (new_record 0
                 {| meta_python_v := "3.12.7"; meta_parsl_v := "2024.11.25";
                    meta_start_time := 0; meta_block_id := Some "block-0"%string;
                    meta_worker_count := 2; meta_max_capacity := 3;
                    meta_hostname := "node-1"; meta_packages := [];
                    meta_record := no_record_keys |})
              (Num 0))
    as (_ & st' & Hstep & Hsock & Hq).
  - reflexivity.
  - intros msg Hmsg. unfold msgs in Hmsg.
    repeat (apply elem_of_cons in Hmsg as [->|Hmsg]; [reflexivity|]).
    by apply elem_of_nil in Hmsg.
  - discriminate.
  - vm_compute. reflexivity.
  - reflexivity.
  - intros reg ids. reflexivity.
  - reflexivity.
  - reflexivity.
  - simpl. lia.
  - exists st'. auto.
Defined.

Lemma interesting_managers_stay_registered_witness :
  (∀ st', run_step (do_expire_drained 9) example_registered = Ok st' →
          interesting_registered st')
  ∧ ∃ st', expire_drained_managers 9 example_registered = Ok st'.
Proof.
  destruct (interesting_managers_stay_registered (do_expire_drained 9)
              example_registered) as [Hstep Hok].
  - intros k Hk. apply elem_of_union in Hk as [Hk|Hk].
    + apply elem_of_singleton in Hk as ->. vm_compute. eauto.
    + by apply elem_of_empty in Hk.
  - split; [exact Hstep | apply Hok].
Defined.

Lemma heartbeat_updates_and_replies_witness :
  ∃ st',
    process_manager_socket_message 7 (Some (parts "M" example_heartbeat []))
      example_registered = Ok st'
    ∧ manager_sock st' = [("M"%string, pickle_dumps (py_int 4294967295))]
    ∧ option_map last_heartbeat (dict_get "M" (_ready_managers st')) = Some 7.
Proof.
  destruct (heartbeat_updates_and_replies 7 "M" example_heartbeat []
              example_registered
              (new_record 0
                 {| meta_python_v := "3.12.7"; meta_parsl_v := "2024.11.25";
                    meta_start_time := 0; meta_block_id := Some "block-0"%string;
                    meta_worker_count := 2; meta_max_capacity := 3;
                    meta_hostname := "node-1"; meta_packages := [];
                    meta_record := no_record_keys |}))
    as (Hstep & _).
  - reflexivity.
  - reflexivity.
  - eexists. split; [exact Hstep|]. split; reflexivity.
Defined.



(** * Further properties of the code *)

(** ** What the steps leave alone *)

Lemma send_monitoring_info_sets now m st :
  ∃ l, _send_monitoring_info now m st = set_monitoring_sent l st.
Proof.
  unfold _send_monitoring_info. destruct (monitoring_radio st); [by eexists|].
  exists (monitoring_sent st). by destruct st.
Qed.

Ltac monitoring_only :=
  repeat match goal with
  | |- context [_send_monitoring_info ?n ?m ?s] =>
      let l := fresh "sent" in
      let H := fresh "Hsent" in
      destruct (send_monitoring_info_sets n m s) as [l H]; rewrite H; clear H
  | H0 : context [_send_monitoring_info ?n ?m ?s] |- _ =>
      let l := fresh "sent" in
      let H := fresh "Hsent" in
      destruct (send_monitoring_info_sets n m s) as [l H]; rewrite H in H0; clear H
  end.

Lemma result_loop_untouched manager_id m msgs b st oe m1 b1 st1 :
  result_loop manager_id m msgs b st = (oe, m1, b1, st1) →
  config_of st1 = config_of st
  ∧ accounting_of st1 = accounting_of st
  ∧ connected_block_history st1 = connected_block_history st
  ∧ manager_sock st1 = manager_sock st
  ∧ command_channel st1 = command_channel st.
Proof.
  revert m b st. induction msgs as [|[p r] msgs IH]; intros m b st; simpl.
  - by intros [= <- <- <- <-].
  - destruct r as [[tid|payload|r_type]|].
    + destruct (list_remove tid (tasks m)); intros H; by apply IH in H.
    + destruct (monitoring_radio st) eqn:E.
      * intros H. apply IH in H. exact H.
      * by intros [= <- <- <- <-].
    + apply IH.
    + by intros [= <- <- <- <-].
Qed.

Lemma process_command_untouched now req st :
  let st' := outcome_state (process_command now req st) in
  config_of st' = config_of st
  ∧ accounting_of st' = accounting_of st
  ∧ connected_block_history st' = connected_block_history st
  ∧ manager_sock st' = manager_sock st
  ∧ results_outgoing st' = results_outgoing st.
Proof.
  unfold process_command. destruct req as [req|]; [|done].
  unfold command_reply.
  repeat (case_match; simplify_eq; simpl; try done).
  all: monitoring_only; done.
Qed.

Lemma process_manager_socket_message_untouched now msg st :
  let st' := outcome_state (process_manager_socket_message now msg st) in
  config_of st' = config_of st
  ∧ accounting_of st' = accounting_of st
  ∧ command_channel st' = command_channel st.
Proof.
  unfold process_manager_socket_message, register, handle_result.
  repeat (case_match; simplify_eq; simpl; try done).
  all: monitoring_only; simpl; try done.
  all: match goal with
       | H : result_loop _ _ _ _ _ = _ |- _ =>
           apply result_loop_untouched in H as (? & ? & _ & _ & ?); done
       end.
Qed.

Lemma expire_bad_manager_untouched now manager_id m st :
  let st' := expire_bad_manager now manager_id m st in
  config_of st' = config_of st
  ∧ accounting_of st' = accounting_of st
  ∧ connected_block_history st' = connected_block_history st
  ∧ manager_sock st' = manager_sock st
  ∧ command_channel st' = command_channel st.
Proof.
  unfold expire_bad_manager.
  repeat (case_match; simplify_eq; simpl; try done).
  all: monitoring_only; done.
Qed.

Lemma expire_bad_managers_untouched now st :
  let st' := expire_bad_managers now st in
  config_of st' = config_of st
  ∧ accounting_of st' = accounting_of st
  ∧ connected_block_history st' = connected_block_history st
  ∧ manager_sock st' = manager_sock st
  ∧ command_channel st' = command_channel st.
Proof.
  unfold expire_bad_managers. generalize (bad_managers now st). intros bad.
  cbv zeta. revert st. induction bad as [|[manager_id m] bad IH]; intros st; [done|].
  simpl. destruct (IH (expire_bad_manager now manager_id m st)) as (-> & -> & -> & -> & ->).
  apply expire_bad_manager_untouched.
Qed.

Lemma expire_drained_loop_untouched now (l : list bytes) st :
  let st' := outcome_state (expire_drained_loop now l st) in
  config_of st' = config_of st
  ∧ accounting_of st' = accounting_of st
  ∧ connected_block_history st' = connected_block_history st
  ∧ results_outgoing st' = results_outgoing st
  ∧ command_channel st' = command_channel st.
Proof.
  cbv zeta. revert st. induction l as [|manager_id l IH]; intros st; simpl; [done|].
  destruct (dict_get manager_id (_ready_managers st)) as [m|]; [|done].
  destruct (draining m && (length (tasks m) =? 0)%nat); [|apply IH].
  match goal with |- context [expire_drained_loop now l ?s] =>
    destruct (IH s) as (-> & -> & -> & -> & ->) end.
  by monitoring_only.
Qed.

Lemma dispatch_to_untouched now manager_id st :
  let st' := outcome_state (dispatch_to now manager_id st) in
  config_of st' = config_of st
  ∧ task_counter st' = task_counter st
  ∧ connected_block_history st' = connected_block_history st
  ∧ results_outgoing st' = results_outgoing st
  ∧ command_channel st' = command_channel st.
Proof.
  unfold dispatch_to.
  destruct (dict_get manager_id (_ready_managers st)) as [m|]; [|done].
  destruct (get_tasks _ (pending_task_queue st)) as [batch q].
  repeat (case_match; simplify_eq; simpl; try done).
  all: by monitoring_only.
Qed.

Lemma dispatch_loop_untouched now stack st :
  let st' := outcome_state (dispatch_loop now stack st) in
  config_of st' = config_of st
  ∧ task_counter st' = task_counter st
  ∧ connected_block_history st' = connected_block_history st
  ∧ results_outgoing st' = results_outgoing st
  ∧ command_channel st' = command_channel st.
Proof.
  cbv zeta. revert st. induction stack as [|manager_id stack IH]; intros st; simpl;
    [done|].
  destruct (pending_task_queue st); [done|].
  pose proof (dispatch_to_untouched now manager_id st) as H.
  destruct (dispatch_to now manager_id st) as [st1|e st1]; simpl in *; [|done].
  destruct H as (<- & <- & <- & <- & <-). apply IH.
Qed.

Lemma run_step_config s st :
  config_of (outcome_state (run_step s st)) = config_of st.
Proof.
  destruct s as [now req|msg|now msg|now|now|now]; simpl.
  - apply process_command_untouched.
  - by destruct msg.
  - apply process_manager_socket_message_untouched.
  - apply expire_bad_managers_untouched.
  - apply expire_drained_loop_untouched.
  - unfold process_tasks_to_send. case_match; [|done].
    apply dispatch_loop_untouched.
Qed.

Lemma run_steps_config l st :
  config_of (outcome_state (run_steps l st)) = config_of st.
Proof.
  revert st. induction l as [|s l IH]; intros st; simpl; [done|].
  pose proof (run_step_config s st) as H.
  destruct (run_step s st) as [st1|e st1]; simpl in *; [|done].
  by rewrite IH.
Qed.

(** ** Batches of tasks *)

Lemma get_tasks_lengths count q :
  length (get_tasks count q).1 = Nat.min (Z.to_nat count) (length q)
  ∧ (length (get_tasks count q).1 + length (get_tasks count q).2 = length q)%nat.
Proof.
  rewrite get_tasks_spec, pop_order_rev. simpl.
  rewrite length_map, length_take, !length_rev, length_drop, length_rev. lia.
Qed.

(** X1: [get_tasks(count)] returns exactly [min(count, len(queue))] tasks, the
    ones with the greatest keys, greatest first, and leaves the others in the
    queue in their order: the queue before is the queue after followed by the
    entries popped, last popped first.  A count that is not positive and an
    empty queue give no task and leave the queue as it is. *)
Theorem get_tasks_pops_the_greatest count q :
  let batch := (get_tasks count q).1 in
  let rest := (get_tasks count q).2 in
  let popped := take (Z.to_nat count) (pop_order q) in
  batch = map entry_task popped
  ∧ q = rest ++ rev popped
  ∧ length batch = Nat.min (Z.to_nat count) (length q)
  ∧ (count ≤ 0 → get_tasks count q = ([], q))
  ∧ get_tasks count [] = ([], []).
Proof.
  cbv zeta. split_and!.
  - by rewrite get_tasks_spec.
  - rewrite get_tasks_spec. simpl. rewrite <- rev_app_distr, take_drop.
    by rewrite pop_order_rev, rev_involutive.
  - apply get_tasks_lengths.
  - intros Hc. unfold get_tasks. by replace (Z.to_nat count) with O by lia.
  - unfold get_tasks. by destruct (Z.to_nat count).
Qed.

(** ** The queue over a run *)

(** X2: from the start of the interchange, in every state the loop reaches
    (also one in which a step raised), the pending queue is strictly
    ascending by key, so no two entries have the same key; the first
    component of every entry is minus the priority of its task, and its
    arrival counter is less than the count of tasks received. *)
Theorem pending_queue_strictly_sorted
    port threshold selector python_v parsl_v rid radio steps :
  let st := outcome_state
              (run_steps steps
                 (initial port threshold selector python_v parsl_v rid radio)) in
  StronglySorted (λ a b, key_ltb (key a) (key b) = true) (pending_task_queue st)
  ∧ NoDup (map key (pending_task_queue st))
  ∧ ∀ e, e ∈ pending_task_queue st →
         e.1.1 = neg (priority_of (entry_task e))
         ∧ entry_arrival e < task_counter st.
Proof.
  intros st.
  destruct (run_steps_outcome_queue_wf steps _
              (initial_queue_wf port threshold selector python_v parsl_v rid radio))
    as [Hs Hf].
  fold st in Hs, Hf. split_and!.
  - exact Hs.
  - induction Hs as [|x q Hq IH Hx]; simpl; [constructor|].
    apply Forall_cons in Hf as [_ Hf]. constructor; [|by apply IH].
    intros Hin. apply list_elem_of_In, in_map_iff in Hin as (y & Hy & Hin).
    eapply Forall_forall in Hx; [|by apply list_elem_of_In].
    unfold entry_lt, key_lt in Hx. rewrite Hy, key_ltb_irrefl in Hx. done.
  - intros e He. eapply Forall_forall in Hf as [H1 H2]; [|exact He].
    unfold entry_arrival, entry_task. split; [done | lia].
Qed.

Lemma sl_add_length e q : length (sl_add e q) = S (length q).
Proof.
  induction q as [|x q IH]; simpl; [done|].
  destruct (key_ltb (key e) (key x)); simpl; [done | by rewrite IH].
Qed.

Lemma dispatch_to_accounting now manager_id st :
  let st' := outcome_state (dispatch_to now manager_id st) in
  count st' + Z.of_nat (length (pending_task_queue st'))
  = count st + Z.of_nat (length (pending_task_queue st)).
Proof.
  unfold dispatch_to.
  destruct (dict_get manager_id (_ready_managers st)) as [m|]; [|done].
  pose proof (get_tasks_lengths (max_capacity m - Z.of_nat (length (tasks m)))
                (pending_task_queue st)) as [_ Hlen].
  destruct (get_tasks _ (pending_task_queue st)) as [batch q]. simpl in Hlen.
  repeat (case_match; simplify_eq; simpl; try done).
  all: monitoring_only; simpl in *; lia.
Qed.

Lemma dispatch_loop_accounting now stack st :
  let st' := outcome_state (dispatch_loop now stack st) in
  count st' + Z.of_nat (length (pending_task_queue st'))
  = count st + Z.of_nat (length (pending_task_queue st)).
Proof.
  cbv zeta. revert st. induction stack as [|manager_id stack IH]; intros st; simpl;
    [done|].
  destruct (pending_task_queue st) eqn:E; simpl; [by rewrite E|].
  pose proof (dispatch_to_accounting now manager_id st) as H.
  destruct (dispatch_to now manager_id st) as [st1|e st1]; simpl in *.
  - rewrite IH, H, E. done.
  - rewrite H, E. done.
Qed.

Lemma run_step_accounting s st :
  let st' := outcome_state (run_step s st) in
  task_counter st' - count st' - Z.of_nat (length (pending_task_queue st'))
  = task_counter st - count st - Z.of_nat (length (pending_task_queue st)).
Proof.
  assert (Hsame : ∀ st', accounting_of st' = accounting_of st →
    task_counter st' - count st' - Z.of_nat (length (pending_task_queue st'))
    = task_counter st - count st - Z.of_nat (length (pending_task_queue st))).
  { unfold accounting_of. by intros st' [= -> -> ->]. }
  destruct s as [now req|msg|now msg|now|now|now]; simpl.
  - apply Hsame, process_command_untouched.
  - destruct msg as [msg|]; simpl; [|done]. rewrite sl_add_length. lia.
  - apply Hsame, process_manager_socket_message_untouched.
  - apply Hsame, expire_bad_managers_untouched.
  - apply Hsame, expire_drained_loop_untouched.
  - unfold process_tasks_to_send. case_match; [|done].
    match goal with |- context [dispatch_loop now ?l st] =>
      pose proof (dispatch_loop_accounting now l st) as H1;
      destruct (dispatch_loop_untouched now l st) as (_ & H2 & _) end.
    simpl in *. lia.
Qed.

(** X3: from the start of the interchange, in every state the loop reaches
    (also one in which a step raised), the count of tasks received is the
    count of tasks sent to managers plus the number of tasks in the pending
    queue: no step loses or invents a task. *)
Theorem received_is_sent_plus_pending
    port threshold selector python_v parsl_v rid radio steps :
  let st := outcome_state
              (run_steps steps
                 (initial port threshold selector python_v parsl_v rid radio)) in
  task_counter st = count st + Z.of_nat (length (pending_task_queue st)).
Proof.
  cbv zeta.
  assert (H : ∀ st,
    let st' := outcome_state (run_steps steps st) in
    task_counter st' - count st' - Z.of_nat (length (pending_task_queue st'))
    = task_counter st - count st - Z.of_nat (length (pending_task_queue st))).
  { induction steps as [|s l IH]; intros st; simpl; [done|].
    pose proof (run_step_accounting s st) as Hs.
    destruct (run_step s st) as [st1|e st1]; simpl in *; [|done].
    by rewrite IH. }
  specialize (H (initial port threshold selector python_v parsl_v rid radio)).
  simpl in H. lia.
Qed.

(** ** The kill event, the block history and the configuration *)



Lemma run_step_history s st :
  connected_block_history (outcome_state (run_step s st))
  = connected_block_history st
    ++ match run_step s st with
       | Ok _ => accepted_block s st
       | Raise _ _ => []
       end.
Proof.
  destruct s as [now req|msg|now msg|now|now|now]; simpl.
  - destruct (process_command_untouched now req st) as (_ & _ & -> & _).
    destruct (process_command now req st); by rewrite app_nil_r.
  - rewrite app_nil_r. by destruct msg.
  - unfold process_manager_socket_message, register, handle_result.
    repeat (case_match; simplify_eq; simpl; rewrite ?app_nil_r; try done).
    all: monitoring_only; simpl; rewrite ?app_nil_r; try done.
    all: match goal with
         | H : result_loop _ _ _ _ _ = _ |- _ =>
             by apply result_loop_untouched in H as (_ & _ & -> & _)
         end.
  - rewrite app_nil_r. apply expire_bad_managers_untouched.
  - destruct (expire_drained_loop_untouched now
                (elements (interesting_managers st)) st) as (_ & _ & H & _).
    unfold expire_drained_managers. rewrite H.
    destruct (expire_drained_loop _ _ _); by rewrite app_nil_r.
  - unfold process_tasks_to_send. case_match; simpl; [|by rewrite app_nil_r].
    match goal with |- context [dispatch_loop now ?l st] =>
      destruct (dispatch_loop_untouched now l st) as (_ & _ & Hd & _) end.
    rewrite Hd. destruct (dispatch_loop _ _ _); by rewrite app_nil_r.
Qed.

(** X5: the block history only grows: a step appends the block id of the
    registration it accepts and changes the history in no other way, so the
    history before any sequence of steps is a prefix of the history after
    it; expiry and draining never remove a block. *)
Theorem block_history_only_grows s st steps :
  connected_block_history (outcome_state (run_step s st))
  = connected_block_history st
    ++ match run_step s st with
       | Ok _ => accepted_block s st
       | Raise _ _ => []
       end
  ∧ connected_block_history st
    `prefix_of` connected_block_history (outcome_state (run_steps steps st)).
Proof.
  split; [apply run_step_history|].
  revert st. induction steps as [|s' l IH]; intros st; simpl; [done|].
  pose proof (run_step_history s' st) as H.
  destruct (run_step s' st) as [st1|e st1]; simpl in *.
  - etrans; [|apply IH]. rewrite H. by apply prefix_app_r.
  - rewrite H. by apply prefix_app_r.
Qed.

(** X6: no step changes what [__init__] fixed: after any sequence of steps
    the port bound for the workers, the heartbeat threshold, the selector,
    the platform versions, the run id and the monitoring radio are those of
    the start, and WORKER_BINDS replies that port and changes nothing but
    the replies sent. *)
Theorem configuration_is_fixed
    port threshold selector python_v parsl_v rid radio steps now :
  let st := outcome_state
              (run_steps steps
                 (initial port threshold selector python_v parsl_v rid radio)) in
  config_of st = (port, threshold, selector, python_v, parsl_v, rid, radio)
  ∧ process_command now (Some "WORKER_BINDS"%string) st
    = Ok (set_command_channel (command_channel st ++ [reply_int port]) st).
Proof.
  intros st.
  assert (H : config_of st = (port, threshold, selector, python_v, parsl_v, rid, radio))
    by apply run_steps_config.
  split; [done|]. unfold process_command, command_reply. simpl.
  unfold config_of in H. by injection H as -> _ _ _ _ _ _.
Qed.

(** ** Commands *)

Lemma prefix_app_inv p s : String.prefix p s = true → ∃ r, s = (p ++ r)%string.
Proof.
  revert s. induction p as [|c p IH]; intros s; simpl.
  - intros _. by exists s.
  - destruct s as [|c' s]; [done|].
    intros H. cbn in H. destruct (ascii_dec c c') as [->|Hne]; [|discriminate H].
    apply IH in H as [r ->]. by exists r.
Qed.

(** X7: HOLD_WORKER.  For a request ["HOLD_WORKER;<name>"] whose name has no
    semicolon: when the name is a registered manager, its record gets
    [active = False], nothing else in the registry, the interesting set or
    the queue changes, and the reply is None; when it is not, only the reply
    None is sent.  A request that starts with HOLD_WORKER and does not split
    at semicolons into exactly two parts raises ValueError: nothing changes
    and no reply is sent. *)
Theorem hold_worker_deactivates now s_manager st :
  split_semicolon s_manager = [s_manager] →
  (∀ m, dict_get s_manager (_ready_managers st) = Some m →
     ∃ st',
       process_command now (Some ("HOLD_WORKER;" ++ s_manager)%string) st = Ok st'
       ∧ dict_get s_manager (_ready_managers st') = Some (with_active false m)
       ∧ (∀ k, k ≠ s_manager →
               dict_get k (_ready_managers st') = dict_get k (_ready_managers st))
       ∧ dict_keys (_ready_managers st') = dict_keys (_ready_managers st)
       ∧ interesting_managers st' = interesting_managers st
       ∧ accounting_of st' = accounting_of st
       ∧ command_channel st' = command_channel st ++ [reply_None])
  ∧ (dict_get s_manager (_ready_managers st) = None →
     process_command now (Some ("HOLD_WORKER;" ++ s_manager)%string) st
     = Ok (set_command_channel (command_channel st ++ [reply_None]) st))
  ∧ (∀ req, startswith "HOLD_WORKER" req = true →
            length (split_semicolon req) ≠ 2%nat →
            process_command now (Some req) st = Raise ValueError st).
Proof.
  intros Hsplit. split_and!.
  - intros m Hm. unfold process_command, command_reply. simpl.
    change (String.append "" s_manager) with s_manager.
    rewrite Hsplit. unfold encode_utf8. rewrite Hm. eexists. split; [done|].
    monitoring_only. simpl. split_and!; try done.
    + apply dict_get_set_eq.
    + intros k Hk. by apply dict_get_set_ne.
    + apply dict_keys_set_present. by rewrite Hm.
  - intros Hm. unfold process_command, command_reply. simpl.
    change (String.append "" s_manager) with s_manager.
    rewrite Hsplit. unfold encode_utf8. by rewrite Hm.
  - intros req [r ->]%prefix_app_inv Hlen.
    unfold process_command, command_reply, startswith. simpl in *.
    change (String.append "" r) with r in *.
    destruct (split_semicolon r) as [|w [|w' [|w'' ws]]]; simpl in *; try done.
    all: by destruct r.
Qed.

(** X8: the command step answers a request it serves with exactly one reply,
    and a request it fails on with none, leaving the state as it was; only
    HOLD_WORKER changes anything but the replies sent; a request that is no
    command's name and does not start with HOLD_WORKER is answered None. *)
Theorem one_reply_per_served_command now req st :
  match process_command now (Some req) st with
  | Ok st' =>
      ∃ reply,
        command_channel st' = command_channel st ++ [reply]
        ∧ (startswith "HOLD_WORKER" req = false →
           st' = set_command_channel (command_channel st ++ [reply]) st)
        ∧ (req ∉ named_commands → reply = reply_None)
  | Raise e st' =>
      st' = st ∧ (e = ValueError ∨ e = UnicodeDecodeError)
  end.
Proof.
  unfold process_command, command_reply, named_commands.
  repeat (case_match; simplify_eq; simpl; auto).
  all: try (eexists; split_and!; [done | done |]; intros Hnot; try done).
  all: try (exfalso; apply Hnot;
            repeat match goal with
            | H : String.eqb _ _ = true |- _ => apply String.eqb_eq in H; subst
            end;
            repeat (first [apply list_elem_of_here | apply list_elem_of_further])).
  all: monitoring_only; eexists; split_and!; simpl; done.
Qed.

Lemma managers_reply_decodable now d acc :
  Forall (λ p : bytes * ManagerRecord, is_Some (decode_utf8 p.1)) d →
  managers_reply now d acc
  = Some (acc ++ map (λ p, manager_resp_of now p.1 p.2) d).
Proof.
  intros Hd. revert acc. induction Hd as [|[k m] d [s Hs] Hd IH]; intros acc; simpl.
  - by rewrite app_nil_r.
  - simpl in Hs. rewrite Hs. rewrite IH, <- app_assoc. simpl.
    unfold decode_utf8 in Hs. by case_match; simplify_eq.
Qed.

Lemma managers_reply_undecodable now d acc :
  Exists (λ p : bytes * ManagerRecord, decode_utf8 p.1 = None) d →
  managers_reply now d acc = None.
Proof.
  intros Hd. revert acc. induction Hd as [[k m] d Hk|[k m] d Hd IH]; intros acc; simpl.
  - simpl in Hk. by rewrite Hk.
  - by destruct (decode_utf8 k).
Qed.

Lemma packages_reply_undecodable d acc :
  Exists (λ p : bytes * ManagerRecord, decode_utf8 p.1 = None) d →
  packages_reply d acc = None.
Proof.
  intros Hd. revert acc. induction Hd as [[k m] d Hk|[k m] d Hd IH]; intros acc; simpl.
  - simpl in Hk. by rewrite Hk.
  - by destruct (decode_utf8 k).
Qed.

(** X9: MANAGERS.  When every manager id of the registry is valid UTF-8 the
    reply has one entry per manager, in the order of the registry, with the
    id as its name, the number of its outstanding tasks, and as idle duration
    the time since [idle_since], 0 when that is null.  When some id is not
    valid UTF-8, MANAGERS and MANAGERS_PACKAGES raise UnicodeDecodeError:
    no reply is sent and nothing changes. *)
Theorem managers_reply_lists_the_registry now st :
  (Forall (λ p : bytes * ManagerRecord, is_Some (decode_utf8 p.1)) (_ready_managers st) →
   process_command now (Some "MANAGERS"%string) st
   = Ok (set_command_channel
           (command_channel st
            ++ [reply_managers
                  (map (λ p : bytes * ManagerRecord,
                          {| resp_manager := p.1;
                             resp_block_id := block_id p.2;
                             resp_worker_count := worker_count p.2;
                             resp_tasks := Z.of_nat (length (tasks p.2));
                             resp_idle_duration :=
                               match idle_since p.2 with
                               | Some t => now - t
                               | None => 0
                               end;
                             resp_active := active p.2;
                             resp_parsl_version := parsl_version p.2;
                             resp_python_version := python_version p.2;
                             resp_draining := draining p.2 |})
                       (_ready_managers st))]) st))
  ∧ (Exists (λ p : bytes * ManagerRecord, decode_utf8 p.1 = None) (_ready_managers st) →
     process_command now (Some "MANAGERS"%string) st = Raise UnicodeDecodeError st
     ∧ process_command now (Some "MANAGERS_PACKAGES"%string) st
       = Raise UnicodeDecodeError st).
Proof.
  split.
  - intros Hd. unfold process_command, command_reply. simpl.
    by rewrite managers_reply_decodable.
  - intros Hd. unfold process_command, command_reply. simpl.
    by rewrite managers_reply_undecodable, packages_reply_undecodable.
Qed.

(** ** Messages that are dropped *)

(** X10: a message that does not parse, and a message other than a
    registration from a manager that is not in the registry, whatever its
    type and its sub-messages, change nothing: results of an unknown manager
    are not forwarded and its heartbeat gets no reply.  So does a message of
    an unknown type from a registered manager. *)
Theorem dropped_messages_change_nothing now st :
  (∀ msg_parts,
     process_manager_socket_message now (Some (malformed msg_parts)) st = Ok st)
  ∧ (∀ manager_id meta msgs,
       mtype meta ≠ "registration"%string →
       dict_get manager_id (_ready_managers st) = None →
       process_manager_socket_message now (Some (parts manager_id meta msgs)) st
       = Ok st)
  ∧ (∀ manager_id meta msgs,
       mtype meta ∉ ["registration"; "result"; "heartbeat"; "drain"]%string →
       process_manager_socket_message now (Some (parts manager_id meta msgs)) st
       = Ok st).
Proof.
  split_and!.
  - done.
  - intros manager_id meta msgs Hty Hm. unfold process_manager_socket_message.
    apply String.eqb_neq in Hty. by rewrite Hty, Hm.
  - intros manager_id meta msgs Hty. unfold process_manager_socket_message.
    rewrite !not_elem_of_cons in Hty. destruct Hty as (H1 & H2 & H3 & H4 & _).
    apply String.eqb_neq in H1, H2, H3, H4. rewrite H1, H2, H3, H4.
    by destruct (dict_get manager_id (_ready_managers st)).
Qed.

(** ** Dispatch *)

Lemma take_add_drop {A} (n1 n2 : nat) (l : list A) :
  take (n1 + n2) l = take n1 l ++ take n2 (drop n1 l).
Proof.
  revert l. induction n1 as [|n1 IH]; intros l; simpl; [done|].
  destruct l as [|x l]; simpl; [by destruct n2|]. by rewrite IH.
Qed.

Lemma grown_refl m : grown m m.
Proof. by unfold grown. Qed.

Lemma grown_trans m1 m2 m3 : grown m1 m2 → grown m2 m3 → grown m1 m3.
Proof. unfold grown. intros (? & ? & ? & ?) (? & ? & ? & ?). split_and!; try congruence. lia. Qed.

(** What one visit of the dispatch loop does. *)
Lemma dispatch_to_effect now manager_id st :
  let st' := outcome_state (dispatch_to now manager_id st) in
  let q := pending_task_queue st in
  (∃ sends n,
     manager_sock st' = manager_sock st ++ sends
     ∧ sent_tasks sends = map entry_task (take n (pop_order q))
     ∧ pending_task_queue st' = rev (drop n (pop_order q))
     ∧ Forall (batch_for_ready_manager st) sends)
  ∧ (∀ k m', dict_get k (_ready_managers st') = Some m' →
             ∃ m, dict_get k (_ready_managers st) = Some m ∧ grown m m').
Proof.
  cbv zeta. unfold dispatch_to.
  assert (Hnone : (∃ sends n,
     manager_sock st = manager_sock st ++ sends
     ∧ sent_tasks sends = map entry_task (take n (pop_order (pending_task_queue st)))
     ∧ pending_task_queue st = rev (drop n (pop_order (pending_task_queue st)))
     ∧ Forall (batch_for_ready_manager st) sends)
    ∧ (∀ k m', dict_get k (_ready_managers st) = Some m' →
               ∃ m, dict_get k (_ready_managers st) = Some m ∧ grown m m')).
  { split; [|by eauto using grown_refl].
    exists [], O. rewrite app_nil_r, drop_0, pop_order_rev, rev_involutive. done. }
  destruct (dict_get manager_id (_ready_managers st)) as [m|] eqn:Hm; [|done].
  set (cap := max_capacity m - Z.of_nat (length (tasks m))).
  pose proof (get_tasks_spec cap (pending_task_queue st)) as Hspec.
  pose proof (get_tasks_length cap (pending_task_queue st)) as Hlen.
  destruct (get_tasks cap (pending_task_queue st)) as [batch q].
  injection Hspec as Hbatch Hq. simpl in Hlen.
  destruct (negb (cap =? 0) && active m && negb (draining m)) eqn:Hready.
  2:{ case_decide; simpl; [|done]. exact Hnone. }
  apply andb_prop in Hready as [[Hcap Hact]%andb_prop Hdr].
  apply negb_true_iff in Hdr.
  destruct batch as [|t batch].
  - simpl. monitoring_only. simpl. split; [|by eauto using grown_refl].
    exists [], (Z.to_nat cap). rewrite app_nil_r. by rewrite <- Hbatch, <- Hq.
  - assert (Hsend : batch_for_ready_manager st
                      (manager_id, pickle_dumps (py_tasks (t :: batch)))).
    { exists m, (t :: batch). simpl. split_and!; try done. fold cap. simpl in Hlen. lia. }
    assert (Hgrown : ∀ reg k m',
      dict_get k (dict_set manager_id
                    (with_idle_since None
                       (with_tasks (tasks m ++ map task_id (t :: batch)) m)) reg)
      = Some m' →
      (∀ k', dict_get k' reg = dict_get k' (_ready_managers st)) →
      ∃ m0, dict_get k (_ready_managers st) = Some m0 ∧ grown m0 m').
    { intros reg k m'. rewrite dict_get_set. case_decide as Hk.
      - intros [= <-] _. subst k. exists m. split; [done|]. unfold grown. simpl.
        split_and!; try done. rewrite length_app. lia.
      - intros Hk' Hreg. rewrite Hreg in Hk'. eauto using grown_refl. }
    assert (Heffect : ∃ sends n,
      manager_sock st ++ [(manager_id, pickle_dumps (py_tasks (t :: batch)))]
      = manager_sock st ++ sends
      ∧ sent_tasks sends = map entry_task (take n (pop_order (pending_task_queue st)))
      ∧ q = rev (drop n (pop_order (pending_task_queue st)))
      ∧ Forall (batch_for_ready_manager st) sends).
    { exists [(manager_id, pickle_dumps (py_tasks (t :: batch)))], (Z.to_nat cap).
      split_and!; try done.
      - simpl. by rewrite app_nil_r.
      - by repeat constructor. }
    destruct (0 <? cap - Z.of_nat (length (t :: batch))); simpl.
    + monitoring_only. simpl. split; [exact Heffect|].
      intros k m' Hk. by eapply Hgrown.
    + case_decide; simpl.
      * monitoring_only. simpl. split; [exact Heffect|].
        intros k m' Hk. by eapply Hgrown.
      * split; [exact Heffect|]. intros k m' Hk. by eapply Hgrown.
Qed.

Lemma batch_for_ready_manager_grown st st1 p :
  (∀ k m', dict_get k (_ready_managers st1) = Some m' →
           ∃ m, dict_get k (_ready_managers st) = Some m ∧ grown m m') →
  batch_for_ready_manager st1 p → batch_for_ready_manager st p.
Proof.
  intros Hg (m1 & batch & Hm1 & Hact & Hdr & Hp & Hne & Hlen).
  destruct (Hg _ _ Hm1) as (m & Hm & Ha & Hd & Hc & Ht).
  exists m, batch. split_and!; try done; try congruence. lia.
Qed.

Lemma dispatch_loop_effect now stack st :
  let st' := outcome_state (dispatch_loop now stack st) in
  let q := pending_task_queue st in
  (∃ sends n,
     manager_sock st' = manager_sock st ++ sends
     ∧ sent_tasks sends = map entry_task (take n (pop_order q))
     ∧ pending_task_queue st' = rev (drop n (pop_order q))
     ∧ Forall (batch_for_ready_manager st) sends)
  ∧ (∀ k m', dict_get k (_ready_managers st') = Some m' →
             ∃ m, dict_get k (_ready_managers st) = Some m ∧ grown m m').
Proof.
  cbv zeta. revert st. induction stack as [|manager_id stack IH]; intros st.
  - simpl. split; [|by eauto using grown_refl].
    exists [], O. rewrite app_nil_r, drop_0, pop_order_rev, rev_involutive. done.
  - simpl. destruct (pending_task_queue st) as [|e q0] eqn:Eq.
    { simpl. split; [|by eauto using grown_refl].
      exists [], O. by rewrite app_nil_r, Eq. }
    rewrite <- Eq.
    destruct (dispatch_to_effect now manager_id st)
      as ((sends1 & n1 & Hs1 & Ht1 & Hq1 & Hf1) & Hg1).
    destruct (dispatch_to now manager_id st) as [st1|e' st1]; simpl in *.
    + destruct (IH st1) as ((sends2 & n2 & Hs2 & Ht2 & Hq2 & Hf2) & Hg2).
      split.
      * exists (sends1 ++ sends2), (n1 + n2)%nat.
        rewrite Hq1, pop_order_rev, rev_involutive in Ht2, Hq2.
        split_and!.
        -- by rewrite Hs2, Hs1, <- app_assoc.
        -- unfold sent_tasks in *. rewrite flat_map_app, Ht1, Ht2.
           by rewrite take_add_drop, map_app.
        -- by rewrite Hq2, drop_drop.
        -- apply Forall_app. split; [done|].
           eapply Forall_impl; [exact Hf2|]. intros p.
           by apply batch_for_ready_manager_grown.
      * intros k m' Hk. destruct (Hg2 _ _ Hk) as (m1 & Hm1 & Hgr1).
        destruct (Hg1 _ _ Hm1) as (m & Hm & Hgr). eauto using grown_trans.
    + split; [|done]. by exists sends1, n1.
Qed.

(** X11: the dispatch step sends tasks only to managers that are registered,
    active and not draining when the step starts, each batch not empty and
    no larger than the free capacity of its manager; the batches sent, put
    end to end, are exactly the tasks popped from the queue, in pop order,
    and the queue keeps the others: a task that leaves the queue is sent to
    one manager, once.  This also holds when the step raises. *)
Theorem dispatch_sends_what_it_pops now st :
  let st' := outcome_state (process_tasks_to_send now st) in
  let q := pending_task_queue st in
  ∃ sends n,
    manager_sock st' = manager_sock st ++ sends
    ∧ sent_tasks sends = map entry_task (take n (pop_order q))
    ∧ pending_task_queue st' = rev (drop n (pop_order q))
    ∧ count st' = count st + Z.of_nat (length (sent_tasks sends))
    ∧ Forall (batch_for_ready_manager st) sends.
Proof.
  cbv zeta. unfold process_tasks_to_send.
  assert (Hcount : ∀ st' sends n,
    count st' + Z.of_nat (length (pending_task_queue st'))
    = count st + Z.of_nat (length (pending_task_queue st)) →
    sent_tasks sends = map entry_task (take n (pop_order (pending_task_queue st))) →
    pending_task_queue st' = rev (drop n (pop_order (pending_task_queue st))) →
    count st' = count st + Z.of_nat (length (sent_tasks sends))).
  { intros st' sends n Hacc Ht Hq. rewrite Ht, length_map.
    rewrite Hq, length_rev in Hacc.
    assert (length (pending_task_queue st)
            = (length (take n (pop_order (pending_task_queue st)))
               + length (drop n (pop_order (pending_task_queue st))))%nat) as Hsplit.
    { by rewrite <- length_app, take_drop, pop_order_rev, length_rev. }
    lia. }
  case_match.
  - match goal with |- context [dispatch_loop now ?l st] =>
      destruct (dispatch_loop_effect now l st) as ((sends & n & H1 & H2 & H3 & H4) & _);
      pose proof (dispatch_loop_accounting now l st) as Hacc end.
    exists sends, n. split_and!; try done. by eapply Hcount.
  - exists [], O. simpl. rewrite app_nil_r, drop_0, pop_order_rev, rev_involutive.
    split_and!; try done. lia.
Qed.

Lemma within_capacity_dispatch tids m :
  within_capacity m → tids ≠ [] →
  Z.of_nat (length tids) ≤ max_capacity m - Z.of_nat (length (tasks m)) →
  within_capacity (with_idle_since None (with_tasks (tasks m ++ tids) m)).
Proof. unfold within_capacity. intros Hm _ Hlen. simpl. rewrite length_app. lia. Qed.

(** A visit of the dispatch loop to an interesting manager, with tasks
    pending: it does not raise, and it ends with the queue empty or with the
    manager out of the interesting set. *)
Lemma dispatch_to_visit now manager_id st :
  state_inv within_capacity st →
  manager_id ∈ interesting_managers st →
  pending_task_queue st ≠ [] →
  ∃ st', dispatch_to now manager_id st = Ok st'
         ∧ state_inv within_capacity st'
         ∧ (pending_task_queue st' = []
            ∧ interesting_managers st' = interesting_managers st
            ∨ interesting_managers st' = interesting_managers st ∖ {[manager_id]}).
Proof.
  intros Hinv Hin Hq.
  cut (∃ st', dispatch_to now manager_id st = Ok st'
         ∧ (pending_task_queue st' = []
            ∧ interesting_managers st' = interesting_managers st
            ∨ interesting_managers st' = interesting_managers st ∖ {[manager_id]})).
  { intros (st' & Hstep & Hor). exists st'. split_and!; try done.
    eapply (dispatch_to_inv within_capacity); [|exact Hinv|exact Hstep].
    apply within_capacity_dispatch. }
  destruct Hinv as [Hcap Hreg]. destruct (Hreg _ Hin) as [m Hm].
  pose proof (Hcap _ _ Hm) as Hm_cap. unfold within_capacity in Hm_cap.
  unfold dispatch_to. rewrite Hm.
  set (cap := max_capacity m - Z.of_nat (length (tasks m))).
  destruct (get_tasks_lengths cap (pending_task_queue st)) as [Hlen Hsum].
  destruct (get_tasks cap (pending_task_queue st)) as [batch q]. simpl in Hlen, Hsum.
  assert (0 < length (pending_task_queue st))%nat
    by (destruct (pending_task_queue st); [done | simpl; lia]).
  destruct (negb (cap =? 0) && active m && negb (draining m)) eqn:Hready.
  - apply andb_prop in Hready as [[Hc _]%andb_prop _].
    apply negb_true_iff, Z.eqb_neq in Hc.
    destruct batch as [|t batch]; [simpl in Hlen; lia|].
    destruct (0 <? cap - Z.of_nat (length (t :: batch))) eqn:Hfree.
    + eexists. split; [done|]. left. monitoring_only. simpl. split; [|done].
      apply Z.ltb_lt in Hfree. destruct q; [done | simpl in *; lia].
    + simpl. rewrite decide_True by done. eexists. split; [done|]. right.
      by monitoring_only.
  - rewrite decide_True by done. eexists. split; [done|]. by right.
Qed.

Lemma dispatch_loop_empty_queue now stack st :
  pending_task_queue st = [] → dispatch_loop now stack st = Ok st.
Proof. intros Hq. destruct stack; simpl; [done|]. by rewrite Hq. Qed.

Lemma dispatch_loop_visits now stack st :
  NoDup stack →
  (∀ k, k ∈ stack → k ∈ interesting_managers st) →
  state_inv within_capacity st →
  ∃ st', dispatch_loop now stack st = Ok st'
         ∧ (pending_task_queue st' = []
            ∨ ∀ k, k ∈ interesting_managers st'
                   ↔ k ∈ interesting_managers st ∧ k ∉ stack).
Proof.
  revert st. induction stack as [|manager_id stack IH]; intros st Hnd Hin Hinv.
  - exists st. split; [done|]. right. intros k. split; [|by intros [? _]].
    intros Hk. split; [done | apply not_elem_of_nil].
  - apply NoDup_cons in Hnd as [Hnotin Hnd]. simpl.
    destruct (pending_task_queue st) as [|e q] eqn:Eq.
    { exists st. split; [done|]. by left. }
    destruct (dispatch_to_visit now manager_id st) as (st1 & Hstep & Hinv1 & Hor);
      [done | apply Hin, list_elem_of_here | by rewrite Eq |].
    rewrite Hstep. simpl. destruct Hor as [[Hq1 _]|Hint1].
    + exists st1. split; [by apply dispatch_loop_empty_queue | by left].
    + destruct (IH st1) as (st' & Hloop & Hor'); [done | | done |].
      { intros k Hk. rewrite Hint1. apply elem_of_difference. split.
        - by apply Hin, list_elem_of_further.
        - intros ->%elem_of_singleton. done. }
      exists st'. split; [done|]. destruct Hor' as [?|Hint']; [by left|]. right.
      intros k. rewrite Hint', Hint1, elem_of_difference, elem_of_singleton,
        not_elem_of_cons. tauto.
Qed.

(** X12: when the selector gives the interesting managers each once, every
    interesting manager is registered and no manager holds more tasks than
    its capacity, the dispatch step does not raise, and it ends with an empty
    queue or an empty interesting set: it leaves no task pending while a
    manager it considers could take it. *)
Theorem dispatch_is_work_conserving now st :
  selector_permutes st →
  capacity_safe st →
  interesting_registered st →
  ∃ st', process_tasks_to_send now st = Ok st'
         ∧ (pending_task_queue st' = [] ∨ interesting_managers st' = ∅).
Proof.
  intros Hsel Hcap Hreg. unfold process_tasks_to_send.
  destruct (bool_decide (interesting_managers st = ∅)) eqn:Hi; simpl.
  { exists st. split; [done|]. right. by apply bool_decide_eq_true in Hi. }
  destruct (bool_decide (pending_task_queue st = [])) eqn:Hq; simpl.
  { exists st. split; [done|]. left. by apply bool_decide_eq_true in Hq. }
  set (stack := rev (manager_selector st (_ready_managers st) (interesting_managers st))).
  assert (Hperm : stack ≡ₚ elements (interesting_managers st)).
  { unfold stack. by rewrite <- Permutation_rev, (Hsel _ _). }
  destruct (dispatch_loop_visits now stack st) as (st' & Hloop & Hor).
  - rewrite Hperm. apply NoDup_elements.
  - intros k. rewrite Hperm. apply elem_of_elements.
  - by split.
  - exists st'. split; [done|]. destruct Hor as [?|Hint]; [by left|]. right.
    apply elem_of_equiv_empty_L. intros k [Hk Hnot]%Hint.
    apply Hnot. rewrite Hperm. by apply elem_of_elements.
Qed.

(** ** Drained managers *)

Lemma flat_map_ext_elem_of {A B} (f g : A → list B) (l : list A) :
  (∀ x, x ∈ l → f x = g x) → flat_map f l = flat_map g l.
Proof.
  induction l as [|x l IH]; intros H; simpl; [done|].
  rewrite H by apply list_elem_of_here. rewrite IH; [done|].
  intros y Hy. by apply H, list_elem_of_further.
Qed.

Lemma expire_drained_loop_spec now (l : list bytes) st :
  NoDup l →
  (∀ k, k ∈ l → is_Some (dict_get k (_ready_managers st))) →
  let drained := List.filter (is_drained (_ready_managers st)) l in
  ∃ st',
    expire_drained_loop now l st = Ok st'
    ∧ manager_sock st' = manager_sock st ++ map (λ k, (k, PKL_DRAINED_CODE)) drained
    ∧ monitoring_sent st' = monitoring_sent st ++ flat_map (retired_info now st) drained
    ∧ (∀ k, k ∈ drained → dict_get k (_ready_managers st') = None)
    ∧ (∀ k, k ∉ drained →
            dict_get k (_ready_managers st') = dict_get k (_ready_managers st))
    ∧ (∀ k, k ∈ interesting_managers st'
            ↔ k ∈ interesting_managers st ∧ k ∉ drained).
Proof.
  cbv zeta. revert st. induction l as [|manager_id l IH]; intros st Hnd Hl; simpl.
  - exists st. rewrite !app_nil_r. split_and!; try done.
    + by intros k ?%elem_of_nil.
    + intros k. split; [|by intros [? _]]. intros ?. split; [done | apply not_elem_of_nil].
  - apply NoDup_cons in Hnd as [Hnotin Hnd].
    destruct (Hl manager_id) as [m Hm]; [apply list_elem_of_here|].
    assert (Hd : is_drained (_ready_managers st) manager_id
                 = draining m && (length (tasks m) =? 0)%nat)
      by (unfold is_drained; by rewrite Hm).
    rewrite Hm, !Hd.
    destruct (draining m && (length (tasks m) =? 0)%nat) eqn:Hdr.
    + set (st3 := set_ready_managers (dict_pop manager_id (_ready_managers st))
                    (set_interesting_managers (interesting_managers st ∖ {[manager_id]})
                       (set_manager_sock
                          (manager_sock st ++ [(manager_id, PKL_DRAINED_CODE)]) st))).
      set (st4 := _send_monitoring_info now (with_active false m) st3).
      assert (Hreg4 : _ready_managers st4 = dict_pop manager_id (_ready_managers st)).
      { unfold st4. by monitoring_only. }
      assert (Hint4 : interesting_managers st4
                      = interesting_managers st ∖ {[manager_id]}).
      { unfold st4. by monitoring_only. }
      assert (Hsock4 : manager_sock st4
                       = manager_sock st ++ [(manager_id, PKL_DRAINED_CODE)]).
      { unfold st4. by monitoring_only. }
      assert (Hmon4 : monitoring_sent st4
                      = monitoring_sent st ++ retired_info now st manager_id).
      { unfold st4, _send_monitoring_info, retired_info. rewrite Hm. simpl.
        destruct (monitoring_radio st); simpl; [done | by rewrite app_nil_r]. }
      assert (Hcfg4 : monitoring_radio st4 = monitoring_radio st ∧ run_id st4 = run_id st).
      { unfold st4. by monitoring_only. }
      assert (Hsame : ∀ k, k ∈ l →
                dict_get k (_ready_managers st4) = dict_get k (_ready_managers st)).
      { intros k Hk. rewrite Hreg4. apply dict_get_pop_ne. by intros ->. }
      assert (Hfilter : List.filter (is_drained (_ready_managers st4)) l
                        = List.filter (is_drained (_ready_managers st)) l).
      { apply filter_ext_in. intros k Hk%list_elem_of_In. unfold is_drained.
        by rewrite Hsame. }
      destruct (IH st4) as (st' & Hloop & Hsock & Hmon & Hgone & Hkept & Hint);
        [done | |].
      { intros k Hk. rewrite Hsame by done. by apply Hl, list_elem_of_further. }
      rewrite Hfilter in Hsock, Hmon, Hgone, Hkept, Hint.
      exists st'. split_and!.
      * exact Hloop.
      * rewrite Hsock, Hsock4, <- app_assoc. done.
      * rewrite Hmon, Hmon4, <- app_assoc. simpl. f_equal. f_equal.
        apply flat_map_ext_elem_of. intros k Hk.
        apply list_elem_of_In, filter_In in Hk as [Hk _].
        unfold retired_info. destruct Hcfg4 as [-> ->].
        by rewrite Hsame by by apply list_elem_of_In.
      * intros k Hk.
        destruct (decide (k ∈ List.filter (is_drained (_ready_managers st)) l))
          as [Hin|Hin]; [by apply Hgone|].
        rewrite Hkept, Hreg4 by done. apply elem_of_cons in Hk as [->|Hk]; [|done].
        apply dict_get_pop_eq.
      * intros k Hk. rewrite not_elem_of_cons in Hk. destruct Hk as [Hne Hk].
        rewrite Hkept, Hreg4 by done. by apply dict_get_pop_ne.
      * intros k. rewrite Hint, Hint4, elem_of_difference, elem_of_singleton,
          not_elem_of_cons. tauto.
    + destruct (IH st) as (st' & Hloop & Hsock & Hmon & Hgone & Hkept & Hint);
        [done | |].
      { intros k Hk. by apply Hl, list_elem_of_further. }
      by exists st'.
Qed.

(** X13: drained expiry.  When every interesting manager is registered, the
    step does not raise; it sends the frame [PKL_DRAINED_CODE] once to each
    interesting manager that is draining and has no outstanding task,
    removes it from the registry and from the interesting set and, with a
    radio, sends one NODE_INFO of its record with [active = False].  Every
    other manager stays as it is: in particular a draining manager that is
    not in the interesting set is not retired. *)
Theorem drained_managers_are_retired now st :
  interesting_registered st →
  ∃ st',
    expire_drained_managers now st = Ok st'
    ∧ manager_sock st'
      = manager_sock st ++ map (λ k, (k, PKL_DRAINED_CODE)) (drained_managers st)
    ∧ monitoring_sent st'
      = monitoring_sent st ++ flat_map (retired_info now st) (drained_managers st)
    ∧ (∀ k, k ∈ drained_managers st → dict_get k (_ready_managers st') = None)
    ∧ (∀ k, k ∉ drained_managers st →
            dict_get k (_ready_managers st') = dict_get k (_ready_managers st))
    ∧ (∀ k, k ∈ interesting_managers st'
            ↔ k ∈ interesting_managers st ∧ k ∉ drained_managers st)
    ∧ (∀ k, k ∈ drained_managers st
            ↔ k ∈ interesting_managers st
              ∧ ∃ m, dict_get k (_ready_managers st) = Some m
                     ∧ draining m = true ∧ tasks m = [])
    ∧ NoDup (drained_managers st).
Proof.
  intros Hreg. unfold expire_drained_managers, drained_managers.
  destruct (expire_drained_loop_spec now (elements (interesting_managers st)) st)
    as (st' & H1 & H2 & H3 & H4 & H4' & H5).
  - apply NoDup_elements.
  - intros k Hk. by apply Hreg, elem_of_elements.
  - exists st'. split_and!; try done.
    + intros k. rewrite list_elem_of_In, filter_In, <- list_elem_of_In, elem_of_elements.
      unfold is_drained. split.
      * intros [Hk Hd]. split; [done|].
        destruct (dict_get k (_ready_managers st)) as [m|]; [|done].
        apply andb_prop in Hd as [Hd Ht]. exists m. split_and!; try done.
        apply Nat.eqb_eq in Ht. by destruct (tasks m).
      * intros [Hk (m & -> & -> & ->)]. done.
    + apply NoDup_ListNoDup, List.NoDup_filter, NoDup_ListNoDup, NoDup_elements.
Qed.


(** ** Results *)

Lemma list_remove_perm tid l l' : list_remove tid l = Some l' → l ≡ₚ tid :: l'.
Proof.
  revert l'. induction l as [|x l IH]; intros l'; simpl; [done|].
  destruct (Z.eqb_spec x tid) as [->|Hne]; [by intros [= ->]|].
  destruct (list_remove tid l) as [r|]; [|done].
  intros [= <-]. rewrite (IH r) by done. apply Permutation_swap.
Qed.

Lemma list_remove_absent tid l : list_remove tid l = None ↔ tid ∉ l.
Proof.
  induction l as [|x l IH]; simpl.
  - split; [intros _; apply not_elem_of_nil | done].
  - rewrite not_elem_of_cons. destruct (Z.eqb_spec x tid) as [->|Hne].
    + split; [done | by intros [? _]].
    + destruct (list_remove tid l) as [r|].
      * split; [done|]. intros [_ H]. by apply IH in H.
      * split; [|done]. intros _. split; [done | by apply IH].
Qed.

(** The frames the loop collects are frames of result sub-messages, in their
    order, and each took one occurrence of its task id off the record. *)
Lemma result_loop_forwarded manager_id m msgs b st oe m1 b1 st1 :
  result_loop manager_id m msgs b st = (oe, m1, b1, st1) →
  ∃ fw : list (bytes * Z),
    b1 = b ++ map fst fw
    ∧ map (λ p, (p.1, Some (r_result p.2))) fw `sublist_of` msgs
    ∧ tasks m ≡ₚ map snd fw ++ tasks m1.
Proof.
  revert m b st. induction msgs as [|[p r] msgs IH]; intros m b st; simpl.
  - intros [= <- <- <- <-]. exists []. by rewrite app_nil_r.
  - assert (Hstop : ∃ fw : list (bytes * Z),
        b = b ++ map fst fw
        ∧ map (λ p, (p.1, Some (r_result p.2))) fw `sublist_of` (p, r) :: msgs
        ∧ tasks m ≡ₚ map snd fw ++ tasks m).
    { exists []. rewrite app_nil_r. split_and!; [done | apply sublist_nil_l | done]. }
    destruct r as [[tid|payload|r_type]|].
    + destruct (list_remove tid (tasks m)) as [ts|] eqn:E.
      * intros H. apply IH in H as (fw & -> & Hsub & Hperm).
        exists ((p, tid) :: fw). simpl. split_and!.
        -- by rewrite <- app_assoc.
        -- by apply sublist_skip.
        -- apply list_remove_perm in E. simpl in Hperm. by rewrite E, Hperm.
      * intros H. apply IH in H as (fw & -> & Hsub & Hperm).
        exists fw. split_and!; [done | by apply sublist_cons | done].
    + destruct (monitoring_radio st).
      * intros H. apply IH in H as (fw & -> & Hsub & Hperm).
        exists fw. split_and!; [done | by apply sublist_cons | done].
      * by intros [= <- <- <- <-].
    + intros H. apply IH in H as (fw & -> & Hsub & Hperm).
      exists fw. split_and!; [done | by apply sublist_cons | done].
    + by intros [= <- <- <- <-].
Qed.

(** X14: a result message of a registered manager that is handled without an
    exception.  The frames forwarded to the client, in one multipart send,
    are frames of result sub-messages of the message, in their order; each
    took one occurrence of its task id off the manager's task list, and
    nothing else left the list: a result for a task id that is not
    outstanding at that manager is not forwarded.  When no frame is
    forwarded nothing is sent to the client and the record and the
    interesting set stay as they are; otherwise the manager becomes
    interesting.  The [last_heartbeat] of the record is not touched: results
    do not count as heartbeats.  No other record changes. *)
Theorem results_forwarded_are_taken_off now manager_id meta msgs st st' m :
  mtype meta = "result"%string →
  dict_get manager_id (_ready_managers st) = Some m →
  process_manager_socket_message now (Some (parts manager_id meta msgs)) st = Ok st' →
  ∃ (fw : list (bytes * Z)) m',
    map (λ p, (p.1, Some (r_result p.2))) fw `sublist_of` msgs
    ∧ dict_get manager_id (_ready_managers st') = Some m'
    ∧ tasks m ≡ₚ map snd fw ++ tasks m'
    ∧ last_heartbeat m' = last_heartbeat m
    ∧ results_outgoing st'
      = results_outgoing st
        ++ match fw with
           | [] => []
           | _ :: _ => [send_multipart (map fst fw)]
           end
    ∧ (∀ k, k ≠ manager_id →
            dict_get k (_ready_managers st') = dict_get k (_ready_managers st))
    ∧ (fw ≠ [] → manager_id ∈ interesting_managers st')
    ∧ (fw = [] → m' = m ∧ interesting_managers st' = interesting_managers st).
Proof.
  intros Hty Hm. unfold process_manager_socket_message. rewrite Hty, Hm. simpl.
  unfold handle_result.
  destruct (result_loop manager_id m msgs [] st) as [[[oe m1] b1] st1] eqn:E.
  pose proof (result_loop_frame _ _ _ _ _ _ _ _ _ E) as (_ & _ & Hint & Hres & _).
  pose proof (result_loop_forwarded _ _ _ _ _ _ _ _ _ E) as (fw & Hb & Hsub & Hperm).
  apply result_loop_registry in E as (extra & Hb' & Hm1 & Hlen & Hsame & Hother & Hid);
    [|done].
  simpl in Hb, Hb'. subst b1. subst extra. destruct oe; [done|].
  destruct fw as [|[p tid] fw]; simpl.
  - intros [= <-]. exists [], m1. rewrite app_nil_r. split_and!; try done.
    + by rewrite Hm1.
    + intros _. split; [|done]. by apply Hsame.
  - intros [= <-]. monitoring_only. simpl.
    exists ((p, tid) :: fw), (mark_idle now m1). split_and!; try done.
    + apply dict_get_set_eq.
    + by rewrite mark_idle_tasks.
    + rewrite Hm1. unfold mark_idle. simpl. by destruct (tasks m1), (idle_since m).
    + by rewrite Hres.
    + intros k Hk. rewrite dict_get_set_ne by done. by apply Hother.
    + intros _. apply elem_of_union. left. by apply elem_of_singleton.
Qed.

Lemma result_loop_asserts manager_id m msgs b st :
  monitoring_radio st = false →
  Forall (λ x : bytes * option result_message, is_Some x.2) msgs →
  (∃ p payload, (p, Some (r_monitoring payload)) ∈ msgs) →
  ∃ m1 b1 st1,
    result_loop manager_id m msgs b st = (Some AssertionError, m1, b1, st1).
Proof.
  intros Hradio Hdec. revert m b st Hradio.
  induction Hdec as [|[p r] msgs [r' Hr] Hdec IH]; intros m b st Hradio Hmon.
  - destruct Hmon as (p & payload & H). by apply elem_of_nil in H.
  - simpl in Hr. subst r. simpl.
    assert (Htail : (∀ payload, r' ≠ r_monitoring payload) →
                    ∃ p payload, (p, Some (r_monitoring payload)) ∈ msgs).
    { intros Hnot. destruct Hmon as (p' & payload & [[= _ <-]|H]%elem_of_cons).
      - by destruct (Hnot payload).
      - eauto. }
    destruct r' as [tid|payload|r_type].
    + destruct (list_remove tid (tasks m)); apply IH; auto.
    + rewrite Hradio. eauto.
    + apply IH; auto.
Qed.

(** X15: with no monitoring radio, a result message of a registered manager
    that carries a monitoring sub-message, all of its sub-messages being
    well formed, raises AssertionError.  Nothing is forwarded to the client
    and the interesting set is unchanged, while the results read before the
    raise have already been taken off the manager's task list. *)
Theorem monitoring_without_radio_raises now manager_id meta msgs st m :
  mtype meta = "result"%string →
  dict_get manager_id (_ready_managers st) = Some m →
  monitoring_radio st = false →
  Forall (λ x : bytes * option result_message, is_Some x.2) msgs →
  (∃ p payload, (p, Some (r_monitoring payload)) ∈ msgs) →
  ∃ st1 (fw : list (bytes * Z)) m1,
    process_manager_socket_message now (Some (parts manager_id meta msgs)) st
    = Raise AssertionError st1
    ∧ results_outgoing st1 = results_outgoing st
    ∧ interesting_managers st1 = interesting_managers st
    ∧ dict_get manager_id (_ready_managers st1) = Some m1
    ∧ map (λ p, (p.1, Some (r_result p.2))) fw `sublist_of` msgs
    ∧ tasks m ≡ₚ map snd fw ++ tasks m1.
Proof.
  intros Hty Hm Hradio Hdec Hmon.
  destruct (result_loop_asserts manager_id m msgs [] st Hradio Hdec Hmon)
    as (m1 & b1 & st1 & E).
  unfold process_manager_socket_message. rewrite Hty, Hm. simpl.
  unfold handle_result. rewrite E.
  pose proof (result_loop_frame _ _ _ _ _ _ _ _ _ E) as (_ & _ & Hint & Hres & _).
  pose proof (result_loop_forwarded _ _ _ _ _ _ _ _ _ E) as (fw & _ & Hsub & Hperm).
  apply result_loop_registry in E as (_ & _ & _ & _ & _ & _ & Hid); [|done].
  by exists st1, fw, m1.
Qed.

(** ** Registration *)

Lemma dict_keys_set_absent {V} (k : bytes) (v : V) (d : dict V) :
  dict_get k d = None → dict_keys (dict_set k v d) = dict_keys d ++ [k].
Proof.
  induction d as [|[k' v'] d IH]; simpl; [done|].
  destruct (String.eqb k k'); [done|]. intros H. simpl. by rewrite IH.
Qed.



(** X18: the version check ignores what follows the last dot of the runtime
    version.  For a platform and a manager whose runtime versions are
    [base1.x] and [base2.y], with no dot in [x] and [y], the registration
    passes the check exactly when [base1 = base2] and the framework versions
    are equal: managers that differ from the interchange in the last
    component only are compatible. *)
Theorem version_check_ignores_last_component r st base1 x base2 y :
  platform_python_v st = (base1 ++ String "." x)%string →
  meta_python_v r = (base2 ++ String "." y)%string →
  rsplit_dot x = None →
  rsplit_dot y = None →
  (version_mismatch r st = false
   ↔ base1 = base2 ∧ meta_parsl_v r = platform_parsl_v st).
Proof.
  intros Hp Hm Hx Hy. unfold version_mismatch.
  rewrite Hp, Hm, !rsplit1_head_last_component by done.
  rewrite negb_false_iff, andb_true_iff, !String.eqb_eq.
  split; intros [H1 H2]; split; congruence.
Qed.

(** ** The registry holds each manager once *)

Lemma dict_get_None_keys {V} (k : bytes) (d : dict V) :
  dict_get k d = None ↔ k ∉ dict_keys d.
Proof.
  induction d as [|[k' v'] d IH]; simpl.
  - split; [intros _; apply not_elem_of_nil | done].
  - rewrite not_elem_of_cons. destruct (String.eqb_spec k k') as [->|Hne].
    + split; [done | by intros [? _]].
    + rewrite IH. tauto.
Qed.

Lemma dict_keys_set_nodup {V} (k : bytes) (v : V) (d : dict V) :
  NoDup (dict_keys d) → NoDup (dict_keys (dict_set k v d)).
Proof.
  intros Hnd. destruct (dict_get k d) eqn:E.
  - rewrite dict_keys_set_present; [done | by rewrite E].
  - rewrite dict_keys_set_absent by done. apply NoDup_app. split_and!; [done | |].
    + intros x Hx ->%list_elem_of_singleton. by apply dict_get_None_keys in E.
    + apply NoDup_singleton.
Qed.

Lemma dict_keys_pop_sub {V} (k x : bytes) (d : dict V) :
  x ∈ dict_keys (dict_pop k d) → x ∈ dict_keys d.
Proof.
  induction d as [|[k' v'] d IH]; simpl; [done|].
  destruct (String.eqb k k'); simpl.
  - intros H. by apply list_elem_of_further, IH.
  - intros [->|H]%elem_of_cons; [apply list_elem_of_here|].
    by apply list_elem_of_further, IH.
Qed.

Lemma dict_keys_pop_nodup {V} (k : bytes) (d : dict V) :
  NoDup (dict_keys d) → NoDup (dict_keys (dict_pop k d)).
Proof.
  induction d as [|[k' v'] d IH]; simpl; [done|].
  intros [Hnotin Hnd]%NoDup_cons. destruct (String.eqb k k'); simpl; [auto|].
  apply NoDup_cons. split; [|auto]. intros H. by apply Hnotin, (dict_keys_pop_sub k).
Qed.

Lemma dict_unique_item {V} (k : bytes) (v x : V) (d : dict V) :
  NoDup (dict_keys d) → dict_get k d = Some v → (k, x) ∈ d → x = v.
Proof.
  induction d as [|[k' v'] d IH]; simpl; [done|].
  intros [Hnotin Hnd]%NoDup_cons. destruct (String.eqb_spec k k') as [->|Hne].
  - intros [= ->] [[= ->]|Hin]%elem_of_cons; [done|].
    exfalso. apply Hnotin. apply list_elem_of_In, in_map_iff.
    exists (k', x). split; [done | by apply list_elem_of_In].
  - intros Hk [[= -> _]|Hin]%elem_of_cons; [done | auto].
Qed.

Lemma result_loop_keys_unique manager_id m msgs b st oe m1 b1 st1 :
  result_loop manager_id m msgs b st = (oe, m1, b1, st1) →
  keys_unique st → keys_unique st1.
Proof.
  unfold keys_unique.
  revert m b st. induction msgs as [|[p r] msgs IH]; intros m b st; simpl.
  - by intros [= <- <- <- <-].
  - destruct r as [[tid|payload|r_type]|].
    + destruct (list_remove tid (tasks m)); intros H Hnd; eapply IH; try exact H;
        simpl; by try apply dict_keys_set_nodup.
    + destruct (monitoring_radio st).
      * intros H Hnd. by eapply IH.
      * by intros [= <- <- <- <-].
    + apply IH.
    + by intros [= <- <- <- <-].
Qed.

Lemma expire_bad_loop_keys_unique now bad st :
  keys_unique st → keys_unique (expire_bad_loop now bad st).
Proof.
  unfold keys_unique.
  revert st. induction bad as [|[manager_id m] bad IH]; intros st Hnd; simpl; [done|].
  apply IH. unfold expire_bad_manager.
  repeat (case_match; simplify_eq; simpl; monitoring_only; simpl).
  all: by auto using dict_keys_pop_nodup, @dict_keys_set_nodup.
Qed.

Lemma expire_drained_loop_keys_unique now (l : list bytes) st :
  keys_unique st → keys_unique (outcome_state (expire_drained_loop now l st)).
Proof.
  unfold keys_unique.
  revert st. induction l as [|manager_id l IH]; intros st Hnd; simpl; [done|].
  destruct (dict_get manager_id (_ready_managers st)) as [m|]; [|done].
  destruct (draining m && (length (tasks m) =? 0)%nat); [|by apply IH].
  apply IH. monitoring_only. simpl. by apply dict_keys_pop_nodup.
Qed.

Lemma dispatch_loop_keys_unique now stack st :
  keys_unique st → keys_unique (outcome_state (dispatch_loop now stack st)).
Proof.
  unfold keys_unique.
  revert st. induction stack as [|manager_id stack IH]; intros st Hnd; simpl; [done|].
  destruct (pending_task_queue st); [done|].
  assert (Hstep : NoDup (dict_keys
            (_ready_managers (outcome_state (dispatch_to now manager_id st))))).
  { unfold dispatch_to.
    destruct (dict_get manager_id (_ready_managers st)) as [m|]; [|done].
    destruct (get_tasks _ (pending_task_queue st)) as [batch rest].
    repeat (case_match; simplify_eq; simpl; monitoring_only; simpl); try done.
    all: by apply dict_keys_set_nodup. }
  destruct (dispatch_to now manager_id st) as [st1|e st1]; simpl in *; [|done].
  by apply IH.
Qed.

Lemma run_step_keys_unique s st :
  keys_unique st → keys_unique (outcome_state (run_step s st)).
Proof.
  intros Hnd. destruct s as [now req|msg|now msg|now|now|now]; simpl.
  - unfold process_command, command_reply, keys_unique in *.
    destruct req as [req|]; [|done].
    repeat (case_match; simplify_eq; simpl; monitoring_only; simpl); try done.
    by apply dict_keys_set_nodup.
  - by destruct msg.
  - unfold process_manager_socket_message, register, handle_result.
    repeat (case_match; simplify_eq; simpl; monitoring_only; simpl); try done.
    all: try match goal with
         | H : result_loop _ _ _ _ _ = _ |- _ =>
             apply result_loop_keys_unique in H; [|done]
         end.
    all: unfold keys_unique in *; simpl; by auto using @dict_keys_set_nodup.
  - by apply expire_bad_loop_keys_unique.
  - by apply expire_drained_loop_keys_unique.
  - unfold process_tasks_to_send. case_match; [|done].
    by apply dispatch_loop_keys_unique.
Qed.

Lemma run_steps_keys_unique l st :
  keys_unique st → keys_unique (outcome_state (run_steps l st)).
Proof.
  revert st. induction l as [|s l IH]; intros st Hnd; simpl; [done|].
  pose proof (run_step_keys_unique s st Hnd) as H.
  destruct (run_step s st) as [st1|e st1]; simpl in *; [by apply IH | done].
Qed.

(** ** Heartbeats and expiry *)

(** X19: a heartbeat keeps its manager.  In a registry that holds each id
    once, after the heartbeat of a registered manager at time [now], an expiry
    step at any time [later] with [later - now] no greater than the threshold
    leaves the manager in the registry, with its record, and does not take it
    out of the interesting set; the same step fails its tasks and removes it
    as soon as [later - now] exceeds the threshold, unless another heartbeat
    came: results and other messages do not count. *)
Theorem heartbeat_keeps_manager_alive now later manager_id meta msgs st m :
  keys_unique st →
  mtype meta = "heartbeat"%string →
  dict_get manager_id (_ready_managers st) = Some m →
  ∃ st1,
    process_manager_socket_message now (Some (parts manager_id meta msgs)) st = Ok st1
    ∧ (later - now ≤ heartbeat_threshold st →
       dict_get manager_id (_ready_managers (expire_bad_managers later st1))
       = Some (with_last_heartbeat now m)
       ∧ (manager_id ∈ interesting_managers (expire_bad_managers later st1)
          ↔ manager_id ∈ interesting_managers st))
    ∧ (heartbeat_threshold st < later - now →
       dict_get manager_id (_ready_managers (expire_bad_managers later st1)) = None
       ∧ manager_id ∉ interesting_managers (expire_bad_managers later st1)).
Proof.
  intros Hnd Hty Hm. unfold process_manager_socket_message. rewrite Hty, Hm. simpl.
  eexists. split; [done|].
  set (m' := with_last_heartbeat now m).
  set (st1 := set_manager_sock _ _).
  assert (Hm' : dict_get manager_id (_ready_managers st1) = Some m')
    by apply dict_get_set_eq.
  assert (Hnd1 : NoDup (dict_keys (_ready_managers st1)))
    by by apply dict_keys_set_nodup.
  unfold expire_bad_managers.
  destruct (expire_bad_loop_spec later (bad_managers later st1) st1)
    as (_ & Hgone & Hkept & Hint).
  split.
  - intros Hfresh.
    assert (Hnot : manager_id ∉ map fst (bad_managers later st1)).
    { intros Hin. apply list_elem_of_In, in_map_iff in Hin as ([k x] & Hk & Hin).
      simpl in Hk. subst k.
      apply list_elem_of_In, elem_of_bad_managers in Hin as [Hin Hbad].
      assert (x = m') as -> by by eapply dict_unique_item.
      simpl in Hbad. lia. }
    split; [by rewrite Hkept | rewrite Hint; tauto].
  - intros Hold.
    assert (Hin : manager_id ∈ map fst (bad_managers later st1)).
    { apply list_elem_of_In, in_map_iff. exists (manager_id, m'). split; [done|].
      apply list_elem_of_In, elem_of_bad_managers. split; [|done].
      by apply dict_get_elem_of. }
    split; [by apply Hgone | rewrite Hint; tauto].
Qed.

(** X20: expiry for missed heartbeats comes before drained expiry in an
    iteration, so a manager whose heartbeat is too old when both steps run is
    expired as lost: it is removed by the first step and the second sends it
    no frame, also when it is draining with no task left. *)
Theorem lost_manager_gets_no_drained_frame now manager_id m st :
  interesting_registered st →
  (manager_id, m) ∈ _ready_managers st →
  heartbeat_threshold st < now - last_heartbeat m →
  ∃ st2,
    run_steps [do_expire_bad now; do_expire_drained now] st = Ok st2
    ∧ dict_get manager_id (_ready_managers st2) = None
    ∧ (manager_id ∉ interesting_managers st2)
    ∧ (∃ sends, manager_sock st2 = manager_sock st ++ sends
                ∧ ∀ payload, (manager_id, payload) ∉ sends).
Proof.
  intros Hreg Hin Hbad. simpl.
  set (st1 := expire_bad_managers now st).
  assert (Hk : manager_id ∈ map fst (bad_managers now st)).
  { apply list_elem_of_In, in_map_iff. exists (manager_id, m). split; [done|].
    by apply list_elem_of_In, elem_of_bad_managers. }
  destruct (expire_bad_loop_spec now (bad_managers now st) st)
    as (_ & Hgone & _ & Hint).
  fold (expire_bad_managers now st) in Hgone, Hint. fold st1 in Hgone, Hint.
  assert (Hnot1 : manager_id ∉ interesting_managers st1) by (rewrite Hint; tauto).
  assert (Hreg1 : interesting_registered st1).
  { apply interesting_registered_state_inv, expire_bad_managers_inv.
    by apply interesting_registered_state_inv. }
  destruct (expire_drained_loop_spec now (elements (interesting_managers st1)) st1)
    as (st2 & Hstep & Hsock & _ & Hgone2 & Hkept2 & Hint2).
  { apply NoDup_elements. }
  { intros k Hk'. by apply Hreg1, elem_of_elements. }
  fold (drained_managers st1) in Hsock, Hgone2, Hkept2, Hint2.
  unfold expire_drained_managers. rewrite Hstep. simpl. exists st2. split; [done|].
  assert (Hnd : manager_id ∉ drained_managers st1).
  { unfold drained_managers. rewrite list_elem_of_In, filter_In, <- list_elem_of_In.
    rewrite elem_of_elements. tauto. }
  split_and!.
  - rewrite Hkept2 by done. by apply Hgone.
  - rewrite Hint2. tauto.
  - exists (map (λ k, (k, PKL_DRAINED_CODE)) (drained_managers st1)).
    split.
    + rewrite Hsock. f_equal. apply expire_bad_managers_untouched.
    + intros payload Hp. apply list_elem_of_In, in_map_iff in Hp as (k & [= -> _] & Hp).
      by apply Hnd, list_elem_of_In.
Qed.

(** ** Probing addresses *)

Lemma addr_map_keys addresses :
  NoDup (dict_keys (addr_map addresses))
  ∧ ∀ a, a ∈ dict_keys (addr_map addresses) ↔ a ∈ addresses.
Proof.
  unfold addr_map.
  assert (H : ∀ d : dict unit, NoDup (dict_keys d) →
    NoDup (dict_keys (foldl (λ d addr, dict_set addr () d) d addresses))
    ∧ ∀ a, a ∈ dict_keys (foldl (λ d addr, dict_set addr () d) d addresses)
           ↔ a ∈ dict_keys d ∨ a ∈ addresses).
  { induction addresses as [|x l IH]; intros d Hnd; simpl.
    - split; [done|]. intros a. rewrite elem_of_nil. tauto.
    - destruct (IH (dict_set x () d)) as [H1 H2]; [by apply dict_keys_set_nodup|].
      split; [done|]. intros a. rewrite H2, elem_of_cons.
      destruct (dict_get x d) eqn:E.
      + rewrite dict_keys_set_present by by rewrite E.
        split; [tauto|]. intros [?|[->|?]]; auto.
        left. apply dec_stable. intros Hn. apply dict_get_None_keys in Hn. congruence.
      + rewrite dict_keys_set_absent, elem_of_app, list_elem_of_singleton by done.
        tauto. }
  destruct (H [] (NoDup_nil_2)) as [H1 H2]. split; [done|].
  intros a. rewrite H2. simpl. rewrite elem_of_nil. tauto.
Qed.

Lemma probe_loop_result deadline keys polls fc a :
  probe_loop deadline keys polls fc = Some (Some a) →
  fc = Some a
  ∨ ∃ i t ready, polls !! i = Some (t, ready) ∧ t < deadline
                 ∧ List.find ready keys = Some a.
Proof.
  revert fc. induction polls as [|[t ready] polls IH]; intros fc; simpl; [done|].
  destruct (Z.ltb_spec t deadline) as [Ht|Ht]; simpl.
  - destruct (truthy fc); simpl; [intros [= ->]; by left|].
    intros [Hfc|(i & t' & r' & Hi & Ht' & Hf)]%IH.
    + unfold probe_pass in Hfc. destruct (List.find ready keys) as [b|] eqn:E.
      * injection Hfc as ->. right. by exists O, t, ready.
      * by left.
    + right. by exists (S i), t', r'.
  - intros [= ->]. by left.
Qed.

Lemma probe_loop_keeps_address deadline keys polls c :
  probe_loop deadline keys polls (Some c) ≠ Some None.
Proof.
  revert c. induction polls as [|[t r] polls IH]; intros c; [done|].
  cbn [probe_loop].
  destruct ((t <? deadline) && negb (truthy (Some c))); [|done].
  unfold probe_pass. destruct (List.find r keys); apply IH.
Qed.

(** X21: [probe_addresses] returns None or one of the addresses given.  An
    address it returns had a connection event in a pass made before the
    deadline [start_t + timeout], and was the first one with an event in that
    pass, in the order the addresses were first given; when it returns None,
    no address had an event in the first pass, if there was one. *)
Theorem probe_returns_a_connected_address addresses timeout start_t polls :
  (∀ a, probe_addresses addresses timeout start_t polls = Some (Some a) →
        a ∈ addresses
        ∧ ∃ i t ready,
            polls !! i = Some (t, ready) ∧ t < start_t + timeout
            ∧ ready a = true
            ∧ List.find ready (dict_keys (addr_map addresses)) = Some a)
  ∧ (probe_addresses addresses timeout start_t polls = Some None →
     ∀ t ready, polls !! 0%nat = Some (t, ready) → t < start_t + timeout →
                ∀ a, a ∈ addresses → ready a = false).
Proof.
  unfold probe_addresses. split.
  - intros a [Hfc|(i & t & ready & Hi & Ht & Hf)]%probe_loop_result; [done|].
    pose proof (find_some _ _ Hf) as [Hin Hr].
    split; [by apply addr_map_keys, list_elem_of_In|]. by exists i, t, ready.
  - destruct polls as [|[t0 r0] polls]; [done|]. simpl.
    intros Hloop t ready [= -> ->] Ht a Ha.
    apply Z.ltb_lt in Ht. rewrite Ht in Hloop. simpl in Hloop.
    unfold probe_pass in Hloop.
    destruct (List.find ready (dict_keys (addr_map addresses))) as [b|] eqn:E.
    + exfalso. by eapply probe_loop_keeps_address.
    + apply dec_stable. intros Hn. apply not_false_iff_true in Hn.
      eapply find_none in E; [|by apply list_elem_of_In, addr_map_keys].
      congruence.
Qed.

(** X22: the loop of [probe_addresses] ends at the first test that reads a
    time at or after the deadline, if it has not ended before: given such a
    reading the function returns.  With a timeout that is not positive and a
    clock that does not go back, it returns None without trying any
    address. *)
Theorem probe_gives_up_at_the_deadline addresses timeout start_t polls :
  (∀ i t ready, polls !! i = Some (t, ready) → start_t + timeout ≤ t →
                is_Some (probe_addresses addresses timeout start_t polls))
  ∧ (∀ t ready rest, polls = (t, ready) :: rest → timeout ≤ 0 → start_t ≤ t →
                     probe_addresses addresses timeout start_t polls = Some None).
Proof.
  unfold probe_addresses. split.
  - generalize (@None string). intros fc i. revert polls fc.
    induction i as [|i IH]; intros [|[t0 r0] polls] fc t ready; simpl; try done.
    + intros [= -> ->] Ht. apply Z.ltb_ge in Ht. by rewrite Ht.
    + intros Hi Ht. destruct ((t0 <? start_t + timeout) && negb (truthy fc)); [|done].
      by eapply IH.
  - intros t ready rest -> Hto Ht. simpl.
    assert ((t <? start_t + timeout) = false) as -> by (apply Z.ltb_ge; lia). done.
Qed.

(** ** The further properties at work on the examples *)

Lemma example_registered_reached :
  run_steps [do_manager_message 0 (Some (parts "M" (example_registration 3) []))]
    example_state = Ok example_registered.
Proof. vm_compute. reflexivity. Qed.

Lemma example_registered_inv : state_inv within_capacity example_registered.
Proof.
  eapply run_steps_capacity_safe;
    [apply initial_state_inv | | exact example_registered_reached].
  repeat constructor. simpl. intros r [= <-]. simpl. lia.
Qed.

Lemma example_registered_keys_unique : keys_unique example_registered.
Proof. apply run_steps_keys_unique. constructor. Qed.

Lemma state_inv_interesting P st : state_inv P st → interesting_registered st.
Proof. intros [_ H]. exact H. Qed.

Lemma example_pending_inv : state_inv within_capacity example_pending.
Proof.
  apply (run_steps_capacity_safe
           [do_task_incoming (Some (example_task 1 (Some 0)));
            do_task_incoming (Some (example_task 2 (Some 0)))]
           example_registered example_pending example_registered_inv).
  - repeat constructor.
  - vm_compute. reflexivity.
Qed.

Lemma example_draining_inv : state_inv within_capacity example_draining.
Proof.
  apply (run_steps_capacity_safe
           [do_manager_message 1
              (Some (parts "M" {| mtype := "drain"; registration := None |} []))]
           example_registered example_draining example_registered_inv).
  - repeat constructor. simpl. intros r. discriminate.
  - vm_compute. reflexivity.
Qed.

Lemma hold_worker_deactivates_witness :
  ∃ st',
    process_command 3 (Some "HOLD_WORKER;M"%string) example_registered = Ok st'
    ∧ option_map active (dict_get "M" (_ready_managers st')) = Some false
    ∧ command_channel st' = [reply_None].
Proof.
  destruct (hold_worker_deactivates 3 "M" example_registered) as (Hknown & _ & _).
  - reflexivity.
  - destruct (Hknown example_record) as (st' & Hstep & Hrec & _ & _ & _ & _ & Hreply).
    + vm_compute. reflexivity.
    + exists st'. split; [exact Hstep|]. rewrite Hrec, Hreply. split; reflexivity.
Defined.

Lemma managers_reply_lists_the_registry_witness :
  process_command 3 (Some "MANAGERS"%string) example_raw_registered
  = Raise UnicodeDecodeError example_raw_registered.
Proof.
  destruct (managers_reply_lists_the_registry 3 example_raw_registered) as [_ Hraise].
  apply Hraise. apply Exists_exists. eexists. split.
  - vm_compute. apply list_elem_of_here.
  - vm_compute. reflexivity.
Defined.

Lemma dispatch_is_work_conserving_witness :
  ∃ st', process_tasks_to_send 2 example_pending = Ok st'
         ∧ (pending_task_queue st' = [] ∨ interesting_managers st' = ∅).
Proof.
  apply dispatch_is_work_conserving.
  - intros reg ids. reflexivity.
  - exact (proj1 example_pending_inv).
  - exact (state_inv_interesting _ _ example_pending_inv).
Defined.

Lemma drained_managers_are_retired_witness :
  ∃ st', expire_drained_managers 2 example_draining = Ok st'
         ∧ manager_sock st' = [("M"%string, PKL_DRAINED_CODE)]
         ∧ dict_get "M" (_ready_managers st') = None.
Proof.
  destruct (drained_managers_are_retired 2 example_draining)
    as (st' & Hstep & Hsock & _ & Hgone & _).
  - exact (state_inv_interesting _ _ example_draining_inv).
  - exists st'. split; [exact Hstep|]. split.
    + rewrite Hsock. vm_compute. reflexivity.
    + apply Hgone. vm_compute. apply list_elem_of_here.
Defined.

Lemma results_forwarded_are_taken_off_witness :
  ∃ st' (fw : list (bytes * Z)) m',
    process_manager_socket_message 5
      (Some (parts "M" example_result [("frame-1"%string, Some (r_result 1))]))
      example_dispatched = Ok st'
    ∧ dict_get "M" (_ready_managers st') = Some m'
    ∧ [1] ≡ₚ map snd fw ++ tasks m'.
Proof.
  destruct (results_forwarded_are_taken_off 5 "M" example_result
              [("frame-1"%string, Some (r_result 1))] example_dispatched
              (outcome_state
                 (process_manager_socket_message 5
                    (Some (parts "M" example_result
                             [("frame-1"%string, Some (r_result 1))]))
                    example_dispatched))
              (with_idle_since None
                 (with_tasks [1]
                    (new_record 0
                       {| meta_python_v := "3.12.7"; meta_parsl_v := "2024.11.25";
                          meta_start_time := 0;
                          meta_block_id := Some "block-0"%string;
                          meta_worker_count := 2; meta_max_capacity := 1;
                          meta_hostname := "node-1"; meta_packages := [];
                          meta_record := no_record_keys |}))))
    as (fw & m' & _ & Hrec & Hperm & _).
  - reflexivity.
  - vm_compute. reflexivity.
  - vm_compute. reflexivity.
  - eexists _, fw, m'. split; [vm_compute; reflexivity|]. split; [exact Hrec|].
    exact Hperm.
Defined.

Lemma monitoring_without_radio_raises_witness :
  ∃ st1 m1,
    process_manager_socket_message 5
      (Some (parts "M" example_result
               [("frame-1"%string, Some (r_result 1));
                ("frame-2"%string, Some (r_monitoring "info"))]))
      example_quiet = Raise AssertionError st1
    ∧ results_outgoing st1 = []
    ∧ dict_get "M" (_ready_managers st1) = Some m1.
Proof.
  destruct (monitoring_without_radio_raises 5 "M" example_result
              [("frame-1"%string, Some (r_result 1));
               ("frame-2"%string, Some (r_monitoring "info"))]
              example_quiet
              (with_idle_since None (with_tasks [1; 2] example_record)))
    as (st1 & fw & m1 & Hstep & Hres & _ & Hrec & _).
  - reflexivity.
  - vm_compute. reflexivity.
  - vm_compute. reflexivity.
  - repeat constructor; simpl; eauto.
  - exists "frame-2"%string, "info"%string.
    apply list_elem_of_further, list_elem_of_here.
  - exists st1, m1. split; [exact Hstep|]. split; [|exact Hrec].
    rewrite Hres. vm_compute. reflexivity.
Defined.



Lemma version_check_ignores_last_component_witness :
  version_mismatch
    {| meta_python_v := "3.12.7"; meta_parsl_v := "2024.11.25";
       meta_start_time := 0; meta_block_id := Some "block-0"%string;
       meta_worker_count := 2; meta_max_capacity := 3;
       meta_hostname := "node-1"; meta_packages := [];
       meta_record := no_record_keys |} example_state = false.
Proof.
  apply (version_check_ignores_last_component _ example_state "3.12" "1" "3.12" "7").
  - reflexivity.
  - reflexivity.
  - reflexivity.
  - reflexivity.
  - split; reflexivity.
Defined.

Lemma heartbeat_keeps_manager_alive_witness :
  ∃ st1,
    process_manager_socket_message 10 (Some (parts "M" example_heartbeat []))
      example_registered = Ok st1
    ∧ dict_get "M" (_ready_managers (expire_bad_managers 130 st1))
      = Some (with_last_heartbeat 10 example_record)
    ∧ dict_get "M" (_ready_managers (expire_bad_managers 131 st1)) = None.
Proof.
  destruct (heartbeat_keeps_manager_alive 10 130 "M" example_heartbeat []
              example_registered example_record)
    as (st1 & Hstep & Hfresh & _).
  - exact example_registered_keys_unique.
  - reflexivity.
  - vm_compute. reflexivity.
  - exists st1. split; [exact Hstep|]. split.
    + apply Hfresh. vm_compute. discriminate.
    + destruct (heartbeat_keeps_manager_alive 10 131 "M" example_heartbeat []
                  example_registered example_record
                  example_registered_keys_unique eq_refl)
        as (st1' & Hstep' & _ & Hold); [vm_compute; reflexivity|].
      rewrite Hstep in Hstep'. injection Hstep' as <-.
      apply Hold. vm_compute. reflexivity.
Defined.

Lemma lost_manager_gets_no_drained_frame_witness :
  ∃ st2,
    run_steps [do_expire_bad 1000; do_expire_drained 1000] example_draining = Ok st2
    ∧ dict_get "M" (_ready_managers st2) = None.
Proof.
  destruct (lost_manager_gets_no_drained_frame 1000 "M"
              (with_draining true example_record) example_draining)
    as (st2 & Hstep & Hgone & _).
  - exact (state_inv_interesting _ _ example_draining_inv).
  - vm_compute. apply list_elem_of_here.
  - vm_compute. reflexivity.
  - by exists st2.
Defined.
